(** * VROOM: the CrossExchange local-search operator and the input parser

    A shallow embedding of
      - [src/problems/cvrp/operators/cross_exchange.cpp]
        (constructor, [compute_gain], [is_valid], [apply]) and
      - [src/utils/input_parser.cpp] ([parse] and its helpers),
    together with the properties of the specification that concern them.

    Conventions.
      - A [std::vector] is a [list]; [v[i]] is the checked lookup [v !! i].
        Reading or writing past the end of a vector has no defined
        behaviour in C++: in the embedding the enclosing function then
        yields [None].  So "the function yields [Some _]" means that every
        access it performed was in bounds.
      - Ranks, vehicle indices and matrix indices ([Index]) are natural
        numbers when they are used to address a vector.  [Cost] and [Gain]
        values are integers; the ranges needed for the 64-bit signed [Gain]
        arithmetic are established in [compute_gain_fits_Gain].
      - Types that are declared in headers outside the verified sources
        (typedefs.h, location.h, job.h, amount.h, time_window.h, input.h,
        solution_state.h, rapidjson) are represented by the data their
        users in the verified sources rely on. *)

From Stdlib Require Import ZArith Lia DecimalString.
From stdpp Require Import base tactics option list sorting strings gmap.

Local Open Scope Z_scope.

(** ** Basic types (structures/typedefs.h) *)

Abbreviation Index := nat (only parsing).
Abbreviation Id := Z (only parsing).
Abbreviation Cost := Z (only parsing).
Abbreviation Gain := Z (only parsing).
Abbreviation Duration := Z (only parsing).
Abbreviation Capacity := Z (only parsing).
Abbreviation Skill := Z (only parsing).
Abbreviation Skills := (gset Z) (only parsing).
Abbreviation Amount := (list Z) (only parsing).
Abbreviation Matrix := (list (list Z)) (only parsing).
Abbreviation RawRoute := (list nat) (only parsing).

(** A JSON number as rapidjson stores it: an integer of at most 64 bits or
    a floating-point literal.  Floating-point values are only carried
    around by the parser (coordinates), never inspected, so a literal is
    kept as it was read. *)
Inductive Number :=
| NInt (z : Z)
| NReal (digits : string).

Abbreviation Coordinates := (Number * Number)%type (only parsing).

(** [Location]: a matrix index, coordinates, or both.  A location built
    from coordinates alone receives its index later (outside [parse]). *)
Record Location := mkLocation {
  loc_index : option Index;
  loc_coords : option Coordinates;
}.

(** [Location::index()]: only meaningful once an index is set. *)
Definition Location_index (l : Location) : option Index := loc_index l.

Record TimeWindow := mkTimeWindow {
  tw_start : Duration;
  tw_end : Duration;
}.

Record Job := mkJob {
  job_id : Id;
  job_location : Location;
  job_service : Duration;
  job_amount : Amount;
  job_skills : Skills;
  job_tws : list TimeWindow;
}.

(** [Job::index()] *)
Definition Job_index (j : Job) : option Index := Location_index (job_location j).

Record Vehicle := mkVehicle {
  vehicle_id : Id;
  vehicle_start : option Location;
  vehicle_end : option Location;
  vehicle_capacity : Amount;
  vehicle_skills : Skills;
  vehicle_tw : TimeWindow;
}.

Definition has_start (v : Vehicle) : bool := bool_decide (is_Some (vehicle_start v)).
Definition has_end (v : Vehicle) : bool := bool_decide (is_Some (vehicle_end v)).

Inductive ROUTER := OSRM | LIBOSRM | ORS.

(** The routing wrapper set on an [Input]: which backend, for which
    profile, at which server. *)
Record Server := mkServer { server_host : string; server_port : string }.

Inductive Wrapper :=
| RoutedWrapper (profile : string) (server : Server)
| LibosrmWrapper (profile : string)
| OrsHttpWrapper (profile : string) (server : Server).

Record Input := mkInput {
  input_geometry : bool;
  input_matrix : Matrix;
  input_vehicles : list Vehicle;
  input_jobs : list Job;
  input_routing : option Wrapper;
}.

(** ** Amounts

    Modelled from the spec: structures/vroom/amount.h is absent.  The spec
    describes an amount as a vector of integers, added and subtracted
    component by component and compared componentwise.  The operands of
    one instance all have the same number of components. *)
Definition amount_add (a b : Amount) : Amount := zip_with Z.add a b.
Definition amount_sub (a b : Amount) : Amount := zip_with Z.sub a b.
Definition amount_le (a b : Amount) : bool := bool_decide (Forall2 Z.le a b).

(** ** Skill compatibility

    Modelled from the spec: [Input::vehicle_ok_with_job] (input.h) is
    absent.  The spec defines compatibility of job [j] with vehicle [v] as
    [skills(j) ⊆ skills(v)].  Both ranks address the instance's vectors. *)
Definition vehicle_ok_with_job (input : Input) (v_index j_index : Index) : option bool :=
  v ← input_vehicles input !! v_index;
  j ← input_jobs input !! j_index;
  Some (bool_decide (job_skills j ⊆ vehicle_skills v)).

(** ** Solution state (the two caches the operator reads) *)
Record SolutionState := mkSolutionState {
  fwd_amounts : list (list Amount);
  edge_costs_around_edge : list (list Gain);
}.

(** ** Matrix access: [m[i][j]] *)
Definition m_at (m : Matrix) (i j : Index) : option Cost :=
  line ← m !! i; line !! j.

(** [_input.jobs[j].index()] and [_input.jobs[route[k]].index()] *)
Definition job_index_of (input : Input) (j : Index) : option Index :=
  job ← input_jobs input !! j;
  Job_index job.

Definition job_index_at (input : Input) (route : RawRoute) (k : nat) : option Index :=
  j ← route !! k;
  job_index_of input j.

(** ** The operator

    The object holds references to the instance, to the solution state and
    to the two routes it may rewrite.  The two routes are distinct objects
    (the routes of two different vehicles), so each is a field of the
    operator's view of the world; [compute_gain] and [apply] map such a
    view to the next one. *)
Record CrossExchange := mkCrossExchange {
  _input : Input;
  _sol_state : SolutionState;
  s_route : RawRoute;
  s_vehicle : Index;
  s_rank : Index;
  t_route : RawRoute;
  t_vehicle : Index;
  t_rank : Index;
  gain_computed : bool;
  stored_gain : Gain;
  normal_s_gain : Gain;
  reversed_s_gain : Gain;
  normal_t_gain : Gain;
  reversed_t_gain : Gain;
  reverse_s_edge : bool;
  reverse_t_edge : bool;
}.

(** The five assertions of the constructor. *)
Definition CrossExchange_asserts (s_route : RawRoute) (s_vehicle s_rank : Index)
    (t_route : RawRoute) (t_vehicle t_rank : Index) : Prop :=
  s_vehicle ≠ t_vehicle ∧
  (2 ≤ length s_route)%nat ∧
  (2 ≤ length t_route)%nat ∧
  (s_rank < length s_route - 1)%nat ∧
  (t_rank < length t_route - 1)%nat.

(** The constructor.  A failed assertion aborts: no operator is built.
    The members that the constructor leaves unset (the gains) start at 0
    here; [compute_gain] overwrites each of them. *)
Definition CrossExchange_new (input : Input) (sol_state : SolutionState)
    (s_route : RawRoute) (s_vehicle s_rank : Index)
    (t_route : RawRoute) (t_vehicle t_rank : Index) : option CrossExchange :=
  if decide (CrossExchange_asserts s_route s_vehicle s_rank t_route t_vehicle t_rank)
  then Some {| _input := input; _sol_state := sol_state;
               s_route := s_route; s_vehicle := s_vehicle; s_rank := s_rank;
               t_route := t_route; t_vehicle := t_vehicle; t_rank := t_rank;
               gain_computed := false; stored_gain := 0;
               normal_s_gain := 0; reversed_s_gain := 0;
               normal_t_gain := 0; reversed_t_gain := 0;
               reverse_s_edge := false; reverse_t_edge := false |}
  else None.

(** [CrossExchange::compute_gain].  [s_route.size() - 2] is computed on
    [size_t]; the constructor has asserted a size of at least 2, so the
    subtraction does not wrap and the natural-number subtraction below is
    the same number.  [s_rank + 1] and [s_rank + 2] are computed on [int]
    (integer promotion of [Index]) and do not wrap either.

    [Gain] is a signed 64-bit integer and [Cost] an unsigned 32-bit one;
    the arithmetic on gains is written here on [Z].  It is the arithmetic
    of the program as long as no operation leaves the range of [Gain]: the
    theorems that speak of the values computed assume costs below
    [2 ^ 32] and cache entries within [2 ^ 61] of 0 ([cache_within]), or
    cache entries that hold their defined value ([cache_holds]), and
    state the range of the results. *)
Definition compute_gain (op : CrossExchange) : option CrossExchange :=
  let m := input_matrix (_input op) in
  v_source ← input_vehicles (_input op) !! s_vehicle op;
  v_target ← input_vehicles (_input op) !! t_vehicle op;
  s_index ← job_index_at (_input op) (s_route op) (s_rank op);
  s_after_index ← job_index_at (_input op) (s_route op) (s_rank op + 1);
  t_index ← job_index_at (_input op) (t_route op) (t_rank op);
  t_after_index ← job_index_at (_input op) (t_route op) (t_rank op + 1);
  (* costs added with the target edge *)
  '(previous_cost, reverse_previous_cost) ←
    (if decide (s_rank op = 0%nat) then
       if has_start v_source then
         p_index ← vehicle_start v_source ≫= Location_index;
         a ← m_at m p_index t_index;
         b ← m_at m p_index t_after_index;
         Some (a, b)
       else Some (0, 0)
     else
       p_index ← job_index_at (_input op) (s_route op) (s_rank op - 1);
       a ← m_at m p_index t_index;
       b ← m_at m p_index t_after_index;
       Some (a, b));
  '(next_cost, reverse_next_cost) ←
    (if decide (s_rank op = (length (s_route op) - 2)%nat) then
       if has_end v_source then
         n_index ← vehicle_end v_source ≫= Location_index;
         a ← m_at m t_after_index n_index;
         b ← m_at m t_index n_index;
         Some (a, b)
       else Some (0, 0)
     else
       n_index ← job_index_at (_input op) (s_route op) (s_rank op + 2);
       a ← m_at m t_after_index n_index;
       b ← m_at m t_index n_index;
       Some (a, b));
  around_s ← edge_costs_around_edge (_sol_state op) !! s_vehicle op ≫= (.!! s_rank op);
  let normal_s_gain := around_s - previous_cost - next_cost in
  t_edge ← m_at m t_index t_after_index;
  t_edge_back ← m_at m t_after_index t_index;
  let reverse_edge_cost := t_edge - t_edge_back in
  let reversed_s_gain :=
    around_s + reverse_edge_cost - reverse_previous_cost - reverse_next_cost in
  let reverse_t_edge :=
    if bool_decide (reversed_s_gain > normal_s_gain) then true else reverse_t_edge op in
  (* costs added with the source edge *)
  '(previous_cost, reverse_previous_cost) ←
    (if decide (t_rank op = 0%nat) then
       if has_start v_target then
         p_index ← vehicle_start v_target ≫= Location_index;
         a ← m_at m p_index s_index;
         b ← m_at m p_index s_after_index;
         Some (a, b)
       else Some (0, 0)
     else
       p_index ← job_index_at (_input op) (t_route op) (t_rank op - 1);
       a ← m_at m p_index s_index;
       b ← m_at m p_index s_after_index;
       Some (a, b));
  '(next_cost, reverse_next_cost) ←
    (if decide (t_rank op = (length (t_route op) - 2)%nat) then
       if has_end v_target then
         n_index ← vehicle_end v_target ≫= Location_index;
         a ← m_at m s_after_index n_index;
         b ← m_at m s_index n_index;
         Some (a, b)
       else Some (0, 0)
     else
       n_index ← job_index_at (_input op) (t_route op) (t_rank op + 2);
       a ← m_at m s_after_index n_index;
       b ← m_at m s_index n_index;
       Some (a, b));
  around_t ← edge_costs_around_edge (_sol_state op) !! t_vehicle op ≫= (.!! t_rank op);
  let normal_t_gain := around_t - previous_cost - next_cost in
  s_edge ← m_at m s_index s_after_index;
  s_edge_back ← m_at m s_after_index s_index;
  let reverse_edge_cost := s_edge - s_edge_back in
  let reversed_t_gain :=
    around_t + reverse_edge_cost - reverse_previous_cost - reverse_next_cost in
  let reverse_s_edge :=
    if bool_decide (reversed_t_gain > normal_t_gain) then true else reverse_s_edge op in
  Some {| _input := _input op; _sol_state := _sol_state op;
          s_route := s_route op; s_vehicle := s_vehicle op; s_rank := s_rank op;
          t_route := t_route op; t_vehicle := t_vehicle op; t_rank := t_rank op;
          gain_computed := true;
          stored_gain := Z.max normal_s_gain reversed_s_gain
                         + Z.max normal_t_gain reversed_t_gain;
          normal_s_gain := normal_s_gain; reversed_s_gain := reversed_s_gain;
          normal_t_gain := normal_t_gain; reversed_t_gain := reversed_t_gain;
          reverse_s_edge := reverse_s_edge; reverse_t_edge := reverse_t_edge |}.

(** [CrossExchange::is_valid].  Every conjunct is evaluated ([&=] does not
    short-circuit). *)
Definition is_valid (op : CrossExchange) : option bool :=
  let input := _input op in
  s_current_job_rank ← s_route op !! s_rank op;
  t_current_job_rank ← t_route op !! t_rank op;
  s_after_job_rank ← s_route op !! (s_rank op + 1)%nat;
  t_after_job_rank ← t_route op !! (t_rank op + 1)%nat;
  valid ← vehicle_ok_with_job input (t_vehicle op) s_current_job_rank;
  ok ← vehicle_ok_with_job input (t_vehicle op) s_after_job_rank;
  let valid := valid && ok in
  ok ← vehicle_ok_with_job input (s_vehicle op) t_current_job_rank;
  let valid := valid && ok in
  ok ← vehicle_ok_with_job input (s_vehicle op) t_after_job_rank;
  let valid := valid && ok in
  s_current ← input_jobs input !! s_current_job_rank;
  s_after ← input_jobs input !! s_after_job_rank;
  t_current ← input_jobs input !! t_current_job_rank;
  t_after ← input_jobs input !! t_after_job_rank;
  s_back ← fwd_amounts (_sol_state op) !! s_vehicle op ≫= last;
  v_source ← input_vehicles input !! s_vehicle op;
  let valid := valid &&
    amount_le
      (amount_add (amount_add (amount_sub (amount_sub s_back (job_amount s_current))
                                          (job_amount s_after))
                              (job_amount t_current))
                  (job_amount t_after))
      (vehicle_capacity v_source) in
  t_back ← fwd_amounts (_sol_state op) !! t_vehicle op ≫= last;
  v_target ← input_vehicles input !! t_vehicle op;
  let valid := valid &&
    amount_le
      (amount_add (amount_add (amount_sub (amount_sub t_back (job_amount t_current))
                                          (job_amount t_after))
                              (job_amount s_current))
                  (job_amount s_after))
      (vehicle_capacity v_target) in
  Some valid.

(** [std::swap(a[i], b[j])] on two distinct vectors, and on one vector. *)
Definition swap_between (a b : RawRoute) (i j : nat) : option (RawRoute * RawRoute) :=
  x ← a !! i;
  y ← b !! j;
  Some (<[i := y]> a, <[j := x]> b).

Definition swap_within (a : RawRoute) (i j : nat) : option RawRoute :=
  x ← a !! i;
  y ← a !! j;
  Some (<[j := x]> (<[i := y]> a)).

(** [CrossExchange::apply]. *)
Definition apply (op : CrossExchange) : option CrossExchange :=
  '(s1, t1) ← swap_between (s_route op) (t_route op) (s_rank op) (t_rank op);
  '(s2, t2) ← swap_between s1 t1 (s_rank op + 1) (t_rank op + 1);
  t3 ← (if reverse_s_edge op then swap_within t2 (t_rank op) (t_rank op + 1)
        else Some t2);
  s3 ← (if reverse_t_edge op then swap_within s2 (s_rank op) (s_rank op + 1)
        else Some s2);
  Some {| _input := _input op; _sol_state := _sol_state op;
          s_route := s3; s_vehicle := s_vehicle op; s_rank := s_rank op;
          t_route := t3; t_vehicle := t_vehicle op; t_rank := t_rank op;
          gain_computed := gain_computed op; stored_gain := stored_gain op;
          normal_s_gain := normal_s_gain op; reversed_s_gain := reversed_s_gain op;
          normal_t_gain := normal_t_gain op; reversed_t_gain := reversed_t_gain op;
          reverse_s_edge := reverse_s_edge op; reverse_t_edge := reverse_t_edge op |}.

(** ** Costs of routes, and the defined value of the edge cache

    Modelled from the spec: the cost of a route and the content of
    [edge_costs_around_edge] are computed by code that is absent
    (utils/helpers.h, solution_state.cpp).  The spec defines a route as the
    sequence of its jobs, bracketed by the vehicle's start and end when
    present; the cost of an edge as [M[index(k)][index(k+1)]]; and
    [edge_costs_around_edge[v][k] = M[prev(k)][p_k] + M[p_{k+1}][next(k+1)]]
    where prev and next use the vehicle's start and end at the route ends
    and contribute 0 when that end is absent. *)

(** [M[i][j]] as a number (0 outside the matrix). *)
Definition M (m : Matrix) (i j : Index) : Z := default 0 (m_at m i j).

(** Cost of the link between two optional places: 0 when one is absent. *)
Definition link (m : Matrix) (a b : option Index) : Z :=
  match a, b with
  | Some i, Some j => M m i j
  | _, _ => 0
  end.

Fixpoint path_cost (m : Matrix) (p : list Index) : Z :=
  match p with
  | i :: (j :: _) as rest => M m i j + path_cost m rest
  | _ => 0
  end.

(** Matrix index of each job of a route. *)
Definition route_indices (input : Input) (route : RawRoute) : list Index :=
  omap (job_index_of input) route.

Definition route_cost (input : Input) (v : Vehicle) (route : RawRoute) : Z :=
  path_cost (input_matrix input)
    (option_list (vehicle_start v ≫= Location_index)
     ++ route_indices input route
     ++ option_list (vehicle_end v ≫= Location_index)).

Definition prev_index (input : Input) (v : Vehicle) (route : RawRoute) (k : nat) : option Index :=
  if decide (k = 0%nat) then vehicle_start v ≫= Location_index
  else job_index_at input route (k - 1).

Definition next_index (input : Input) (v : Vehicle) (route : RawRoute) (k : nat) : option Index :=
  if decide (k = (length route - 1)%nat) then vehicle_end v ≫= Location_index
  else job_index_at input route (k + 1).

Definition edge_cost_around_edge_def (input : Input) (v : Vehicle) (route : RawRoute)
    (k : nat) : Z :=
  link (input_matrix input) (prev_index input v route k) (job_index_at input route k)
  + link (input_matrix input) (job_index_at input route (k + 1))
         (next_index input v route (k + 1)).

(** The cache entry of vehicle [v_rank] at rank [k] holds its defined value. *)
Definition cache_holds (input : Input) (sol : SolutionState) (v_rank : Index)
    (route : RawRoute) (k : nat) : Prop :=
  ∃ v, input_vehicles input !! v_rank = Some v ∧
       edge_costs_around_edge sol !! v_rank ≫= (.!! k)
       = Some (edge_cost_around_edge_def input v route k).

(** ** Well-formed instances and states

    What the rest of the program guarantees about the objects an operator
    is built on: the matrix is square and covers every index in use, the
    routes hold ranks of existing jobs, and the per-vehicle caches have one
    entry per route position. *)
Record wf_input (input : Input) : Prop := {
  wf_square : Forall (λ line : list Z, length line = length (input_matrix input))
                     (input_matrix input);
  wf_jobs : Forall (λ j, ∃ i : nat, Job_index j = Some i
                                    ∧ (i < length (input_matrix input))%nat)
                   (input_jobs input);
  wf_starts : Forall (λ v, ∀ l, vehicle_start v = Some l →
                           ∃ i : nat, Location_index l = Some i
                                      ∧ (i < length (input_matrix input))%nat)
                     (input_vehicles input);
  wf_ends : Forall (λ v, ∀ l, vehicle_end v = Some l →
                         ∃ i : nat, Location_index l = Some i
                                    ∧ (i < length (input_matrix input))%nat)
                   (input_vehicles input);
}.

Definition wf_route (input : Input) (sol : SolutionState) (v_rank : Index)
    (route : RawRoute) : Prop :=
  (v_rank < length (input_vehicles input))%nat ∧
  Forall (λ j : nat, (j < length (input_jobs input))%nat) route ∧
  (∃ line : list Z, edge_costs_around_edge sol !! v_rank = Some line
                    ∧ length line = length route) ∧
  (∃ line : list (list Z), fwd_amounts sol !! v_rank = Some line
                           ∧ length line = length route).

Definition wf_operator (op : CrossExchange) : Prop :=
  CrossExchange_asserts (s_route op) (s_vehicle op) (s_rank op)
                        (t_route op) (t_vehicle op) (t_rank op) ∧
  wf_input (_input op) ∧
  wf_route (_input op) (_sol_state op) (s_vehicle op) (s_route op) ∧
  wf_route (_input op) (_sol_state op) (t_vehicle op) (t_route op).

(** Overwriting positions [k] and [k+1] of a route. *)
Definition put_edge (r : RawRoute) (k : nat) (x y : nat) : RawRoute :=
  <[(k + 1)%nat := y]> (<[k := x]> r).

(** The closed form of the four gains, in terms of the places around the
    two edges. *)
Section gains.
Variable op : CrossExchange.
Variables (v_source v_target : Vehicle).
Variables (s_index s_after_index t_index t_after_index : nat).
Variables (around_s around_t : Z).

Let m := input_matrix (_input op).
Let prev_s := prev_index (_input op) v_source (s_route op) (s_rank op).
Let next_s := next_index (_input op) v_source (s_route op) (s_rank op + 1).
Let prev_t := prev_index (_input op) v_target (t_route op) (t_rank op).
Let next_t := next_index (_input op) v_target (t_route op) (t_rank op + 1).

Definition normal_s_gain_def : Z :=
  around_s - link m prev_s (Some t_index) - link m (Some t_after_index) next_s.
Definition reversed_s_gain_def : Z :=
  around_s + (M m t_index t_after_index - M m t_after_index t_index)
  - link m prev_s (Some t_after_index) - link m (Some t_index) next_s.
Definition normal_t_gain_def : Z :=
  around_t - link m prev_t (Some s_index) - link m (Some s_after_index) next_t.
Definition reversed_t_gain_def : Z :=
  around_t + (M m s_index s_after_index - M m s_after_index s_index)
  - link m prev_t (Some s_after_index) - link m (Some s_index) next_t.
End gains.

(** The places before and after the edge at rank [k], read off the
    bracketed sequence of a route. *)
Definition places_before (input : Input) (v : Vehicle) (route : RawRoute) (k : nat)
  : list nat :=
  option_list (vehicle_start v ≫= Location_index)
  ++ route_indices input (take k route).

Definition places_after (input : Input) (v : Vehicle) (route : RawRoute) (k : nat)
  : list nat :=
  route_indices input (drop (k + 2) route)
  ++ option_list (vehicle_end v ≫= Location_index).

(** The load of a route once two jobs left it and two jobs joined it. *)
Definition load_after_exchange (back out1 out2 in1 in2 : Amount) : Amount :=
  amount_add (amount_add (amount_sub (amount_sub back out1) out2) in1) in2.

(** Every cost of the matrix is a natural number below [B]. *)
Definition costs_below (B : Z) (m : Matrix) : Prop :=
  Forall (Forall (λ c, 0 ≤ c < B)) m.

(** The cache entry of vehicle [v_rank] at rank [k] is within [B] of 0. *)
Definition cache_within (B : Z) (sol : SolutionState) (v_rank : Index) (k : nat)
  : Prop :=
  ∀ c, edge_costs_around_edge sol !! v_rank ≫= (.!! k) = Some c → - B ≤ c ≤ B.

(** The range of [Gain]. *)
Definition fits_Gain (z : Z) : Prop := - 2 ^ 63 ≤ z < 2 ^ 63.

Definition symmetric (m : Matrix) : Prop := ∀ i j : nat, M m i j = M m j i.

(** ** A worked instance

    Five places (0 is the depot), four jobs, two vehicles; vehicle 0 starts
    at the depot and has no end, vehicle 1 starts and ends at the depot.
    The matrix is symmetric. *)
Module Example.
Definition matrix : Matrix :=
  [ [0; 2; 3; 10; 1];
    [2; 0; 4; 5; 6];
    [3; 4; 0; 7; 8];
    [10; 5; 7; 0; 9];
    [1; 6; 8; 9; 0] ].

Definition at_index (i : nat) : Location :=
  {| loc_index := Some i; loc_coords := None |}.

Definition all_day : TimeWindow := {| tw_start := 0; tw_end := 4294967295 |}.

Definition job (id : Z) (i : nat) : Job :=
  {| job_id := id; job_location := at_index i; job_service := 0;
     job_amount := [1]; job_skills := ∅; job_tws := [all_day] |}.

Definition vehicles : list Vehicle :=
  [ {| vehicle_id := 0; vehicle_start := Some (at_index 0); vehicle_end := None;
       vehicle_capacity := [4]; vehicle_skills := ∅; vehicle_tw := all_day |};
    {| vehicle_id := 1; vehicle_start := Some (at_index 0);
       vehicle_end := Some (at_index 0);
       vehicle_capacity := [4]; vehicle_skills := ∅; vehicle_tw := all_day |} ].

Definition input : Input :=
  {| input_geometry := false; input_matrix := matrix; input_vehicles := vehicles;
     input_jobs := [job 10 1; job 11 2; job 12 3; job 13 4];
     input_routing := None |}.

(** Routes [0, 1] and [2, 3]; the caches hold their defined values. *)
Definition sol_state : SolutionState :=
  {| fwd_amounts := [ [[1]; [2]]; [[1]; [2]] ];
     edge_costs_around_edge := [ [2; 0]; [11; 0] ] |}.

Definition op : CrossExchange :=
  {| _input := input; _sol_state := sol_state;
     s_route := [0; 1]%nat; s_vehicle := 0; s_rank := 0;
     t_route := [2; 3]%nat; t_vehicle := 1; t_rank := 0;
     gain_computed := false; stored_gain := 0;
     normal_s_gain := 0; reversed_s_gain := 0;
     normal_t_gain := 0; reversed_t_gain := 0;
     reverse_s_edge := false; reverse_t_edge := false |}.
End Example.

Module io.
(** * The input parser (utils/input_parser.cpp) *)

(** ** Outcomes

    A function of the parser returns a value, throws
    [Exception(ERROR, message)], or violates a precondition of the JSON
    library (a [RAPIDJSON_ASSERT], or the [assert] of [get_string]), after
    which nothing is specified: [Undefined]. *)
Inductive ERROR := INPUT | ROUTING.

Inductive result (A : Type) : Type :=
| Ok (a : A)
| Throw (e : ERROR) (msg : string)
| Undefined.
Arguments Ok {A} a.
Arguments Throw {A} e msg.
Arguments Undefined {A}.

Global Instance result_ret : MRet result := λ A a, Ok a.
Global Instance result_bind : MBind result := λ A B f r,
  match r with
  | Ok a => f a
  | Throw e msg => Throw e msg
  | Undefined => Undefined
  end.

(** A run that ends in a routing error got past every input check, like a
    run that returns. *)
Definition passed {A : Type} (r : result A) : Prop :=
  match r with
  | Ok _ => True
  | Throw ROUTING _ => True
  | _ => False
  end.

(** [r] is not a routing error. *)
Definition no_routing {A : Type} (r : result A) : Prop :=
  ∀ msg, r ≠ Throw ROUTING msg.

(** ** JSON values, as rapidjson presents them *)
#[warnings="-register-all"] Inductive Value :=
| Null
| Bool (b : bool)
| Num (n : Number)
| Str (s : string)
| Array (elements : list Value)
| Object (members : list (string * Value)).

(** The outcome of [Document::Parse] on the input text: the parser of the
    JSON library is not part of the verified sources. *)
Inductive ParseResult :=
| ParseError (message : string) (offset : Z)
| Parsed (document : Value).

Definition IsArray (v : Value) : bool := if v is Array _ then true else false.
Definition IsObject (v : Value) : bool := if v is Object _ then true else false.

Definition IsUint (v : Value) : bool :=
  if v is Num (NInt z) then bool_decide (0 ≤ z < 2 ^ 32) else false.
Definition IsUint64 (v : Value) : bool :=
  if v is Num (NInt z) then bool_decide (0 ≤ z < 2 ^ 64) else false.
Definition IsInt64 (v : Value) : bool :=
  if v is Num (NInt z) then bool_decide (- 2 ^ 63 ≤ z < 2 ^ 63) else false.

(** The getters assert the matching [Is...] flag. *)
Definition GetUint (v : Value) : result Z :=
  match v with
  | Num (NInt z) => if bool_decide (0 ≤ z < 2 ^ 32) then Ok z else Undefined
  | _ => Undefined
  end.
Definition GetUint64 (v : Value) : result Z :=
  match v with
  | Num (NInt z) => if bool_decide (0 ≤ z < 2 ^ 64) then Ok z else Undefined
  | _ => Undefined
  end.
Definition GetInt64 (v : Value) : result Z :=
  match v with
  | Num (NInt z) => if bool_decide (- 2 ^ 63 ≤ z < 2 ^ 63) then Ok z else Undefined
  | _ => Undefined
  end.
Definition GetString (v : Value) : result string :=
  if v is Str s then Ok s else Undefined.

(** [v.HasMember(key)] and [v[key]]: the first member of that name; both
    assert that [v] is an object, and [v[key]] that the member exists. *)
Fixpoint find_member (members : list (string * Value)) (key : string) : option Value :=
  match members with
  | [] => None
  | (k, v) :: rest => if String.eqb k key then Some v else find_member rest key
  end.

Definition HasMember (v : Value) (key : string) : result bool :=
  match v with
  | Object members => Ok (bool_decide (is_Some (find_member members key)))
  | _ => Undefined
  end.

Definition member (v : Value) (key : string) : result Value :=
  match v with
  | Object members =>
      match find_member members key with
      | Some x => Ok x
      | None => Undefined
      end
  | _ => Undefined
  end.

(** [std::to_string] of a number. *)
Definition to_string (z : Z) : string := NilZero.string_of_int (Z.to_int z).

(** Loops over the elements of an array, with the index at hand. *)
Fixpoint for_each {A St : Type} (body : nat → A → St → result St)
    (i : nat) (l : list A) (s : St) : result St :=
  match l with
  | [] => Ok s
  | x :: rest => s' ← body i x s; for_each body (S i) rest s'
  end.

Fixpoint map_each {A B : Type} (body : nat → A → result B)
    (i : nat) (l : list A) : result (list B) :=
  match l with
  | [] => Ok []
  | x :: rest => y ← body i x; ys ← map_each body (S i) rest; Ok (y :: ys)
  end.

(** ** Helpers of the parser *)

Definition parse_coordinates (object : Value) (key : string) : result Coordinates :=
  v ← member object key;
  match v with
  | Array (Num a :: Num b :: _) => Ok (a, b)
  | _ => Throw INPUT ("Invalid " +:+ key +:+ " array.")
  end.

Definition get_string (object : Value) (key : string) : result string :=
  has ← HasMember object key;
  if has : bool then (v ← member object key; GetString v) else Undefined.

Definition get_amount (object : Value) (key : string) : result Amount :=
  has ← HasMember object key;
  if has : bool then
    v ← member object key;
    match v with
    | Array elements =>
        map_each (λ _ e, if IsInt64 e then GetInt64 e
                         else Throw INPUT ("Invalid " +:+ key +:+ " value."))
                 0 elements
    | _ => Throw INPUT ("Invalid " +:+ key +:+ " array.")
    end
  else Ok [].

Definition get_skills (object : Value) : result Skills :=
  has ← HasMember object "skills";
  if has : bool then
    v ← member object "skills";
    match v with
    | Array elements =>
        for_each (λ _ e (skills : gset Z),
                    if IsUint e then (s ← GetUint e; Ok ({[ s ]} ∪ skills))
                    else Throw INPUT "Invalid skill value.")
                 0 elements ∅
    | _ => Throw INPUT "Invalid skills object."
    end
  else Ok ∅.

Definition get_service (object : Value) : result Duration :=
  has ← HasMember object "service";
  if has : bool then
    v ← member object "service";
    if IsUint v then GetUint v else Throw INPUT "Invalid service value."
  else Ok 0.

Definition valid_vehicle (v : Value) : result bool :=
  if IsObject v then
    has ← HasMember v "id";
    if has : bool then (id ← member v "id"; Ok (IsUint64 id)) else Ok false
  else Ok false.

Definition get_time_window (tw : Value) : result TimeWindow :=
  match tw with
  | Array (a :: b :: _) =>
      if IsUint a && IsUint b then
        s ← GetUint a; e ← GetUint b; Ok {| tw_start := s; tw_end := e |}
      else Throw INPUT "Invalid time-window."
  | _ => Throw INPUT "Invalid time-window."
  end.

(** ** Command-line arguments (structures/cl_args.h) *)
Record CLArgs := mkCLArgs {
  cl_servers : gmap string Server;
  cl_geometry : bool;
  cl_input_file : string;
  cl_output_file : string;
  cl_router : ROUTER;
  cl_input : string;
  cl_nb_threads : nat;
  cl_exploration_level : nat;
}.

(** ** The instance under construction

    Modelled from the spec: the [Input] class (structures/vroom/input.h)
    is absent.  The spec describes the instance as the container of the
    jobs, the vehicles and the matrix; its setters store their argument
    and [add_job], [add_vehicle] append to the respective vector. *)
Definition Input_new : Input :=
  {| input_geometry := false; input_matrix := []; input_vehicles := [];
     input_jobs := []; input_routing := None |}.

Definition set_geometry (input : Input) (geometry : bool) : Input :=
  {| input_geometry := geometry; input_matrix := input_matrix input;
     input_vehicles := input_vehicles input; input_jobs := input_jobs input;
     input_routing := input_routing input |}.

Definition set_matrix (input : Input) (m : Matrix) : Input :=
  {| input_geometry := input_geometry input; input_matrix := m;
     input_vehicles := input_vehicles input; input_jobs := input_jobs input;
     input_routing := input_routing input |}.

Definition add_vehicle (input : Input) (v : Vehicle) : Input :=
  {| input_geometry := input_geometry input; input_matrix := input_matrix input;
     input_vehicles := input_vehicles input ++ [v]; input_jobs := input_jobs input;
     input_routing := input_routing input |}.

Definition add_job (input : Input) (j : Job) : Input :=
  {| input_geometry := input_geometry input; input_matrix := input_matrix input;
     input_vehicles := input_vehicles input; input_jobs := input_jobs input ++ [j];
     input_routing := input_routing input |}.

Definition set_routing (input : Input) (w : Wrapper) : Input :=
  {| input_geometry := input_geometry input; input_matrix := input_matrix input;
     input_vehicles := input_vehicles input; input_jobs := input_jobs input;
     input_routing := Some w |}.

Section parser.
(** What the parser takes from declarations outside the verified
    sources. *)

(** Width in bits of the unsigned type [Index] (structures/typedefs.h). *)
Variable Index_bits : Z.
(** [DEFAULT_PROFILE] (structures/typedefs.h). *)
Variable DEFAULT_PROFILE : string.
(** [TimeWindow()], the default time window, and [operator<] on time
    windows (structures/vroom/time_window.h). *)
Variable default_tw : TimeWindow.
Variable tw_lt : TimeWindow → TimeWindow → bool.
(** [Document::Parse] of the JSON library. *)
Variable Document_Parse : string → ParseResult.
(** Whether the constructor of [routing::LibosrmWrapper] succeeds for a
    profile (it throws [osrm::exception] otherwise). *)
Variable libosrm_available : string → bool.

(** Conversion of an [unsigned] to [Index]: reduction modulo
    [2 ^ Index_bits]. *)
Definition to_Index (z : Z) : Index := Z.to_nat (z mod 2 ^ Index_bits).

(** [a <= b] on time windows, as [std::sort] sees it: [!(b < a)]. *)
Definition tw_le (a b : TimeWindow) : Prop := tw_lt b a = false.

Global Instance tw_le_dec : RelDecision tw_le.
Proof. intros a b. unfold tw_le. apply _. Defined.

(** [std::sort(tws.begin(), tws.end())]: some rearrangement of the
    vector that is ascending for [operator<]; a merge sort stands for
    it. *)
Definition std_sort (tws : list TimeWindow) : list TimeWindow :=
  merge_sort tw_le tws.

Definition get_vehicle_time_window (v : Value) : result TimeWindow :=
  has ← HasMember v "time_window";
  if has : bool then (tw ← member v "time_window"; get_time_window tw)
  else Ok default_tw.

Definition get_job_time_windows (j : Value) : result (list TimeWindow) :=
  has ← HasMember j "time_windows";
  if has : bool then
    v ← member j "time_windows";
    match v with
    | Array elements =>
        tws ← map_each (λ _ tw, get_time_window tw) 0 elements;
        Ok (std_sort tws)
    | _ =>
        id ← member j "id";
        id ← GetUint64 id;
        Throw INPUT ("Invalid time_windows value for job " +:+ to_string id +:+ ".")
    end
  else Ok [default_tw].

(** Modelled from the spec: the constructor of [Job]
    (structures/vroom/job.h) is absent.  The spec has the instance
    validated when it is built: every job's time windows are non-empty
    and sorted; a job that fails this is rejected as invalid input. *)
Definition Job_new (id : Id) (location : Location) (service : Duration)
    (amount : Amount) (skills : Skills) (tws : list TimeWindow) : result Job :=
  if bool_decide (tws = []) then
    Throw INPUT ("Empty time-windows for job " +:+ to_string id +:+ ".")
  else if bool_decide (Sorted tw_le tws) then
    Ok {| job_id := id; job_location := location; job_service := service;
          job_amount := amount; job_skills := skills; job_tws := tws |}
  else
    Throw INPUT ("Unsorted time-windows for job " +:+ to_string id +:+ ".").

(** The profile check shared by the two vehicle loops. *)
Definition check_profile (json_vehicle : Value) (common_profile : string)
  : result string :=
  has_profile ← HasMember json_vehicle "profile";
  current_profile ← (if has_profile : bool then get_string json_vehicle "profile"
                     else Ok DEFAULT_PROFILE);
  if bool_decide (common_profile = "") then Ok current_profile
  else if bool_decide (current_profile ≠ common_profile)
       then Throw INPUT "Mixed vehicle profiles in input."
       else Ok common_profile.

(** [Location(index)], [Location(index, coords)], [Location(coords)]. *)
Definition Location_of_index (i : Index) : Location :=
  {| loc_index := Some i; loc_coords := None |}.
Definition Location_of_index_coords (i : Index) (c : Coordinates) : Location :=
  {| loc_index := Some i; loc_coords := Some c |}.
Definition Location_of_coords (c : Coordinates) : Location :=
  {| loc_index := None; loc_coords := Some c |}.

(** A vehicle's [start_index] or [end_index] member (lines 207-220 and
    224-236): absent, or an unsigned that, once stored in an [Index], is
    below the matrix size. *)
Definition vehicle_index (json_vehicle : Value) (key : string) (v_id : Z)
    (matrix_size : nat) (invalid exceeding : string) : result (option Index) :=
  has_index ← HasMember json_vehicle key;
  if has_index : bool then
    x ← member json_vehicle key;
    if negb (IsUint x) then
      Throw INPUT (invalid +:+ to_string v_id +:+ ".")
    else
      z ← GetUint x;
      let index := to_Index z in
      if bool_decide (matrix_size ≤ index)%nat then
        Throw INPUT (exceeding +:+ to_string v_id +:+ ".")
      else Ok (Some index)
  else Ok None.

(** The optional start or end of a vehicle given by index (lines
    241-259). *)
Definition vehicle_place (json_vehicle : Value) (key : string)
    (index : option Index) : result (option Location) :=
  has_coords ← HasMember json_vehicle key;
  match index with
  | Some i =>
      if has_coords : bool then
        c ← parse_coordinates json_vehicle key;
        Ok (Some (Location_of_index_coords i c))
      else Ok (Some (Location_of_index i))
  | None => Ok None
  end.

(** Body of the vehicle loop when a matrix is given (lines 199-278).
    The arguments of the [Vehicle] constructor are evaluated here from
    left to right; C++ leaves their order open, which only affects which
    of several input errors is reported. *)
Definition add_vehicle_with_index (matrix_size : nat) (i : nat)
    (json_vehicle : Value) (st : Input * string) : result (Input * string) :=
  let '(input, common_profile) := st in
  valid ← valid_vehicle json_vehicle;
  if negb valid then
    Throw INPUT ("Invalid vehicle at " +:+ to_string (Z.of_nat i) +:+ ".")
  else
    id ← member json_vehicle "id";
    v_id ← GetUint id;
    start_index ← vehicle_index json_vehicle "start_index" v_id matrix_size
                     "Invalid start_index for vehicle "
                     "start_index exceeding matrix size for vehicle";
    end_index ← vehicle_index json_vehicle "end_index" v_id matrix_size
                   "Invalid end_index for vehicle"
                   "end_index exceeding matrix size for vehicle";
    start ← vehicle_place json_vehicle "start" start_index;
    end_ ← vehicle_place json_vehicle "end" end_index;
    capacity ← get_amount json_vehicle "capacity";
    skills ← get_skills json_vehicle;
    tw ← get_vehicle_time_window json_vehicle;
    let current_v :=
      {| vehicle_id := v_id; vehicle_start := start; vehicle_end := end_;
         vehicle_capacity := capacity; vehicle_skills := skills;
         vehicle_tw := tw |} in
    let input := add_vehicle input current_v in
    common_profile ← check_profile json_vehicle common_profile;
    Ok (input, common_profile).

(** Body of the job loop when a matrix is given (lines 281-309). *)
Definition add_job_with_index (matrix_size : nat) (i : nat)
    (json_job : Value) (input : Input) : result Input :=
  if negb (IsObject json_job) then Throw INPUT "Invalid job." else
  has_id ← HasMember json_job "id";
  id_ok ← (if has_id : bool then (id ← member json_job "id"; Ok (IsUint64 id))
           else Ok false);
  if negb id_ok then
    Throw INPUT ("Invalid id for job at " +:+ to_string (Z.of_nat i) +:+ ".")
  else
    id ← member json_job "id";
    j_id ← GetUint64 id;
    has_index ← HasMember json_job "location_index";
    index_ok ← (if has_index : bool
                then (x ← member json_job "location_index"; Ok (IsUint x))
                else Ok false);
    if negb index_ok then
      Throw INPUT ("Invalid location_index for job " +:+ to_string j_id +:+ ".")
    else
      x ← member json_job "location_index";
      z ← GetUint x;
      if bool_decide (Z.of_nat matrix_size ≤ z) then
        Throw INPUT ("location_index exceeding matrix size for job "
                     +:+ to_string j_id +:+ ".")
      else
        let job_loc_index := z in
        has_location ← HasMember json_job "location";
        job_loc ← (if has_location : bool then
                     c ← parse_coordinates json_job "location";
                     Ok (Location_of_index_coords (to_Index job_loc_index) c)
                   else Ok (Location_of_index (to_Index job_loc_index)));
        service ← get_service json_job;
        amount ← get_amount json_job "amount";
        skills ← get_skills json_job;
        tws ← get_job_time_windows json_job;
        current_job ← Job_new j_id job_loc service amount skills tws;
        Ok (add_job input current_job).

(** Body of the vehicle loop without a matrix (lines 315-355). *)
Definition add_vehicle_with_coords (i : nat) (json_vehicle : Value)
    (st : Input * string) : result (Input * string) :=
  let '(input, common_profile) := st in
  valid ← valid_vehicle json_vehicle;
  if negb valid then
    Throw INPUT ("Invalid vehicle at " +:+ to_string (Z.of_nat i) +:+ ".")
  else
    has_start ← HasMember json_vehicle "start";
    start ← (if has_start : bool
             then (c ← parse_coordinates json_vehicle "start";
                   Ok (Some (Location_of_coords c)))
             else Ok None);
    has_end ← HasMember json_vehicle "end";
    end_ ← (if has_end : bool
            then (c ← parse_coordinates json_vehicle "end";
                  Ok (Some (Location_of_coords c)))
            else Ok None);
    id ← member json_vehicle "id";
    v_id ← GetUint id;
    capacity ← get_amount json_vehicle "capacity";
    skills ← get_skills json_vehicle;
    tw ← get_vehicle_time_window json_vehicle;
    let current_v :=
      {| vehicle_id := v_id; vehicle_start := start; vehicle_end := end_;
         vehicle_capacity := capacity; vehicle_skills := skills;
         vehicle_tw := tw |} in
    let input := add_vehicle input current_v in
    common_profile ← check_profile json_vehicle common_profile;
    Ok (input, common_profile).

(** Body of the job loop without a matrix (lines 358-376). *)
Definition add_job_with_coords (i : nat) (json_job : Value) (input : Input)
  : result Input :=
  if negb (IsObject json_job) then Throw INPUT "Invalid job." else
  has_id ← HasMember json_job "id";
  id_ok ← (if has_id : bool then (id ← member json_job "id"; Ok (IsUint64 id))
           else Ok false);
  if negb id_ok then
    Throw INPUT ("Invalid id for job at " +:+ to_string (Z.of_nat i) +:+ ".")
  else
    id ← member json_job "id";
    j_id ← GetUint64 id;
    has_location ← HasMember json_job "location";
    location_ok ← (if has_location : bool
                   then (x ← member json_job "location"; Ok (IsArray x))
                   else Ok false);
    if negb location_ok then
      Throw INPUT ("Invalid location for job " +:+ to_string j_id +:+ ".")
    else
      c ← parse_coordinates json_job "location";
      service ← get_service json_job;
      amount ← get_amount json_job "amount";
      skills ← get_skills json_job;
      tws ← get_job_time_windows json_job;
      current_job ← Job_new j_id (Location_of_coords c) service amount skills tws;
      Ok (add_job input current_job).

(** The non-empty array member [key] of the document (lines 160-167). *)
Definition nonempty_array (json_input : Value) (key : string) (invalid : string)
  : result (list Value) :=
  has ← HasMember json_input key;
  if has : bool then
    v ← member json_input key;
    match v with
    | Array (x :: rest) => Ok (x :: rest)
    | _ => Throw INPUT invalid
    end
  else Throw INPUT invalid.

(** One line of the matrix (lines 183-194). *)
Definition matrix_line (matrix_size : nat) (i : nat) (line : Value)
  : result (list Cost) :=
  match line with
  | Array mi =>
      if bool_decide (length mi ≠ matrix_size) then
        Throw INPUT ("Invalid matrix line " +:+ to_string (Z.of_nat i) +:+ ".")
      else
        map_each (λ j e,
                    if negb (IsUint e) then
                      Throw INPUT ("Invalid matrix entry (" +:+ to_string (Z.of_nat i)
                                   +:+ "," +:+ to_string (Z.of_nat j) +:+ ").")
                    else GetUint e)
                 0 mi
  | _ => Throw INPUT ("Invalid matrix line " +:+ to_string (Z.of_nat i) +:+ ".")
  end.

(** The routing wrapper (lines 380-406). *)
Definition routing_wrapper (cl_args : CLArgs) (common_profile : string)
  : result Wrapper :=
  match cl_router cl_args with
  | OSRM =>
      match cl_servers cl_args !! common_profile with
      | None => Throw INPUT ("Invalid profile: " +:+ common_profile +:+ ".")
      | Some server => Ok (RoutedWrapper common_profile server)
      end
  | LIBOSRM =>
      if libosrm_available common_profile
      then Ok (LibosrmWrapper common_profile)
      else Throw ROUTING ("Invalid shared memory region: " +:+ common_profile)
  | ORS =>
      match cl_servers cl_args !! common_profile with
      | None => Throw INPUT ("Invalid profile: " +:+ common_profile +:+ ".")
      | Some server => Ok (OrsHttpWrapper common_profile server)
      end
  end.

(** [io::parse]. *)
Definition parse (cl_args : CLArgs) : result Input :=
  let input := set_geometry Input_new (cl_geometry cl_args) in
  match Document_Parse (cl_input cl_args) with
  | ParseError message offset =>
      Throw INPUT (message +:+ " (offset: " +:+ to_string offset +:+ ")")
  | Parsed json_input =>
      json_jobs ← nonempty_array json_input "jobs" "Invalid jobs.";
      json_vehicles ← nonempty_array json_input "vehicles" "Invalid vehicles.";
      has_matrix ← HasMember json_input "matrix";
      '(input, common_profile) ←
        (if has_matrix : bool then
           matrix ← member json_input "matrix";
           match matrix with
           | Array lines =>
               let matrix_size := length lines in
               matrix_input ← map_each (matrix_line matrix_size) 0 lines;
               let input := set_matrix input matrix_input in
               st ← for_each (add_vehicle_with_index matrix_size) 0 json_vehicles
                              (input, "");
               input ← for_each (add_job_with_index matrix_size) 0 json_jobs st.1;
               Ok (input, st.2)
           | _ => Throw INPUT "Invalid matrix."
           end
         else
           st ← for_each add_vehicle_with_coords 0 json_vehicles (input, "");
           input ← for_each add_job_with_coords 0 json_jobs st.1;
           Ok (input, st.2));
      wrapper ← routing_wrapper cl_args common_profile;
      Ok (set_routing input wrapper)
  end.
End parser.

(** The jobs of an instance under construction all come from one of the
    given JSON jobs, with the time windows [get_job_time_windows] read
    from it, and these are not empty. *)
Definition jobs_from (default_tw : TimeWindow) (tw_lt : TimeWindow → TimeWindow → bool)
    (json_jobs : list Value) (input : Input) : Prop :=
  Forall (λ job, job_tws job ≠ [] ∧
                 ∃ json_job, json_job ∈ json_jobs ∧
                             get_job_time_windows default_tw tw_lt json_job
                             = Ok (job_tws job))
         (input_jobs input).

(** ** The inputs that the specification has [parse] reject

    For a document whose [matrix] member is the array [lines]. *)
Definition not_square (lines : list Value) : Prop :=
  ∃ (i : nat) line, lines !! i = Some line ∧
                    ∀ mi, line = Array mi → length mi ≠ length lines.

Definition entry_not_unsigned (lines : list Value) : Prop :=
  ∃ (i j : nat) mi e, lines !! i = Some (Array mi) ∧ mi !! j = Some e ∧
                      IsUint e = false.

(** Some object of the list has the integer member [key], at least [size]. *)
Definition index_beyond_matrix (size : nat) (objects : list Value) (key : string)
  : Prop :=
  ∃ (k : nat) obj z, objects !! k = Some obj ∧
                     member obj key = Ok (Num (NInt z)) ∧ Z.of_nat size ≤ z.

(** The same, for the value the member has once it is stored in an
    [Index]. *)
Definition Index_beyond_matrix (Index_bits : Z) (size : nat) (objects : list Value)
    (key : string) : Prop :=
  ∃ (k : nat) obj z, objects !! k = Some obj ∧
                     member obj key = Ok (Num (NInt z)) ∧
                     (size ≤ to_Index Index_bits z)%nat.

Definition vehicles_of (json_input : Value) (json_vehicles : list Value) : Prop :=
  member json_input "vehicles" = Ok (Array json_vehicles).
Definition jobs_of (json_input : Value) (json_jobs : list Value) : Prop :=
  member json_input "jobs" = Ok (Array json_jobs).

(** ** A worked document *)
Module Document.
(** One place, one job, one vehicle whose [start_index] is 65536. *)
Definition json_input : Value :=
  Object
    [ ("vehicles",
       Array [ Object [ ("id", Num (NInt 1));
                        ("start_index", Num (NInt 65536)) ] ]);
      ("jobs",
       Array [ Object [ ("id", Num (NInt 7));
                        ("location_index", Num (NInt 0));
                        ("time_windows",
                         Array [ Array [Num (NInt 5); Num (NInt 9)];
                                 Array [Num (NInt 1); Num (NInt 2)] ]) ] ]);
      ("matrix", Array [ Array [Num (NInt 0)] ]) ].

(** The same with [start_index] 0. *)
Definition json_valid : Value :=
  Object
    [ ("vehicles",
       Array [ Object [ ("id", Num (NInt 1));
                        ("start_index", Num (NInt 0)) ] ]);
      ("jobs",
       Array [ Object [ ("id", Num (NInt 7));
                        ("location_index", Num (NInt 0));
                        ("time_windows",
                         Array [ Array [Num (NInt 5); Num (NInt 9)];
                                 Array [Num (NInt 1); Num (NInt 2)] ]) ] ]);
      ("matrix", Array [ Array [Num (NInt 0)] ]) ].

(** A job whose array of time windows is empty. *)
Definition json_no_window : Value :=
  Object
    [ ("vehicles", Array [ Object [ ("id", Num (NInt 1)) ] ]);
      ("jobs", Array [ Object [ ("id", Num (NInt 7));
                                ("location_index", Num (NInt 0));
                                ("time_windows", Array []) ] ]);
      ("matrix", Array [ Array [Num (NInt 0)] ]) ].

(** A matrix whose second line is too long. *)
Definition json_not_square : Value :=
  Object
    [ ("vehicles", Array [ Object [ ("id", Num (NInt 1)) ] ]);
      ("jobs", Array [ Object [ ("id", Num (NInt 7));
                                ("location_index", Num (NInt 0)) ] ]);
      ("matrix", Array [ Array [Num (NInt 0); Num (NInt 1)];
                         Array [Num (NInt 1); Num (NInt 0); Num (NInt 3)] ]) ].

(** Time windows ordered by start, then by end. *)
Definition tw_lt (a b : TimeWindow) : bool :=
  bool_decide (tw_start a < tw_start b
               ∨ (tw_start a = tw_start b ∧ tw_end a < tw_end b)).

Definition default_tw : TimeWindow := {| tw_start := 0; tw_end := 4294967295 |}.

Definition cl_args : CLArgs :=
  {| cl_servers := {[ "car" := {| server_host := "0.0.0.0"; server_port := "5000" |} ]};
     cl_geometry := false; cl_input_file := ""; cl_output_file := "";
     cl_router := OSRM; cl_input := "json"; cl_nb_threads := 4;
     cl_exploration_level := 5 |}.

(** [parse] with a 16-bit [Index] (VROOM declares
    [using Index = uint16_t;] in structures/typedefs.h, which is outside
    the verified sources), on a given parsed document. *)
Definition parse16 (document : Value) : result Input :=
  parse 16 "car" default_tw tw_lt (λ _, Parsed document) (λ _, true) cl_args.

(** [parse] with 32-bit indices. *)
Definition parse32 (document : Value) : result Input :=
  parse 32 "car" default_tw tw_lt (λ _, Parsed document) (λ _, true) cl_args.
End Document.
End io.
Import io.

(** * Further definitions *)

(** ** Orientations, compatibility and loads *)

(** The operator with its two reversal flags set to given values: the four
    ways to orient the two exchanged edges. *)
Definition with_flags (op : CrossExchange) (rs rt : bool) : CrossExchange :=
  {| _input := _input op; _sol_state := _sol_state op;
     s_route := s_route op; s_vehicle := s_vehicle op; s_rank := s_rank op;
     t_route := t_route op; t_vehicle := t_vehicle op; t_rank := t_rank op;
     gain_computed := gain_computed op; stored_gain := stored_gain op;
     normal_s_gain := normal_s_gain op; reversed_s_gain := reversed_s_gain op;
     normal_t_gain := normal_t_gain op; reversed_t_gain := reversed_t_gain op;
     reverse_s_edge := rs; reverse_t_edge := rt |}.

(** The solution state of the worked instance once its move is applied:
    routes [3, 2] and [0, 1], the caches holding their defined values. *)
Definition sol_state_after : SolutionState :=
  {| fwd_amounts := [ [[1]; [2]]; [[1]; [2]] ];
     edge_costs_around_edge := [ [1; 0]; [5; 0] ] |}.

(** Every job of a route is compatible with the vehicle. *)
Definition route_ok (input : Input) (v_rank : Index) (route : RawRoute) : Prop :=
  Forall (λ j, vehicle_ok_with_job input v_rank j = Some true) route.

(** The load of a route: the sum of the amounts of its jobs, each amount
    having [d] components. *)
Definition job_amount_of (input : Input) (j : Index) : option Amount :=
  job_amount <$> input_jobs input !! j.

Definition route_amounts (input : Input) (route : RawRoute) : list Amount :=
  omap (job_amount_of input) route.

Definition sum_amounts (d : nat) (l : list Amount) : Amount :=
  foldr amount_add (replicate d 0) l.

Definition route_load (d : nat) (input : Input) (route : RawRoute) : Amount :=
  sum_amounts d (route_amounts input route).

(** All amounts and capacities of the instance have [d] components. *)
Definition amounts_of_dimension (d : nat) (input : Input) : Prop :=
  Forall (λ j, length (job_amount j) = d) (input_jobs input) ∧
  Forall (λ v, length (vehicle_capacity v) = d) (input_vehicles input).

(** Sum of the [i]-th components of a list of amounts. *)
Fixpoint column (i : nat) (l : list Amount) : Z :=
  match l with
  | [] => 0
  | a :: rest => default 0 (a !! i) + column i rest
  end.

(** ** What the parser reads from a JSON vehicle or job *)

Definition wrapper_profile (w : Wrapper) : string :=
  match w with
  | RoutedWrapper profile _ => profile
  | LibosrmWrapper profile => profile
  | OrsHttpWrapper profile _ => profile
  end.

Section read.
Variable Index_bits : Z.
Variable DEFAULT_PROFILE : string.
Variable default_tw : TimeWindow.
Variable tw_lt : TimeWindow → TimeWindow → bool.

(** [current_profile] of the vehicle loops (lines 266-267 and 343-344). *)
Definition current_profile (json_vehicle : Value) : result string :=
  has_profile ← HasMember json_vehicle "profile";
  if has_profile : bool then get_string json_vehicle "profile"
  else Ok DEFAULT_PROFILE.

(** The vehicle holds what the helpers read from the JSON vehicle. *)
Definition vehicle_read (json_vehicle : Value) (v : Vehicle) : Prop :=
  member json_vehicle "id" = Ok (Num (NInt (vehicle_id v))) ∧
  0 ≤ vehicle_id v < 2 ^ 32 ∧
  get_amount json_vehicle "capacity" = Ok (vehicle_capacity v) ∧
  get_skills json_vehicle = Ok (vehicle_skills v) ∧
  get_vehicle_time_window default_tw json_vehicle = Ok (vehicle_tw v).

(** The job holds what the helpers read from the JSON job. *)
Definition job_read (json_job : Value) (j : Job) : Prop :=
  member json_job "id" = Ok (Num (NInt (job_id j))) ∧
  0 ≤ job_id j < 2 ^ 64 ∧
  get_service json_job = Ok (job_service j) ∧
  get_amount json_job "amount" = Ok (job_amount j) ∧
  get_skills json_job = Ok (job_skills j) ∧
  get_job_time_windows default_tw tw_lt json_job = Ok (job_tws j).

(** A place read from the member [key_index], an index below [n] once
    stored in an [Index], with the coordinates of the member [key] when
    there are some. *)
Definition place_with_index (n : nat) (json : Value) (key_index key : string)
    (place : option Location) : Prop :=
  (HasMember json key_index = Ok false ∧ place = None) ∨
  (∃ z, member json key_index = Ok (Num (NInt z)) ∧ 0 ≤ z < 2 ^ 32 ∧
        (to_Index Index_bits z < n)%nat ∧
        ((HasMember json key = Ok false ∧
          place = Some (Location_of_index (to_Index Index_bits z))) ∨
         (∃ c, parse_coordinates json key = Ok c ∧
               place = Some (Location_of_index_coords (to_Index Index_bits z) c)))).

(** A place given by the member [key] alone: absent without the member,
    else a location that holds the coordinates read from it. *)
Definition place_with_coords (json : Value) (key : string)
    (place : option Location) : Prop :=
  (HasMember json key = Ok false ∧ place = None) ∨
  (∃ c l, HasMember json key = Ok true ∧ parse_coordinates json key = Ok c ∧
          place = Some l ∧ loc_coords l = Some c).

(** The location of a job when a matrix is given: [location_index] is
    below [n] before it is stored in an [Index]. *)
Definition job_location_with_index (n : nat) (json : Value) (l : Location) : Prop :=
  ∃ z, member json "location_index" = Ok (Num (NInt z)) ∧ 0 ≤ z < Z.of_nat n ∧
       z < 2 ^ 32 ∧
       ((HasMember json "location" = Ok false ∧
         l = Location_of_index (to_Index Index_bits z)) ∨
        (∃ c, parse_coordinates json "location" = Ok c ∧
              l = Location_of_index_coords (to_Index Index_bits z) c)).
End read.

(** ** Runs that stay within the preconditions of the JSON library *)
Definition defined {A : Type} (r : result A) : Prop := r ≠ Undefined.

(** A JSON vehicle that the parser reads without violating a precondition:
    an identifier that is an unsigned 64-bit number also fits 32 bits, and
    a [profile] member is a string. *)
Definition readable_vehicle (v : Value) : Prop :=
  (∀ id, member v "id" = Ok id → IsUint64 id = true → IsUint id = true) ∧
  (∀ x, member v "profile" = Ok x → ∃ s, x = Str s).

(** ** Two further documents *)
Module Fleet.
Definition json_job (id i : Z) : Value :=
  Object [ ("id", Num (NInt id)); ("location_index", Num (NInt i));
           ("amount", Array [Num (NInt 1)]) ].

(** The worked instance of the operator, as a document. *)
Definition json_input : Value :=
  Object
    [ ("vehicles",
       Array [ Object [ ("id", Num (NInt 0)); ("start_index", Num (NInt 0));
                        ("capacity", Array [Num (NInt 4)]) ];
               Object [ ("id", Num (NInt 1)); ("start_index", Num (NInt 0));
                        ("end_index", Num (NInt 0));
                        ("capacity", Array [Num (NInt 4)]) ] ]);
      ("jobs", Array [ json_job 10 1; json_job 11 2; json_job 12 3; json_job 13 4 ]);
      ("matrix",
       Array ((λ row, Array ((λ z, Num (NInt z)) <$> row)) <$> Example.matrix)) ].

(** A document without a matrix: places are given by coordinates. *)
Definition json_coords : Value :=
  Object
    [ ("vehicles",
       Array [ Object [ ("id", Num (NInt 1));
                        ("start", Array [Num (NReal "2.35"); Num (NReal "48.85")]);
                        ("profile", Str "car") ] ]);
      ("jobs",
       Array [ Object [ ("id", Num (NInt 7));
                        ("location", Array [Num (NReal "2.29"); Num (NReal "48.86")]);
                        ("skills", Array [Num (NInt 3); Num (NInt 1); Num (NInt 3)]) ] ]) ].

(** A vehicle whose identifier needs 33 bits. *)
Definition json_wide_id : Value :=
  Object
    [ ("vehicles", Array [ Object [ ("id", Num (NInt 4294967296)) ] ]);
      ("jobs", Array [ Object [ ("id", Num (NInt 7));
                                ("location_index", Num (NInt 0)) ] ]);
      ("matrix", Array [ Array [Num (NInt 0)] ]) ].

(** [parse] with a 16-bit [Index] where libosrm is the router and no data
    set is available. *)
Definition cl_args_libosrm : CLArgs :=
  {| cl_servers := ∅; cl_geometry := false; cl_input_file := "";
     cl_output_file := ""; cl_router := LIBOSRM; cl_input := "json";
     cl_nb_threads := 4; cl_exploration_level := 5 |}.
End Fleet.

(** * Properties of the CrossExchange operator *)

(** ** Accesses of a well-formed operator are in bounds *)

Lemma m_at_defined (m : Matrix) (i j : nat) :
  Forall (λ line : list Z, length line = length m) m →
  (i < length m)%nat → (j < length m)%nat →
  ∃ c, m_at m i j = Some c.
Proof.
  intros Hsq Hi Hj.
  destruct (lookup_lt_is_Some_2 m i Hi) as [line Hline].
  assert (length line = length m) as Hlen
    by (eapply (proj1 (Forall_lookup _ _) Hsq); eauto).
  destruct (lookup_lt_is_Some_2 line j ltac:(lia)) as [c Hc].
  exists c. unfold m_at. rewrite Hline. simpl. exact Hc.
Qed.

Lemma job_index_at_defined (input : Input) (route : RawRoute) (k : nat) :
  wf_input input →
  Forall (λ j : nat, (j < length (input_jobs input))%nat) route →
  (k < length route)%nat →
  ∃ i : nat, job_index_at input route k = Some i
             ∧ (i < length (input_matrix input))%nat.
Proof.
  intros Hwf Hroute Hk.
  destruct (lookup_lt_is_Some_2 route k Hk) as [j Hj].
  pose proof (proj1 (Forall_lookup _ _) Hroute _ _ Hj) as Hjlt. simpl in Hjlt.
  destruct (lookup_lt_is_Some_2 (input_jobs input) j Hjlt) as [job Hjob].
  destruct (proj1 (Forall_lookup _ _) (wf_jobs _ Hwf) _ _ Hjob) as (i & Hi & Hlt).
  exists i. split; [|exact Hlt].
  unfold job_index_at, job_index_of. rewrite Hj. simpl. rewrite Hjob. simpl. exact Hi.
Qed.

Lemma start_index_defined (input : Input) (v_rank : nat) (v : Vehicle) :
  wf_input input → input_vehicles input !! v_rank = Some v →
  has_start v = true →
  ∃ i : nat, vehicle_start v ≫= Location_index = Some i
             ∧ (i < length (input_matrix input))%nat.
Proof.
  intros Hwf Hv Hs. unfold has_start in Hs. apply bool_decide_eq_true in Hs.
  destruct Hs as [l Hl].
  destruct (proj1 (Forall_lookup _ _) (wf_starts _ Hwf) _ _ Hv l Hl) as (i & Hi & Hlt).
  exists i. rewrite Hl. simpl. auto.
Qed.

Lemma end_index_defined (input : Input) (v_rank : nat) (v : Vehicle) :
  wf_input input → input_vehicles input !! v_rank = Some v →
  has_end v = true →
  ∃ i : nat, vehicle_end v ≫= Location_index = Some i
             ∧ (i < length (input_matrix input))%nat.
Proof.
  intros Hwf Hv Hs. unfold has_end in Hs. apply bool_decide_eq_true in Hs.
  destruct Hs as [l Hl].
  destruct (proj1 (Forall_lookup _ _) (wf_ends _ Hwf) _ _ Hv l Hl) as (i & Hi & Hlt).
  exists i. rewrite Hl. simpl. auto.
Qed.

(** The block that reads the costs towards the previous place. *)
Lemma previous_block_defined (input : Input) (v_rank : nat) (v : Vehicle)
    (route : RawRoute) (k x y : nat) :
  wf_input input → input_vehicles input !! v_rank = Some v →
  Forall (λ j : nat, (j < length (input_jobs input))%nat) route →
  (k < length route)%nat →
  (x < length (input_matrix input))%nat → (y < length (input_matrix input))%nat →
  is_Some
    (if decide (k = 0%nat) then
       if has_start v then
         p_index ← vehicle_start v ≫= Location_index;
         a ← m_at (input_matrix input) p_index x;
         b ← m_at (input_matrix input) p_index y;
         Some (a, b)
       else Some (0, 0)
     else
       p_index ← job_index_at input route (k - 1);
       a ← m_at (input_matrix input) p_index x;
       b ← m_at (input_matrix input) p_index y;
       Some (a, b)).
Proof.
  intros Hwf Hv Hroute Hk Hx Hy.
  assert (∀ p : nat, (p < length (input_matrix input))%nat →
            is_Some (a ← m_at (input_matrix input) p x;
                     b ← m_at (input_matrix input) p y; Some (a, b))) as Hpair.
  { intros p Hp.
    destruct (m_at_defined _ p x (wf_square _ Hwf) Hp Hx) as [a ->].
    destruct (m_at_defined _ p y (wf_square _ Hwf) Hp Hy) as [b ->].
    simpl. eauto. }
  case_decide.
  - destruct (has_start v) eqn:Hs; [|eauto].
    destruct (start_index_defined _ _ _ Hwf Hv Hs) as (p & -> & Hp).
    simpl. auto.
  - destruct (job_index_at_defined input route (k - 1) Hwf Hroute ltac:(lia))
      as (p & -> & Hp).
    simpl. auto.
Qed.

Lemma next_block_defined (input : Input) (v_rank : nat) (v : Vehicle)
    (route : RawRoute) (k x y : nat) :
  wf_input input → input_vehicles input !! v_rank = Some v →
  Forall (λ j : nat, (j < length (input_jobs input))%nat) route →
  (2 ≤ length route)%nat → (k < length route - 1)%nat →
  (x < length (input_matrix input))%nat → (y < length (input_matrix input))%nat →
  is_Some
    (if decide (k = (length route - 2)%nat) then
       if has_end v then
         n_index ← vehicle_end v ≫= Location_index;
         a ← m_at (input_matrix input) y n_index;
         b ← m_at (input_matrix input) x n_index;
         Some (a, b)
       else Some (0, 0)
     else
       n_index ← job_index_at input route (k + 2);
       a ← m_at (input_matrix input) y n_index;
       b ← m_at (input_matrix input) x n_index;
       Some (a, b)).
Proof.
  intros Hwf Hv Hroute Hlen Hk Hx Hy.
  assert (∀ n : nat, (n < length (input_matrix input))%nat →
            is_Some (a ← m_at (input_matrix input) y n;
                     b ← m_at (input_matrix input) x n; Some (a, b))) as Hpair.
  { intros n Hn.
    destruct (m_at_defined _ y n (wf_square _ Hwf) Hy Hn) as [a ->].
    destruct (m_at_defined _ x n (wf_square _ Hwf) Hx Hn) as [b ->].
    simpl. eauto. }
  case_decide.
  - destruct (has_end v) eqn:Hs; [|eauto].
    destruct (end_index_defined _ _ _ Hwf Hv Hs) as (p & -> & Hp).
    simpl. auto.
  - destruct (job_index_at_defined input route (k + 2) Hwf Hroute ltac:(lia))
      as (p & -> & Hp).
    simpl. auto.
Qed.

Lemma cache_entry_defined (sol : SolutionState) (input : Input) (v_rank : nat)
    (route : RawRoute) (k : nat) :
  wf_route input sol v_rank route → (k < length route)%nat →
  ∃ g, edge_costs_around_edge sol !! v_rank ≫= (.!! k) = Some g.
Proof.
  intros (_ & _ & (line & Hline & Hlen) & _) Hk.
  destruct (lookup_lt_is_Some_2 line k ltac:(lia)) as [g Hg].
  exists g. rewrite Hline. simpl. exact Hg.
Qed.

Lemma compute_gain_defined (op : CrossExchange) :
  wf_operator op → is_Some (compute_gain op).
Proof.
  intros (Hassert & Hwf & Hs & Ht).
  destruct Hassert as (Hne & Hls & Hlt & Hsr & Htr).
  pose proof Hs as (Hsv & Hsjobs & _ & _).
  pose proof Ht as (Htv & Htjobs & _ & _).
  destruct (lookup_lt_is_Some_2 _ _ Hsv) as [v_source Hvs].
  destruct (lookup_lt_is_Some_2 _ _ Htv) as [v_target Hvt].
  destruct (job_index_at_defined _ _ (s_rank op) Hwf Hsjobs ltac:(lia)) as (si & Hsi & Hsilt).
  destruct (job_index_at_defined _ _ (s_rank op + 1) Hwf Hsjobs ltac:(lia)) as (sai & Hsai & Hsailt).
  destruct (job_index_at_defined _ _ (t_rank op) Hwf Htjobs ltac:(lia)) as (ti & Hti & Htilt).
  destruct (job_index_at_defined _ _ (t_rank op + 1) Hwf Htjobs ltac:(lia)) as (tai & Htai & Htailt).
  unfold compute_gain.
  rewrite Hvs, Hvt. simpl. rewrite Hsi, Hsai, Hti, Htai. simpl.
  destruct (previous_block_defined _ _ _ (s_route op) (s_rank op) ti tai Hwf Hvs Hsjobs
              ltac:(lia) Htilt Htailt) as [[pc rpc] ->].
  destruct (next_block_defined _ _ _ (s_route op) (s_rank op) ti tai Hwf Hvs Hsjobs
              Hls Hsr Htilt Htailt) as [[nc rnc] ->].
  simpl.
  destruct (cache_entry_defined _ _ _ _ (s_rank op) Hs ltac:(lia)) as [around_s ->].
  destruct (m_at_defined _ ti tai (wf_square _ Hwf) Htilt Htailt) as [te ->].
  destruct (m_at_defined _ tai ti (wf_square _ Hwf) Htailt Htilt) as [teb ->].
  simpl.
  destruct (previous_block_defined _ _ _ (t_route op) (t_rank op) si sai Hwf Hvt Htjobs
              ltac:(lia) Hsilt Hsailt) as [[pc' rpc'] ->].
  destruct (next_block_defined _ _ _ (t_route op) (t_rank op) si sai Hwf Hvt Htjobs
              Hlt Htr Hsilt Hsailt) as [[nc' rnc'] ->].
  simpl.
  destruct (cache_entry_defined _ _ _ _ (t_rank op) Ht ltac:(lia)) as [around_t ->].
  destruct (m_at_defined _ si sai (wf_square _ Hwf) Hsilt Hsailt) as [se ->].
  destruct (m_at_defined _ sai si (wf_square _ Hwf) Hsailt Hsilt) as [seb ->].
  simpl. eauto.
Qed.

(** ** What [compute_gain] computes *)

Lemma M_of_m_at (m : Matrix) (i j : nat) (c : Z) : m_at m i j = Some c → M m i j = c.
Proof. unfold M. intros ->. reflexivity. Qed.

Lemma previous_block_value (input : Input) (v : Vehicle) (route : RawRoute)
    (k x y : nat) (pc rpc : Z) :
  (if decide (k = 0%nat) then
     if has_start v then
       p_index ← vehicle_start v ≫= Location_index;
       a ← m_at (input_matrix input) p_index x;
       b ← m_at (input_matrix input) p_index y;
       Some (a, b)
     else Some (0, 0)
   else
     p_index ← job_index_at input route (k - 1);
     a ← m_at (input_matrix input) p_index x;
     b ← m_at (input_matrix input) p_index y;
     Some (a, b)) = Some (pc, rpc) →
  pc = link (input_matrix input) (prev_index input v route k) (Some x) ∧
  rpc = link (input_matrix input) (prev_index input v route k) (Some y).
Proof.
  unfold prev_index. intros H. case_decide.
  - destruct (has_start v) eqn:Hs.
    + apply bind_Some in H as (p & Hp & H).
      apply bind_Some in H as (a & Ha & H).
      apply bind_Some in H as (b & Hb & H).
      injection H as <- <-. rewrite Hp. simpl.
      by rewrite (M_of_m_at _ _ _ _ Ha), (M_of_m_at _ _ _ _ Hb).
    + injection H as <- <-.
      unfold has_start in Hs. apply bool_decide_eq_false in Hs.
      destruct (vehicle_start v); [exfalso; apply Hs; eauto|]. done.
  - apply bind_Some in H as (p & Hp & H).
    apply bind_Some in H as (a & Ha & H).
    apply bind_Some in H as (b & Hb & H).
    injection H as <- <-. rewrite Hp. simpl.
    by rewrite (M_of_m_at _ _ _ _ Ha), (M_of_m_at _ _ _ _ Hb).
Qed.

Lemma next_block_value (input : Input) (v : Vehicle) (route : RawRoute)
    (k x y : nat) (nc rnc : Z) :
  (2 ≤ length route)%nat →
  (if decide (k = (length route - 2)%nat) then
     if has_end v then
       n_index ← vehicle_end v ≫= Location_index;
       a ← m_at (input_matrix input) y n_index;
       b ← m_at (input_matrix input) x n_index;
       Some (a, b)
     else Some (0, 0)
   else
     n_index ← job_index_at input route (k + 2);
     a ← m_at (input_matrix input) y n_index;
     b ← m_at (input_matrix input) x n_index;
     Some (a, b)) = Some (nc, rnc) →
  nc = link (input_matrix input) (Some y) (next_index input v route (k + 1)) ∧
  rnc = link (input_matrix input) (Some x) (next_index input v route (k + 1)).
Proof.
  unfold next_index. intros Hlen H.
  destruct (decide (k = (length route - 2)%nat)) as [Hk|Hk].
  - rewrite decide_True by lia.
    destruct (has_end v) eqn:Hs.
    + apply bind_Some in H as (p & Hp & H).
      apply bind_Some in H as (a & Ha & H).
      apply bind_Some in H as (b & Hb & H).
      injection H as <- <-. rewrite Hp. simpl.
      by rewrite (M_of_m_at _ _ _ _ Ha), (M_of_m_at _ _ _ _ Hb).
    + injection H as <- <-.
      unfold has_end in Hs. apply bool_decide_eq_false in Hs.
      destruct (vehicle_end v); [exfalso; apply Hs; eauto|]. done.
  - rewrite decide_False by lia.
    replace (k + 1 + 1)%nat with (k + 2)%nat by lia.
    apply bind_Some in H as (p & Hp & H).
    apply bind_Some in H as (a & Ha & H).
    apply bind_Some in H as (b & Hb & H).
    injection H as <- <-. rewrite Hp. simpl.
    by rewrite (M_of_m_at _ _ _ _ Ha), (M_of_m_at _ _ _ _ Hb).
Qed.

Lemma compute_gain_inv (op op' : CrossExchange) :
  (2 ≤ length (s_route op))%nat → (2 ≤ length (t_route op))%nat →
  compute_gain op = Some op' →
  ∃ v_source v_target s_index s_after_index t_index t_after_index around_s around_t,
    input_vehicles (_input op) !! s_vehicle op = Some v_source ∧
    input_vehicles (_input op) !! t_vehicle op = Some v_target ∧
    job_index_at (_input op) (s_route op) (s_rank op) = Some s_index ∧
    job_index_at (_input op) (s_route op) (s_rank op + 1) = Some s_after_index ∧
    job_index_at (_input op) (t_route op) (t_rank op) = Some t_index ∧
    job_index_at (_input op) (t_route op) (t_rank op + 1) = Some t_after_index ∧
    edge_costs_around_edge (_sol_state op) !! s_vehicle op ≫= (.!! s_rank op)
      = Some around_s ∧
    edge_costs_around_edge (_sol_state op) !! t_vehicle op ≫= (.!! t_rank op)
      = Some around_t ∧
    let ns := normal_s_gain_def op v_source t_index t_after_index around_s in
    let rs := reversed_s_gain_def op v_source t_index t_after_index around_s in
    let nt := normal_t_gain_def op v_target s_index s_after_index around_t in
    let rt := reversed_t_gain_def op v_target s_index s_after_index around_t in
    op' = {| _input := _input op; _sol_state := _sol_state op;
             s_route := s_route op; s_vehicle := s_vehicle op; s_rank := s_rank op;
             t_route := t_route op; t_vehicle := t_vehicle op; t_rank := t_rank op;
             gain_computed := true;
             stored_gain := Z.max ns rs + Z.max nt rt;
             normal_s_gain := ns; reversed_s_gain := rs;
             normal_t_gain := nt; reversed_t_gain := rt;
             reverse_s_edge := if bool_decide (rt > nt) then true else reverse_s_edge op;
             reverse_t_edge := if bool_decide (rs > ns) then true else reverse_t_edge op |}.
Proof.
  intros Hls Hlt H. unfold compute_gain in H.
  apply bind_Some in H as (v_source & Hvs & H).
  apply bind_Some in H as (v_target & Hvt & H).
  apply bind_Some in H as (si & Hsi & H).
  apply bind_Some in H as (sai & Hsai & H).
  apply bind_Some in H as (ti & Hti & H).
  apply bind_Some in H as (tai & Htai & H).
  apply bind_Some in H as ([pc rpc] & Hprev_s & H).
  apply bind_Some in H as ([nc rnc] & Hnext_s & H).
  apply bind_Some in H as (around_s & Has & H).
  apply bind_Some in H as (te & Hte & H).
  apply bind_Some in H as (teb & Hteb & H).
  apply bind_Some in H as ([pc' rpc'] & Hprev_t & H).
  apply bind_Some in H as ([nc' rnc'] & Hnext_t & H).
  apply bind_Some in H as (around_t & Hat & H).
  apply bind_Some in H as (se & Hse & H).
  apply bind_Some in H as (seb & Hseb & H).
  apply previous_block_value in Hprev_s as [-> ->].
  apply (next_block_value _ _ _ _ _ _ _ _ Hls) in Hnext_s as [-> ->].
  apply previous_block_value in Hprev_t as [-> ->].
  apply (next_block_value _ _ _ _ _ _ _ _ Hlt) in Hnext_t as [-> ->].
  apply M_of_m_at in Hte, Hteb, Hse, Hseb. subst te teb se seb.
  exists v_source, v_target, si, sai, ti, tai, around_s, around_t.
  repeat (split; [assumption|]).
  injection H as <-. reflexivity.
Qed.

(** ** What [apply] does to the two routes *)

Lemma swap_between_inv (a b a' b' : RawRoute) (i j : nat) :
  swap_between a b i j = Some (a', b') →
  ∃ x y, a !! i = Some x ∧ b !! j = Some y ∧ a' = <[i := y]> a ∧ b' = <[j := x]> b.
Proof.
  unfold swap_between. intros H.
  apply bind_Some in H as (x & Hx & H).
  apply bind_Some in H as (y & Hy & H).
  injection H as <- <-. eauto 10.
Qed.

Lemma swap_within_put_edge (r : RawRoute) (k x y : nat) :
  (k + 1 < length r)%nat →
  swap_within (put_edge r k x y) k (k + 1) = Some (put_edge r k y x).
Proof.
  intros Hk. unfold swap_within, put_edge.
  rewrite (list_lookup_insert_ne _ (k + 1) k) by lia.
  rewrite (list_lookup_insert_eq _ k) by lia. simpl.
  rewrite (list_lookup_insert_eq _ (k + 1)) by (rewrite length_insert; lia). simpl.
  f_equal.
  rewrite (list_insert_insert_ne _ k (k + 1)) by lia.
  by rewrite !list_insert_insert_eq.
Qed.

Lemma apply_inv (op op' : CrossExchange) :
  apply op = Some op' →
  ∃ a b x y,
    s_route op !! s_rank op = Some a ∧
    s_route op !! (s_rank op + 1)%nat = Some b ∧
    t_route op !! t_rank op = Some x ∧
    t_route op !! (t_rank op + 1)%nat = Some y ∧
    op' = {| _input := _input op; _sol_state := _sol_state op;
             s_route := if reverse_t_edge op then put_edge (s_route op) (s_rank op) y x
                        else put_edge (s_route op) (s_rank op) x y;
             s_vehicle := s_vehicle op; s_rank := s_rank op;
             t_route := if reverse_s_edge op then put_edge (t_route op) (t_rank op) b a
                        else put_edge (t_route op) (t_rank op) a b;
             t_vehicle := t_vehicle op; t_rank := t_rank op;
             gain_computed := gain_computed op; stored_gain := stored_gain op;
             normal_s_gain := normal_s_gain op; reversed_s_gain := reversed_s_gain op;
             normal_t_gain := normal_t_gain op; reversed_t_gain := reversed_t_gain op;
             reverse_s_edge := reverse_s_edge op; reverse_t_edge := reverse_t_edge op |}.
Proof.
  unfold apply. intros H.
  apply bind_Some in H as ([s1 t1] & H1 & H).
  apply bind_Some in H as ([s2 t2] & H2 & H).
  apply bind_Some in H as (t3 & H3 & H).
  apply bind_Some in H as (s3 & H4 & H).
  apply swap_between_inv in H1 as (a & x & Ha & Hx & -> & ->).
  apply swap_between_inv in H2 as (b & y & Hb & Hy & -> & ->).
  rewrite list_lookup_insert_ne in Hb by lia.
  rewrite list_lookup_insert_ne in Hy by lia.
  exists a, b, x, y. repeat (split; [assumption|]).
  assert (s_rank op + 1 < length (s_route op))%nat as Hsl
    by (eapply lookup_lt_Some; eauto).
  assert (t_rank op + 1 < length (t_route op))%nat as Htl
    by (eapply lookup_lt_Some; eauto).
  fold (put_edge (s_route op) (s_rank op) x y) in H4.
  fold (put_edge (t_route op) (t_rank op) a b) in H3.
  injection H as <-.
  destruct (reverse_s_edge op), (reverse_t_edge op); simpl in H3, H4.
  all: try rewrite swap_within_put_edge in H3 by assumption.
  all: try rewrite swap_within_put_edge in H4 by assumption.
  all: injection H3 as <-; injection H4 as <-; reflexivity.
Qed.

Lemma apply_defined (op : CrossExchange) :
  (s_rank op + 1 < length (s_route op))%nat →
  (t_rank op + 1 < length (t_route op))%nat →
  is_Some (apply op).
Proof.
  intros Hs Ht.
  destruct (lookup_lt_is_Some_2 (s_route op) (s_rank op) ltac:(lia)) as [a Ha].
  destruct (lookup_lt_is_Some_2 (s_route op) (s_rank op + 1) ltac:(lia)) as [b Hb].
  destruct (lookup_lt_is_Some_2 (t_route op) (t_rank op) ltac:(lia)) as [x Hx].
  destruct (lookup_lt_is_Some_2 (t_route op) (t_rank op + 1) ltac:(lia)) as [y Hy].
  unfold apply, swap_between. rewrite Ha, Hx. simpl.
  rewrite !list_lookup_insert_ne by lia. rewrite Hb, Hy. simpl.
  fold (put_edge (s_route op) (s_rank op) x y).
  fold (put_edge (t_route op) (t_rank op) a b).
  destruct (reverse_s_edge op), (reverse_t_edge op); simpl;
    try rewrite !swap_within_put_edge by assumption; simpl; eauto.
Qed.

Lemma put_edge_length (r : RawRoute) (k x y : nat) :
  length (put_edge r k x y) = length r.
Proof. unfold put_edge. by rewrite !length_insert. Qed.

Lemma put_edge_lookup_l (r : RawRoute) (k x y : nat) :
  (k + 1 < length r)%nat → put_edge r k x y !! k = Some x.
Proof.
  intros. unfold put_edge. rewrite list_lookup_insert_ne by lia.
  apply list_lookup_insert_eq. lia.
Qed.

Lemma put_edge_lookup_r (r : RawRoute) (k x y : nat) :
  (k + 1 < length r)%nat → put_edge r k x y !! (k + 1)%nat = Some y.
Proof.
  intros. unfold put_edge. apply list_lookup_insert_eq. rewrite length_insert. lia.
Qed.

Lemma put_edge_lookup_other (r : RawRoute) (k x y i : nat) :
  i ≠ k → i ≠ (k + 1)%nat → put_edge r k x y !! i = r !! i.
Proof.
  intros. unfold put_edge. by rewrite !list_lookup_insert_ne by lia.
Qed.

(** A route splits around the edge at rank [k]. *)
Lemma route_split (r : RawRoute) (k a b : nat) :
  r !! k = Some a → r !! (k + 1)%nat = Some b →
  r = take k r ++ a :: b :: drop (k + 2) r.
Proof.
  intros Ha Hb.
  rewrite <- (take_drop_middle r k a Ha) at 1. f_equal. f_equal.
  replace (k + 2)%nat with (S (S k)) by lia.
  replace (k + 1)%nat with (S k) in Hb by lia.
  rewrite <- (take_drop_middle r (S k) b Hb) at 1.
  rewrite drop_app_length'.
  2:{ rewrite length_take. apply lookup_lt_Some in Hb. lia. }
  reflexivity.
Qed.

Lemma put_edge_split (r : RawRoute) (k x y : nat) :
  (k + 1 < length r)%nat →
  put_edge r k x y = take k r ++ x :: y :: drop (k + 2) r.
Proof.
  intros Hk.
  assert (put_edge r k x y = take k (put_edge r k x y) ++ x :: y
                              :: drop (k + 2) (put_edge r k x y)) as ->.
  { apply route_split; [apply put_edge_lookup_l|apply put_edge_lookup_r]; done. }
  unfold put_edge.
  rewrite take_insert_ge by lia. rewrite take_insert_ge by lia.
  rewrite drop_insert_lt by lia. rewrite drop_insert_lt by lia. reflexivity.
Qed.

(** ** The cost of a route around one of its edges *)

Lemma path_cost_app (m : Matrix) (l1 l2 : list nat) (x : nat) :
  path_cost m (l1 ++ x :: l2) = path_cost m (l1 ++ [x]) + path_cost m (x :: l2).
Proof.
  induction l1 as [|a l1 IH]; [simpl; lia|].
  destruct l1 as [|b l1].
  - simpl. destruct l2; simpl; lia.
  - change (path_cost m ((a :: b :: l1) ++ x :: l2))
      with (M m a b + path_cost m ((b :: l1) ++ x :: l2)).
    change (path_cost m ((a :: b :: l1) ++ [x]))
      with (M m a b + path_cost m ((b :: l1) ++ [x])).
    rewrite IH. lia.
Qed.

Lemma path_cost_snoc (m : Matrix) (l : list nat) (x : nat) :
  path_cost m (l ++ [x]) = path_cost m l + link m (last l) (Some x).
Proof.
  induction l as [|a l IH]; [reflexivity|].
  destruct l as [|b l]; [simpl; lia|].
  change (path_cost m ((a :: b :: l) ++ [x]))
    with (M m a b + path_cost m ((b :: l) ++ [x])).
  rewrite IH. rewrite last_cons_cons. simpl. lia.
Qed.

Lemma path_cost_cons (m : Matrix) (l : list nat) (x : nat) :
  path_cost m (x :: l) = link m (Some x) (head l) + path_cost m l.
Proof. destruct l; simpl; lia. Qed.

Lemma path_cost_edge (m : Matrix) (p q : list nat) (a b : nat) :
  path_cost m (p ++ a :: b :: q)
  = path_cost m p + link m (last p) (Some a) + M m a b
    + link m (Some b) (head q) + path_cost m q.
Proof.
  rewrite path_cost_app, path_cost_snoc.
  change (path_cost m (a :: b :: q)) with (M m a b + path_cost m (b :: q)).
  rewrite path_cost_cons. lia.
Qed.

Lemma omap_cons_Some {A B : Type} (f : A → option B) (x : A) (l : list A) (y : B) :
  f x = Some y → omap f (x :: l) = y :: omap f l.
Proof.
  intros H.
  change (omap f (x :: l))
    with (match f x with Some y => y :: omap f l | None => omap f l end).
  by rewrite H.
Qed.

Lemma route_indices_lookup (input : Input) (route : RawRoute) (k : nat) :
  Forall (λ j : nat, is_Some (job_index_of input j)) route →
  route_indices input route !! k = job_index_at input route k.
Proof.
  unfold route_indices, job_index_at. revert k.
  induction route as [|j route IH]; intros k Hall; [by destruct k|].
  apply Forall_cons in Hall as [[i Hi] Hall].
  rewrite (omap_cons_Some _ _ _ _ Hi).
  destruct k as [|k]; simpl.
  - by rewrite Hi.
  - by apply IH.
Qed.

Lemma route_indices_length (input : Input) (route : RawRoute) :
  Forall (λ j : nat, is_Some (job_index_of input j)) route →
  length (route_indices input route) = length route.
Proof.
  unfold route_indices. induction 1 as [|j route [i Hi] _ IH]; [done|].
  rewrite (omap_cons_Some _ _ _ _ Hi). simpl. by rewrite IH.
Qed.

Lemma last_places_before (input : Input) (v : Vehicle) (route : RawRoute) (k : nat) :
  Forall (λ j : nat, is_Some (job_index_of input j)) route →
  (k < length route)%nat →
  last (places_before input v route k) = prev_index input v route k.
Proof.
  intros Hall Hk. unfold places_before, prev_index.
  assert (Forall (λ j : nat, is_Some (job_index_of input j))
                 (take k route)) as Hall' by (by apply Forall_take).
  case_decide as Hk0.
  - subst k. simpl. rewrite app_nil_r. by destruct (_ ≫= _).
  - rewrite last_app.
    rewrite last_lookup, route_indices_length, length_take by done.
    replace (pred (k `min` length route)) with (k - 1)%nat by lia.
    rewrite route_indices_lookup by done.
    unfold job_index_at at 1. rewrite lookup_take_lt by lia.
    fold (job_index_at input route (k - 1)).
    destruct (lookup_lt_is_Some_2 route (k - 1) ltac:(lia)) as [j Hj].
    pose proof (proj1 (Forall_lookup _ _) Hall _ _ Hj) as [i Hi].
    unfold job_index_at. rewrite Hj. simpl. by rewrite Hi.
Qed.

Lemma head_places_after (input : Input) (v : Vehicle) (route : RawRoute) (k : nat) :
  Forall (λ j : nat, is_Some (job_index_of input j)) route →
  (k + 1 < length route)%nat →
  head (places_after input v route k) = next_index input v route (k + 1).
Proof.
  intros Hall Hk. unfold places_after, next_index.
  assert (Forall (λ j : nat, is_Some (job_index_of input j))
                 (drop (k + 2) route)) as Hall' by (by apply Forall_drop).
  case_decide as Hk0.
  - rewrite drop_ge by lia. simpl. by destruct (_ ≫= _).
  - rewrite head_app, head_lookup.
    rewrite route_indices_lookup by done.
    unfold job_index_at at 1. rewrite lookup_drop.
    replace (k + 2 + 0)%nat with (k + 1 + 1)%nat by lia.
    fold (job_index_at input route (k + 1 + 1)).
    destruct (lookup_lt_is_Some_2 route (k + 1 + 1) ltac:(lia)) as [j Hj].
    pose proof (proj1 (Forall_lookup _ _) Hall _ _ Hj) as [i Hi].
    unfold job_index_at. rewrite Hj. simpl. by rewrite Hi.
Qed.

(** Cost of a route whose positions [k], [k+1] hold jobs of indices [a],
    [b]: what lies before and after the edge is the same for every such
    route with the same other positions. *)
Lemma route_cost_around (input : Input) (v : Vehicle) (route : RawRoute)
    (k ja jb a b : nat) :
  Forall (λ j : nat, is_Some (job_index_of input j)) route →
  (k + 1 < length route)%nat →
  job_index_of input ja = Some a →
  job_index_of input jb = Some b →
  route_cost input v (put_edge route k ja jb)
  = path_cost (input_matrix input) (places_before input v route k)
    + link (input_matrix input) (prev_index input v route k) (Some a)
    + M (input_matrix input) a b
    + link (input_matrix input) (Some b) (next_index input v route (k + 1))
    + path_cost (input_matrix input) (places_after input v route k).
Proof.
  intros Hall Hk Ha Hb.
  rewrite <- last_places_before, <- head_places_after by (done || lia).
  rewrite put_edge_split by done.
  unfold route_cost, route_indices.
  rewrite omap_app.
  rewrite (omap_cons_Some _ _ _ _ Ha), (omap_cons_Some _ _ _ _ Hb).
  transitivity (path_cost (input_matrix input)
                  (places_before input v route k
                   ++ a :: b :: places_after input v route k)).
  { f_equal. unfold places_before, places_after, route_indices.
    by rewrite <- !app_assoc. }
  apply path_cost_edge.
Qed.

Lemma put_edge_id (route : RawRoute) (k ja jb : nat) :
  route !! k = Some ja → route !! (k + 1)%nat = Some jb →
  put_edge route k ja jb = route.
Proof.
  intros Ha Hb. unfold put_edge.
  rewrite (list_insert_id _ k) by done. by apply list_insert_id.
Qed.

(** ** The operator built by the constructor *)

Lemma CrossExchange_new_inv input sol s sv sr t tv tr op :
  CrossExchange_new input sol s sv sr t tv tr = Some op →
  CrossExchange_asserts s sv sr t tv tr ∧
  _input op = input ∧ _sol_state op = sol ∧
  s_route op = s ∧ s_vehicle op = sv ∧ s_rank op = sr ∧
  t_route op = t ∧ t_vehicle op = tv ∧ t_rank op = tr ∧
  reverse_s_edge op = false ∧ reverse_t_edge op = false.
Proof.
  unfold CrossExchange_new. case_decide; [|done].
  intros [= <-]. simpl. done.
Qed.

Lemma routes_have_indices (input : Input) (sol : SolutionState) (v_rank : nat)
    (route : RawRoute) :
  wf_input input → wf_route input sol v_rank route →
  Forall (λ j : nat, is_Some (job_index_of input j)) route.
Proof.
  intros Hwf (_ & Hjobs & _). eapply Forall_impl; [exact Hjobs|].
  intros j Hj. simpl in Hj.
  destruct (lookup_lt_is_Some_2 _ _ Hj) as [job Hjob].
  destruct (proj1 (Forall_lookup _ _) (wf_jobs _ Hwf) _ _ Hjob) as (i & Hi & _).
  exists i. unfold job_index_of. rewrite Hjob. exact Hi.
Qed.

Lemma job_index_at_Some (input : Input) (route : RawRoute) (k j i : nat) :
  route !! k = Some j → job_index_at input route k = Some i →
  job_index_of input j = Some i.
Proof. unfold job_index_at. by intros ->. Qed.

(** C1. For every well-formed state in which the two cache entries
    [edge_costs_around_edge[s_vehicle][s_rank]] and
    [edge_costs_around_edge[t_vehicle][t_rank]] hold their defined values,
    [compute_gain] followed by [apply] succeed on a newly built operator,
    and [stored_gain] is the cost of the two routes before [apply] minus
    their cost after it. *)
Theorem C1_stored_gain_is_cost_difference
    input sol s sv sr t tv tr (op : CrossExchange) :
  CrossExchange_new input sol s sv sr t tv tr = Some op →
  wf_input input → wf_route input sol sv s → wf_route input sol tv t →
  cache_holds input sol sv s sr → cache_holds input sol tv t tr →
  ∃ op1 op2 v_source v_target,
    compute_gain op = Some op1 ∧ apply op1 = Some op2 ∧
    input_vehicles input !! sv = Some v_source ∧
    input_vehicles input !! tv = Some v_target ∧
    stored_gain op1
    = (route_cost input v_source s + route_cost input v_target t)
      - (route_cost input v_source (s_route op2)
         + route_cost input v_target (t_route op2)).
Proof.
  intros Hnew Hwf Hs Ht Hcs Hct.
  apply CrossExchange_new_inv in Hnew
    as (Hassert & Hin & Hsol & Hsr & Hsv & Hsk & Htr & Htv & Htk & Hrs & Hrt).
  pose proof Hassert as (Hne & Hls & Hlt & Hsr' & Htr').
  assert (wf_operator op) as Hop by (unfold wf_operator; rewrite Hin, Hsol, Hsr, Hsv, Hsk, Htr, Htv, Htk; done).
  destruct (compute_gain_defined op Hop) as [op1 Hop1].
  pose proof Hop1 as Hinv.
  apply compute_gain_inv in Hinv
    as (v_source & v_target & si & sai & ti & tai & around_s & around_t
        & Hvs & Hvt & Hsi & Hsai & Hti & Htai & Has & Hat & Hop1eq);
    [|rewrite Hsr; lia|rewrite Htr; lia].
  cbv zeta in Hop1eq.
  destruct (apply_defined op1) as [op2 Hop2].
  { subst op1. simpl. rewrite Hsr, Hsk. lia. }
  { subst op1. simpl. rewrite Htr, Htk. lia. }
  exists op1, op2, v_source, v_target.
  rewrite Hin, Hsv in Hvs. rewrite Hin, Htv in Hvt.
  do 4 (split; [assumption|]).
  pose proof Hop2 as Hinv2.
  apply apply_inv in Hinv2 as (a & b & x & y & Ha & Hb & Hx & Hy & Hop2eq).
  assert (s_route op1 = s ∧ s_rank op1 = sr ∧ t_route op1 = t ∧ t_rank op1 = tr)
    as (E1 & E2 & E3 & E4) by (subst op1; simpl; auto).
  rewrite E1, E2 in Ha, Hb. rewrite E3, E4 in Hx, Hy.
  rewrite Hin, Hsr, Hsk in Hsi, Hsai. rewrite Hin, Htr, Htk in Hti, Htai.
  pose proof (job_index_at_Some _ _ _ _ _ Ha Hsi) as Ja.
  pose proof (job_index_at_Some _ _ _ _ _ Hb Hsai) as Jb.
  pose proof (job_index_at_Some _ _ _ _ _ Hx Hti) as Jx.
  pose proof (job_index_at_Some _ _ _ _ _ Hy Htai) as Jy.
  pose proof (routes_have_indices _ _ _ _ Hwf Hs) as Hsall.
  pose proof (routes_have_indices _ _ _ _ Hwf Ht) as Htall.
  (* the cache entries *)
  destruct Hcs as (vs' & Hvs' & Hcs). destruct Hct as (vt' & Hvt' & Hct).
  assert (vs' = v_source) as -> by congruence.
  assert (vt' = v_target) as -> by congruence.
  rewrite Hsol, Hsv, Hsk, Hcs in Has. rewrite Hsol, Htv, Htk, Hct in Hat.
  injection Has as <-. injection Hat as <-.
  (* costs before *)
  rewrite <- (put_edge_id s sr a b Ha Hb) at 1.
  rewrite <- (put_edge_id t tr x y Hx Hy) at 1.
  rewrite (route_cost_around input v_source s sr a b si sai) by (done || lia).
  rewrite (route_cost_around input v_target t tr x y ti tai) by (done || lia).
  (* costs after *)
  assert (s_route op2 = if reverse_t_edge op1 then put_edge s sr y x
                        else put_edge s sr x y) as ->
    by (rewrite Hop2eq; simpl; by rewrite E1, E2).
  assert (t_route op2 = if reverse_s_edge op1 then put_edge t tr b a
                        else put_edge t tr a b) as ->
    by (rewrite Hop2eq; simpl; by rewrite E3, E4).
  assert (stored_gain op1 = _ ∧ reverse_s_edge op1 = _ ∧ reverse_t_edge op1 = _)
    as (-> & -> & ->) by (rewrite Hop1eq; simpl; done).
  rewrite Hrs, Hrt.
  unfold edge_cost_around_edge_def.
  rewrite Hsi, Hsai, Hti, Htai.
  unfold normal_s_gain_def, reversed_s_gain_def, normal_t_gain_def, reversed_t_gain_def.
  rewrite Hin, Hsr, Hsk, Htr, Htk.
  set (m := input_matrix input).
  set (ps := prev_index input v_source s sr).
  set (ns := next_index input v_source s (sr + 1)).
  set (pt := prev_index input v_target t tr).
  set (nt := next_index input v_target t (tr + 1)).
  repeat case_bool_decide;
    rewrite ?(route_cost_around input v_source s sr x y ti tai),
            ?(route_cost_around input v_source s sr y x tai ti),
            ?(route_cost_around input v_target t tr a b si sai),
            ?(route_cost_around input v_target t tr b a sai si) by (done || lia);
    fold m ps ns pt nt; lia.
Qed.

(** ** The jobs of the two routes *)

Lemma put_edge_exchange_perm (s t : RawRoute) (k l a b x y : nat) :
  s !! k = Some a → s !! (k + 1)%nat = Some b →
  t !! l = Some x → t !! (l + 1)%nat = Some y →
  put_edge s k x y ++ put_edge t l a b ≡ₚ s ++ t.
Proof.
  intros Ha Hb Hx Hy.
  assert (k + 1 < length s)%nat by (by eapply lookup_lt_Some).
  assert (l + 1 < length t)%nat by (by eapply lookup_lt_Some).
  assert (s ++ t = (take k s ++ a :: b :: drop (k + 2) s)
                   ++ (take l t ++ x :: y :: drop (l + 2) t)) as ->
    by (f_equal; by apply route_split).
  rewrite !put_edge_split by done.
  generalize (take k s), (drop (k + 2) s), (take l t), (drop (l + 2) t).
  intros p q p' q'.
  rewrite <- !Permutation_middle. simpl.
  exact (Permutation_app_swap_app [a; b] [x; y] _).
Qed.

Lemma put_edge_flip_perm (r : RawRoute) (k x y : nat) :
  (k + 1 < length r)%nat → put_edge r k y x ≡ₚ put_edge r k x y.
Proof.
  intros Hk. rewrite !put_edge_split by done.
  apply Permutation_app_head, Permutation_swap.
Qed.

Lemma apply_routes_perm (op op' : CrossExchange) :
  apply op = Some op' →
  s_route op' ++ t_route op' ≡ₚ s_route op ++ t_route op ∧
  length (s_route op') = length (s_route op) ∧
  length (t_route op') = length (t_route op).
Proof.
  intros H. apply apply_inv in H as (a & b & x & y & Ha & Hb & Hx & Hy & ->).
  simpl.
  assert (s_rank op + 1 < length (s_route op))%nat by (by eapply lookup_lt_Some).
  assert (t_rank op + 1 < length (t_route op))%nat by (by eapply lookup_lt_Some).
  split; [|by destruct (reverse_s_edge op), (reverse_t_edge op);
              rewrite !put_edge_length].
  rewrite <- (put_edge_exchange_perm _ _ _ _ _ _ _ _ Ha Hb Hx Hy).
  destruct (reverse_s_edge op), (reverse_t_edge op);
    rewrite ?(put_edge_flip_perm (s_route op) _ x y),
            ?(put_edge_flip_perm (t_route op) _ a b) by done;
    reflexivity.
Qed.

(** C6. [apply] keeps the jobs of the two routes: the concatenation of the
    routes after the move is a permutation of the one before, so every job
    is kept with its multiplicity; if no job occurred twice before, none
    does afterwards (each job lies in exactly one route, once); the two
    lengths are unchanged. *)
Theorem C6_apply_preserves_jobs (op : CrossExchange) :
  CrossExchange_asserts (s_route op) (s_vehicle op) (s_rank op)
                        (t_route op) (t_vehicle op) (t_rank op) →
  ∃ op', apply op = Some op' ∧
    s_route op' ++ t_route op' ≡ₚ s_route op ++ t_route op ∧
    (∀ j : nat, j ∈ s_route op' ++ t_route op' ↔ j ∈ s_route op ++ t_route op) ∧
    (NoDup (s_route op ++ t_route op) → NoDup (s_route op' ++ t_route op')) ∧
    length (s_route op') = length (s_route op) ∧
    length (t_route op') = length (t_route op).
Proof.
  intros (_ & Hls & Hlt & Hs & Ht).
  destruct (apply_defined op ltac:(lia) ltac:(lia)) as [op' Hop'].
  exists op'. split; [exact Hop'|].
  destruct (apply_routes_perm _ _ Hop') as (Hperm & Hl1 & Hl2).
  split; [exact Hperm|].
  split; [by intros j; rewrite Hperm|].
  split; [by rewrite Hperm|]. done.
Qed.

Lemma C6_apply_preserves_jobs_witness :
  ∃ op', apply Example.op = Some op' ∧
    s_route op' ++ t_route op' ≡ₚ [0; 1; 2; 3]%nat ∧
    (∀ j : nat, j ∈ s_route op' ++ t_route op' ↔ j ∈ [0; 1; 2; 3]%nat) ∧
    (NoDup [0; 1; 2; 3]%nat → NoDup (s_route op' ++ t_route op')) ∧
    length (s_route op') = 2%nat ∧
    length (t_route op') = 2%nat.
Proof.
  apply (C6_apply_preserves_jobs Example.op).
  unfold CrossExchange_asserts. simpl. lia.
Defined.

(** Discharging well-formedness on a concrete instance. *)
Ltac solve_Forall := repeat first [apply Forall_nil_2 | apply Forall_cons_2]; simpl.

Lemma Example_wf_input : wf_input Example.input.
Proof.
  split; simpl.
  - solve_Forall; reflexivity.
  - solve_Forall; eexists; (split; [reflexivity|simpl; lia]).
  - solve_Forall; intros l [= <-]; eexists; (split; [reflexivity|simpl; lia]).
  - solve_Forall; intros l [=]; subst; eexists; (split; [reflexivity|simpl; lia]).
Qed.

Lemma Example_wf_route_s :
  wf_route Example.input Example.sol_state 0 [0; 1]%nat.
Proof.
  repeat split; simpl; try lia.
  - solve_Forall; lia.
  - eexists; split; reflexivity.
  - eexists; split; reflexivity.
Qed.

Lemma Example_wf_route_t :
  wf_route Example.input Example.sol_state 1 [2; 3]%nat.
Proof.
  repeat split; simpl; try lia.
  - solve_Forall; lia.
  - eexists; split; reflexivity.
  - eexists; split; reflexivity.
Qed.

Lemma Example_wf_operator : wf_operator Example.op.
Proof.
  split; [unfold CrossExchange_asserts; simpl; lia|].
  split; [exact Example_wf_input|].
  split; [exact Example_wf_route_s|exact Example_wf_route_t].
Qed.

Lemma C1_stored_gain_is_cost_difference_witness :
  ∃ op1 op2 v_source v_target,
    compute_gain Example.op = Some op1 ∧ apply op1 = Some op2 ∧
    Example.vehicles !! 0%nat = Some v_source ∧
    Example.vehicles !! 1%nat = Some v_target ∧
    stored_gain op1
    = (route_cost Example.input v_source [0; 1]%nat
       + route_cost Example.input v_target [2; 3]%nat)
      - (route_cost Example.input v_source (s_route op2)
         + route_cost Example.input v_target (t_route op2)).
Proof.
  apply (C1_stored_gain_is_cost_difference
           Example.input Example.sol_state [0; 1]%nat 0%nat 0%nat
           [2; 3]%nat 1%nat 0%nat Example.op).
  - reflexivity.
  - exact Example_wf_input.
  - exact Example_wf_route_s.
  - exact Example_wf_route_t.
  - eexists; split; reflexivity.
  - eexists; split; reflexivity.
Defined.

Lemma if_gt_max (n r : Z) : (if bool_decide (r > n) then r else n) = Z.max n r.
Proof. case_bool_decide; lia. Qed.

Lemma if_bool_id (b : bool) : (if b then true else false) = b.
Proof. by destruct b. Qed.

(** What [compute_gain] leaves in a newly built operator, spelled out on
    the arguments of the constructor. *)
Lemma compute_gain_new input sol s sv sr t tv tr (op : CrossExchange) :
  CrossExchange_new input sol s sv sr t tv tr = Some op →
  wf_input input → wf_route input sol sv s → wf_route input sol tv t →
  ∃ op1 v_source v_target si sai ti tai around_s around_t,
    compute_gain op = Some op1 ∧
    input_vehicles input !! sv = Some v_source ∧
    input_vehicles input !! tv = Some v_target ∧
    job_index_at input s sr = Some si ∧
    job_index_at input s (sr + 1) = Some sai ∧
    job_index_at input t tr = Some ti ∧
    job_index_at input t (tr + 1) = Some tai ∧
    edge_costs_around_edge sol !! sv ≫= (.!! sr) = Some around_s ∧
    edge_costs_around_edge sol !! tv ≫= (.!! tr) = Some around_t ∧
    let m := input_matrix input in
    let prev_s := prev_index input v_source s sr in
    let next_s := next_index input v_source s (sr + 1) in
    let prev_t := prev_index input v_target t tr in
    let next_t := next_index input v_target t (tr + 1) in
    normal_s_gain op1
      = around_s - link m prev_s (Some ti) - link m (Some tai) next_s ∧
    reversed_s_gain op1
      = around_s + (M m ti tai - M m tai ti)
        - link m prev_s (Some tai) - link m (Some ti) next_s ∧
    normal_t_gain op1
      = around_t - link m prev_t (Some si) - link m (Some sai) next_t ∧
    reversed_t_gain op1
      = around_t + (M m si sai - M m sai si)
        - link m prev_t (Some sai) - link m (Some si) next_t ∧
    reverse_t_edge op1 = bool_decide (reversed_s_gain op1 > normal_s_gain op1) ∧
    reverse_s_edge op1 = bool_decide (reversed_t_gain op1 > normal_t_gain op1) ∧
    stored_gain op1
      = Z.max (normal_s_gain op1) (reversed_s_gain op1)
        + Z.max (normal_t_gain op1) (reversed_t_gain op1).
Proof.
  intros Hnew Hwf Hs Ht.
  apply CrossExchange_new_inv in Hnew
    as (Hassert & Hin & Hsol & Hsr & Hsv & Hsk & Htr & Htv & Htk & Hrs & Hrt).
  pose proof Hassert as (Hne & Hls & Hlt & Hsr' & Htr').
  assert (wf_operator op) as Hop
    by (unfold wf_operator; rewrite Hin, Hsol, Hsr, Hsv, Hsk, Htr, Htv, Htk; done).
  destruct (compute_gain_defined op Hop) as [op1 Hop1].
  pose proof Hop1 as Hinv.
  apply compute_gain_inv in Hinv
    as (v_source & v_target & si & sai & ti & tai & around_s & around_t
        & Hvs & Hvt & Hsi & Hsai & Hti & Htai & Has & Hat & Hop1eq);
    [|rewrite Hsr; lia|rewrite Htr; lia].
  cbv zeta in Hop1eq.
  unfold normal_s_gain_def, reversed_s_gain_def, normal_t_gain_def,
    reversed_t_gain_def in Hop1eq.
  rewrite Hin, Hsol, Hsr, Hsv, Hsk, Htr, Htv, Htk in *.
  exists op1, v_source, v_target, si, sai, ti, tai, around_s, around_t.
  do 9 (split; [assumption|]).
  rewrite Hop1eq.
  cbn [stored_gain normal_s_gain reversed_s_gain normal_t_gain reversed_t_gain
       reverse_s_edge reverse_t_edge].
  rewrite Hrs, Hrt.
  repeat split; try reflexivity; apply if_bool_id.
Qed.

Lemma M_range (B : Z) (m : Matrix) (i j : nat) :
  0 < B → costs_below B m → 0 ≤ M m i j < B.
Proof.
  intros HB Hm. unfold M, m_at.
  destruct (m !! i) as [line|] eqn:Hi; simpl; [|lia].
  destruct (line !! j) as [c|] eqn:Hj; simpl; [|lia].
  pose proof (proj1 (Forall_lookup _ _) Hm _ _ Hi) as Hline.
  exact (proj1 (Forall_lookup _ _) Hline _ _ Hj).
Qed.

Lemma link_range (B : Z) (m : Matrix) (a b : option nat) :
  0 < B → costs_below B m → 0 ≤ link m a b < B.
Proof.
  intros HB Hm. destruct a, b; simpl; try lia. by apply M_range.
Qed.

Lemma Example_costs_below : costs_below (2 ^ 32) Example.matrix.
Proof. unfold costs_below. solve_Forall; lia. Qed.

(** With 32-bit costs and cache entries within [2 ^ 61] of 0, no gain that
    [compute_gain] computes leaves the range of [Gain]. *)
Lemma compute_gain_within input sol s sv sr t tv tr (op : CrossExchange) :
  CrossExchange_new input sol s sv sr t tv tr = Some op →
  wf_input input → wf_route input sol sv s → wf_route input sol tv t →
  costs_below (2 ^ 32) (input_matrix input) →
  cache_within (2 ^ 61) sol sv sr → cache_within (2 ^ 61) sol tv tr →
  ∃ op1, compute_gain op = Some op1 ∧
    Z.abs (normal_s_gain op1) ≤ 2 ^ 61 + 3 * 2 ^ 32 ∧
    Z.abs (reversed_s_gain op1) ≤ 2 ^ 61 + 3 * 2 ^ 32 ∧
    Z.abs (normal_t_gain op1) ≤ 2 ^ 61 + 3 * 2 ^ 32 ∧
    Z.abs (reversed_t_gain op1) ≤ 2 ^ 61 + 3 * 2 ^ 32 ∧
    fits_Gain (normal_s_gain op1) ∧ fits_Gain (reversed_s_gain op1) ∧
    fits_Gain (normal_t_gain op1) ∧ fits_Gain (reversed_t_gain op1) ∧
    fits_Gain (stored_gain op1).
Proof.
  intros Hnew Hwf Hs Ht Hm Hcs Hct.
  destruct (compute_gain_new _ _ _ _ _ _ _ _ _ Hnew Hwf Hs Ht)
    as (op1 & v_source & v_target & si & sai & ti & tai & around_s & around_t
        & Hop1 & Hvs & Hvt & Hsi & Hsai & Hti & Htai & Has & Hat
        & Ens & Ers & Ent & Ert & _ & _ & Eg).
  exists op1. split; [exact Hop1|].
  specialize (Hcs _ Has). specialize (Hct _ Hat).
  cbv zeta in *. unfold fits_Gain. rewrite Eg, Ens, Ers, Ent, Ert.
  assert (0 < 2 ^ 32) as HB by lia.
  repeat match goal with
         | |- context [link ?m ?a ?b] =>
             let H := fresh "Hl" in
             pose proof (link_range (2 ^ 32) m a b HB Hm) as H;
             generalize dependent (link m a b); intros
         | |- context [M ?m ?a ?b] =>
             let H := fresh "Hl" in
             pose proof (M_range (2 ^ 32) m a b HB Hm) as H;
             generalize dependent (M m a b); intros
         end.
  lia.
Qed.

(** C2. On a newly built operator over a well-formed state, with 32-bit
    costs and the two cache entries within [2 ^ 61] of 0 (so that no
    operation on the signed 64-bit [Gain] overflows: every gain computed
    is within [2 ^ 61 + 3 * 2 ^ 32] of 0 and [stored_gain] fits [Gain]),
    [compute_gain] evaluates, for each side, the gain of the normal and of
    the reversed orientation of the incoming edge (the reversed one
    through [reverse_edge_cost = M[a][b] - M[b][a]]), raises the side's
    reversal flag exactly when the reversed gain is larger, so that the
    orientation it selects has the larger gain, and stores the sum of the
    two per-side maxima. *)
Theorem C2_stored_gain_is_sum_of_maxima
    input sol s sv sr t tv tr (op : CrossExchange) :
  CrossExchange_new input sol s sv sr t tv tr = Some op →
  wf_input input → wf_route input sol sv s → wf_route input sol tv t →
  costs_below (2 ^ 32) (input_matrix input) →
  cache_within (2 ^ 61) sol sv sr → cache_within (2 ^ 61) sol tv tr →
  ∃ op1 v_source v_target s_index s_after_index t_index t_after_index
      around_s around_t,
    compute_gain op = Some op1 ∧
    input_vehicles input !! sv = Some v_source ∧
    input_vehicles input !! tv = Some v_target ∧
    job_index_at input s sr = Some s_index ∧
    job_index_at input s (sr + 1) = Some s_after_index ∧
    job_index_at input t tr = Some t_index ∧
    job_index_at input t (tr + 1) = Some t_after_index ∧
    edge_costs_around_edge sol !! sv ≫= (.!! sr) = Some around_s ∧
    edge_costs_around_edge sol !! tv ≫= (.!! tr) = Some around_t ∧
    normal_s_gain op1 = normal_s_gain_def op v_source t_index t_after_index around_s ∧
    reversed_s_gain op1
      = reversed_s_gain_def op v_source t_index t_after_index around_s ∧
    normal_t_gain op1 = normal_t_gain_def op v_target s_index s_after_index around_t ∧
    reversed_t_gain op1
      = reversed_t_gain_def op v_target s_index s_after_index around_t ∧
    reverse_t_edge op1 = bool_decide (reversed_s_gain op1 > normal_s_gain op1) ∧
    reverse_s_edge op1 = bool_decide (reversed_t_gain op1 > normal_t_gain op1) ∧
    (if reverse_t_edge op1 then reversed_s_gain op1 else normal_s_gain op1)
      = Z.max (normal_s_gain op1) (reversed_s_gain op1) ∧
    (if reverse_s_edge op1 then reversed_t_gain op1 else normal_t_gain op1)
      = Z.max (normal_t_gain op1) (reversed_t_gain op1) ∧
    stored_gain op1
      = Z.max (normal_s_gain op1) (reversed_s_gain op1)
        + Z.max (normal_t_gain op1) (reversed_t_gain op1) ∧
    Z.abs (normal_s_gain op1) ≤ 2 ^ 61 + 3 * 2 ^ 32 ∧
    Z.abs (reversed_s_gain op1) ≤ 2 ^ 61 + 3 * 2 ^ 32 ∧
    Z.abs (normal_t_gain op1) ≤ 2 ^ 61 + 3 * 2 ^ 32 ∧
    Z.abs (reversed_t_gain op1) ≤ 2 ^ 61 + 3 * 2 ^ 32 ∧
    fits_Gain (stored_gain op1).
Proof.
  intros Hnew Hwf Hs Ht Hm Hcs Hct.
  destruct (compute_gain_within _ _ _ _ _ _ _ _ _ Hnew Hwf Hs Ht Hm Hcs Hct)
    as (op1' & Hop1' & R1 & R2 & R3 & R4 & _ & _ & _ & _ & R5).
  destruct (compute_gain_new _ _ _ _ _ _ _ _ _ Hnew Hwf Hs Ht)
    as (op1 & v_source & v_target & si & sai & ti & tai & around_s & around_t
        & Hop1 & Hvs & Hvt & Hsi & Hsai & Hti & Htai & Has & Hat
        & Ens & Ers & Ent & Ert & Eft & Efs & Eg).
  rewrite Hop1 in Hop1'. injection Hop1' as <-.
  exists op1, v_source, v_target, si, sai, ti, tai, around_s, around_t.
  do 9 (split; [assumption|]).
  apply CrossExchange_new_inv in Hnew
    as (_ & Hin & _ & Hsr & _ & Hsk & Htr & _ & Htk & _ & _).
  unfold normal_s_gain_def, reversed_s_gain_def, normal_t_gain_def, reversed_t_gain_def.
  rewrite Hin, Hsr, Hsk, Htr, Htk.
  do 6 (split; [assumption|]).
  rewrite Eft, Efs.
  do 2 (split; [apply if_gt_max|]).
  split; [exact Eg|]. done.
Qed.

Lemma C2_stored_gain_is_sum_of_maxima_witness :
  ∃ op1 v_source v_target s_index s_after_index t_index t_after_index
      around_s around_t,
    compute_gain Example.op = Some op1 ∧
    Example.vehicles !! 0%nat = Some v_source ∧
    Example.vehicles !! 1%nat = Some v_target ∧
    job_index_at Example.input [0; 1]%nat 0 = Some s_index ∧
    job_index_at Example.input [0; 1]%nat (0 + 1) = Some s_after_index ∧
    job_index_at Example.input [2; 3]%nat 0 = Some t_index ∧
    job_index_at Example.input [2; 3]%nat (0 + 1) = Some t_after_index ∧
    edge_costs_around_edge Example.sol_state !! 0%nat ≫= (.!! 0%nat) = Some around_s ∧
    edge_costs_around_edge Example.sol_state !! 1%nat ≫= (.!! 0%nat) = Some around_t ∧
    normal_s_gain op1
      = normal_s_gain_def Example.op v_source t_index t_after_index around_s ∧
    reversed_s_gain op1
      = reversed_s_gain_def Example.op v_source t_index t_after_index around_s ∧
    normal_t_gain op1
      = normal_t_gain_def Example.op v_target s_index s_after_index around_t ∧
    reversed_t_gain op1
      = reversed_t_gain_def Example.op v_target s_index s_after_index around_t ∧
    reverse_t_edge op1 = bool_decide (reversed_s_gain op1 > normal_s_gain op1) ∧
    reverse_s_edge op1 = bool_decide (reversed_t_gain op1 > normal_t_gain op1) ∧
    (if reverse_t_edge op1 then reversed_s_gain op1 else normal_s_gain op1)
      = Z.max (normal_s_gain op1) (reversed_s_gain op1) ∧
    (if reverse_s_edge op1 then reversed_t_gain op1 else normal_t_gain op1)
      = Z.max (normal_t_gain op1) (reversed_t_gain op1) ∧
    stored_gain op1
      = Z.max (normal_s_gain op1) (reversed_s_gain op1)
        + Z.max (normal_t_gain op1) (reversed_t_gain op1) ∧
    Z.abs (normal_s_gain op1) ≤ 2 ^ 61 + 3 * 2 ^ 32 ∧
    Z.abs (reversed_s_gain op1) ≤ 2 ^ 61 + 3 * 2 ^ 32 ∧
    Z.abs (normal_t_gain op1) ≤ 2 ^ 61 + 3 * 2 ^ 32 ∧
    Z.abs (reversed_t_gain op1) ≤ 2 ^ 61 + 3 * 2 ^ 32 ∧
    fits_Gain (stored_gain op1).
Proof.
  apply (C2_stored_gain_is_sum_of_maxima
           Example.input Example.sol_state [0; 1]%nat 0%nat 0%nat
           [2; 3]%nat 1%nat 0%nat Example.op).
  - reflexivity.
  - exact Example_wf_input.
  - exact Example_wf_route_s.
  - exact Example_wf_route_t.
  - exact Example_costs_below.
  - intros c [= <-]. lia.
  - intros c [= <-]. lia.
Defined.

(** ** Frame of [compute_gain] *)

Lemma compute_gain_frame (op op1 : CrossExchange) :
  compute_gain op = Some op1 →
  _input op1 = _input op ∧ _sol_state op1 = _sol_state op ∧
  s_route op1 = s_route op ∧ t_route op1 = t_route op ∧
  s_vehicle op1 = s_vehicle op ∧ s_rank op1 = s_rank op ∧
  t_vehicle op1 = t_vehicle op ∧ t_rank op1 = t_rank op ∧
  gain_computed op1 = true.
Proof.
  unfold compute_gain. intros H.
  do 6 (apply bind_Some in H as (? & _ & H)).
  do 2 (apply bind_Some in H as ([? ?] & _ & H)).
  do 3 (apply bind_Some in H as (? & _ & H)).
  do 2 (apply bind_Some in H as ([? ?] & _ & H)).
  do 3 (apply bind_Some in H as (? & _ & H)).
  injection H as <-. simpl. done.
Qed.

(** C9. [compute_gain] changes neither route, nor the solution state, nor
    the instance (matrix included), nor the vehicles and ranks of the move:
    whenever it completes, these are as before and [gain_computed] is set;
    only [stored_gain], the four orientation gains and the two reversal
    flags may differ. *)
Theorem C9_compute_gain_mutates_only_its_fields (op op1 : CrossExchange) :
  compute_gain op = Some op1 →
  _input op1 = _input op ∧ _sol_state op1 = _sol_state op ∧
  s_route op1 = s_route op ∧ t_route op1 = t_route op ∧
  s_vehicle op1 = s_vehicle op ∧ s_rank op1 = s_rank op ∧
  t_vehicle op1 = t_vehicle op ∧ t_rank op1 = t_rank op ∧
  gain_computed op1 = true ∧
  op1 = {| _input := _input op; _sol_state := _sol_state op;
           s_route := s_route op; s_vehicle := s_vehicle op; s_rank := s_rank op;
           t_route := t_route op; t_vehicle := t_vehicle op; t_rank := t_rank op;
           gain_computed := true; stored_gain := stored_gain op1;
           normal_s_gain := normal_s_gain op1;
           reversed_s_gain := reversed_s_gain op1;
           normal_t_gain := normal_t_gain op1;
           reversed_t_gain := reversed_t_gain op1;
           reverse_s_edge := reverse_s_edge op1;
           reverse_t_edge := reverse_t_edge op1 |}.
Proof.
  intros H.
  destruct (compute_gain_frame _ _ H) as (E1 & E2 & E3 & E4 & E5 & E6 & E7 & E8 & E9).
  repeat (split; [assumption|]).
  destruct op1; simpl in *. by subst.
Qed.

Lemma C9_compute_gain_mutates_only_its_fields_witness :
  ∃ op1, compute_gain Example.op = Some op1 ∧
    _input op1 = Example.input ∧ _sol_state op1 = Example.sol_state ∧
    s_route op1 = [0; 1]%nat ∧ t_route op1 = [2; 3]%nat ∧
    s_vehicle op1 = 0%nat ∧ s_rank op1 = 0%nat ∧
    t_vehicle op1 = 1%nat ∧ t_rank op1 = 0%nat ∧
    gain_computed op1 = true ∧
    op1 = {| _input := Example.input; _sol_state := Example.sol_state;
             s_route := [0; 1]%nat; s_vehicle := 0; s_rank := 0;
             t_route := [2; 3]%nat; t_vehicle := 1; t_rank := 0;
             gain_computed := true; stored_gain := stored_gain op1;
             normal_s_gain := normal_s_gain op1;
             reversed_s_gain := reversed_s_gain op1;
             normal_t_gain := normal_t_gain op1;
             reversed_t_gain := reversed_t_gain op1;
             reverse_s_edge := reverse_s_edge op1;
             reverse_t_edge := reverse_t_edge op1 |}.
Proof.
  eexists. split; [reflexivity|].
  apply (C9_compute_gain_mutates_only_its_fields Example.op).
  reflexivity.
Defined.

(** ** Placement of the two edges by [apply] *)

(** C3. After [compute_gain] on a newly built operator, [apply] puts the
    old target edge at ranks [s_rank], [s_rank+1] of the source route,
    reversed exactly when [compute_gain] raised [reverse_t_edge], and the
    old source edge at ranks [t_rank], [t_rank+1] of the target route,
    reversed exactly when it raised [reverse_s_edge]; every other position
    of the two routes is unchanged. *)
Theorem C3_apply_exchanges_the_edges
    input sol s sv sr t tv tr (op0 op : CrossExchange) (a b x y : nat) :
  CrossExchange_new input sol s sv sr t tv tr = Some op0 →
  compute_gain op0 = Some op →
  s !! sr = Some a → s !! (sr + 1)%nat = Some b →
  t !! tr = Some x → t !! (tr + 1)%nat = Some y →
  ∃ op', apply op = Some op' ∧
    s_route op' !! sr = Some (if reverse_t_edge op then y else x) ∧
    s_route op' !! (sr + 1)%nat = Some (if reverse_t_edge op then x else y) ∧
    t_route op' !! tr = Some (if reverse_s_edge op then b else a) ∧
    t_route op' !! (tr + 1)%nat = Some (if reverse_s_edge op then a else b) ∧
    (∀ i : nat, i ≠ sr → i ≠ (sr + 1)%nat → s_route op' !! i = s !! i) ∧
    (∀ i : nat, i ≠ tr → i ≠ (tr + 1)%nat → t_route op' !! i = t !! i) ∧
    length (s_route op') = length s ∧ length (t_route op') = length t.
Proof.
  intros Hnew Hgain Ha Hb Hx Hy.
  apply CrossExchange_new_inv in Hnew
    as (_ & _ & _ & Hsr & _ & Hsk & Htr & _ & Htk & _ & _).
  destruct (compute_gain_frame _ _ Hgain) as (_ & _ & E3 & E4 & _ & E6 & _ & E8 & _).
  rewrite Hsr in E3. rewrite Htr in E4. rewrite Hsk in E6. rewrite Htk in E8.
  assert (sr + 1 < length s)%nat as Hsl by (by eapply lookup_lt_Some).
  assert (tr + 1 < length t)%nat as Htl by (by eapply lookup_lt_Some).
  destruct (apply_defined op) as [op' Hop'];
    [rewrite E3, E6; lia|rewrite E4, E8; lia|].
  exists op'. split; [exact Hop'|].
  apply apply_inv in Hop' as (a' & b' & x' & y' & Ha' & Hb' & Hx' & Hy' & ->).
  rewrite E3, E6 in Ha', Hb'. rewrite E4, E8 in Hx', Hy'.
  assert (a' = a) as -> by congruence. assert (b' = b) as -> by congruence.
  assert (x' = x) as -> by congruence. assert (y' = y) as -> by congruence.
  simpl. rewrite E3, E4, E6, E8.
  destruct (reverse_s_edge op), (reverse_t_edge op);
    rewrite !put_edge_lookup_l, !put_edge_lookup_r, !put_edge_length by done;
    (repeat split; try done);
    intros i ? ?; by apply put_edge_lookup_other.
Qed.

Lemma C3_apply_exchanges_the_edges_witness :
  ∃ op1, compute_gain Example.op = Some op1 ∧
  ∃ op', apply op1 = Some op' ∧
    s_route op' !! 0%nat = Some (if reverse_t_edge op1 then 3%nat else 2%nat) ∧
    s_route op' !! (0 + 1)%nat = Some (if reverse_t_edge op1 then 2%nat else 3%nat) ∧
    t_route op' !! 0%nat = Some (if reverse_s_edge op1 then 1%nat else 0%nat) ∧
    t_route op' !! (0 + 1)%nat = Some (if reverse_s_edge op1 then 0%nat else 1%nat) ∧
    (∀ i : nat, i ≠ 0%nat → i ≠ (0 + 1)%nat → s_route op' !! i = [0; 1]%nat !! i) ∧
    (∀ i : nat, i ≠ 0%nat → i ≠ (0 + 1)%nat → t_route op' !! i = [2; 3]%nat !! i) ∧
    length (s_route op') = 2%nat ∧ length (t_route op') = 2%nat.
Proof.
  eexists. split; [reflexivity|].
  apply (C3_apply_exchanges_the_edges
           Example.input Example.sol_state [0; 1]%nat 0%nat 0%nat
           [2; 3]%nat 1%nat 0%nat Example.op _ 0%nat 1%nat 2%nat 3%nat);
    reflexivity.
Defined.

(** ** Validity *)

Lemma vehicle_ok_with_job_defined (input : Input) (v_index j_index : nat) :
  (v_index < length (input_vehicles input))%nat →
  (j_index < length (input_jobs input))%nat →
  ∃ v j, input_vehicles input !! v_index = Some v ∧
         input_jobs input !! j_index = Some j ∧
         vehicle_ok_with_job input v_index j_index
         = Some (bool_decide (job_skills j ⊆ vehicle_skills v)).
Proof.
  intros Hv Hj.
  destruct (lookup_lt_is_Some_2 _ _ Hv) as [v Hv'].
  destruct (lookup_lt_is_Some_2 _ _ Hj) as [j Hj'].
  exists v, j. unfold vehicle_ok_with_job. rewrite Hv', Hj'. done.
Qed.

Lemma fwd_back_defined (input : Input) (sol : SolutionState) (v_rank : nat)
    (route : RawRoute) :
  wf_route input sol v_rank route → (2 ≤ length route)%nat →
  ∃ back, fwd_amounts sol !! v_rank ≫= last = Some back.
Proof.
  intros (_ & _ & _ & (line & Hline & Hlen)) Hl.
  rewrite Hline. simpl.
  destruct (last line) eqn:E; [eauto|].
  apply last_None in E. subst line. simpl in Hlen. lia.
Qed.

Lemma is_valid_value (op : CrossExchange) :
  wf_operator op →
  ∃ js jsa jt jta s_current s_after t_current t_after v_source v_target s_back t_back,
    s_route op !! s_rank op = Some js ∧
    s_route op !! (s_rank op + 1)%nat = Some jsa ∧
    t_route op !! t_rank op = Some jt ∧
    t_route op !! (t_rank op + 1)%nat = Some jta ∧
    input_jobs (_input op) !! js = Some s_current ∧
    input_jobs (_input op) !! jsa = Some s_after ∧
    input_jobs (_input op) !! jt = Some t_current ∧
    input_jobs (_input op) !! jta = Some t_after ∧
    input_vehicles (_input op) !! s_vehicle op = Some v_source ∧
    input_vehicles (_input op) !! t_vehicle op = Some v_target ∧
    fwd_amounts (_sol_state op) !! s_vehicle op ≫= last = Some s_back ∧
    fwd_amounts (_sol_state op) !! t_vehicle op ≫= last = Some t_back ∧
    is_valid op
    = Some (bool_decide (job_skills s_current ⊆ vehicle_skills v_target)
            && bool_decide (job_skills s_after ⊆ vehicle_skills v_target)
            && bool_decide (job_skills t_current ⊆ vehicle_skills v_source)
            && bool_decide (job_skills t_after ⊆ vehicle_skills v_source)
            && amount_le (load_after_exchange s_back (job_amount s_current)
                            (job_amount s_after) (job_amount t_current)
                            (job_amount t_after))
                         (vehicle_capacity v_source)
            && amount_le (load_after_exchange t_back (job_amount t_current)
                            (job_amount t_after) (job_amount s_current)
                            (job_amount s_after))
                         (vehicle_capacity v_target)).
Proof.
  intros ((Hne & Hls & Hlt & Hsr & Htr) & Hwf & Hs & Ht).
  pose proof Hs as (Hsv & Hsjobs & _ & _).
  pose proof Ht as (Htv & Htjobs & _ & _).
  destruct (lookup_lt_is_Some_2 (s_route op) (s_rank op) ltac:(lia)) as [js Hjs].
  destruct (lookup_lt_is_Some_2 (s_route op) (s_rank op + 1) ltac:(lia)) as [jsa Hjsa].
  destruct (lookup_lt_is_Some_2 (t_route op) (t_rank op) ltac:(lia)) as [jt Hjt].
  destruct (lookup_lt_is_Some_2 (t_route op) (t_rank op + 1) ltac:(lia)) as [jta Hjta].
  pose proof (proj1 (Forall_lookup _ _) Hsjobs _ _ Hjs) as Ljs.
  pose proof (proj1 (Forall_lookup _ _) Hsjobs _ _ Hjsa) as Ljsa.
  pose proof (proj1 (Forall_lookup _ _) Htjobs _ _ Hjt) as Ljt.
  pose proof (proj1 (Forall_lookup _ _) Htjobs _ _ Hjta) as Ljta.
  simpl in Ljs, Ljsa, Ljt, Ljta.
  destruct (vehicle_ok_with_job_defined _ _ _ Htv Ljs) as (v_target & s_current & Hvt & Hsc & Hok1).
  destruct (vehicle_ok_with_job_defined _ _ _ Htv Ljsa) as (? & s_after & Hvt' & Hsa & Hok2).
  destruct (vehicle_ok_with_job_defined _ _ _ Hsv Ljt) as (v_source & t_current & Hvs & Htc & Hok3).
  destruct (vehicle_ok_with_job_defined _ _ _ Hsv Ljta) as (? & t_after & Hvs' & Hta & Hok4).
  simplify_eq.
  destruct (fwd_back_defined _ _ _ _ Hs Hls) as [s_back Hsb].
  destruct (fwd_back_defined _ _ _ _ Ht Hlt) as [t_back Htb].
  exists js, jsa, jt, jta, s_current, s_after, t_current, t_after,
         v_source, v_target, s_back, t_back.
  repeat (split; [assumption|]).
  unfold is_valid. rewrite Hjs, Hjt, Hjsa, Hjta. simpl.
  rewrite Hok1, Hok2, Hok3, Hok4. simpl.
  rewrite Hsc, Hsa, Htc, Hta. simpl.
  rewrite Hsb, Hvs. simpl. rewrite Htb, Hvt. simpl.
  reflexivity.
Qed.

(** C4. On a well-formed operator [is_valid] returns a value, and that
    value is [true] exactly when the four exchanged jobs are compatible
    with the vehicle they move to and, for each of the two vehicles,
    [fwd_amounts.back()] minus the amounts of the two leaving jobs plus the
    amounts of the two joining jobs is componentwise at most the capacity
    of the vehicle. *)
Theorem C4_is_valid_iff (op : CrossExchange) :
  wf_operator op →
  ∃ js jsa jt jta s_current s_after t_current t_after v_source v_target
      s_back t_back b,
    s_route op !! s_rank op = Some js ∧
    s_route op !! (s_rank op + 1)%nat = Some jsa ∧
    t_route op !! t_rank op = Some jt ∧
    t_route op !! (t_rank op + 1)%nat = Some jta ∧
    input_jobs (_input op) !! js = Some s_current ∧
    input_jobs (_input op) !! jsa = Some s_after ∧
    input_jobs (_input op) !! jt = Some t_current ∧
    input_jobs (_input op) !! jta = Some t_after ∧
    input_vehicles (_input op) !! s_vehicle op = Some v_source ∧
    input_vehicles (_input op) !! t_vehicle op = Some v_target ∧
    fwd_amounts (_sol_state op) !! s_vehicle op ≫= last = Some s_back ∧
    fwd_amounts (_sol_state op) !! t_vehicle op ≫= last = Some t_back ∧
    is_valid op = Some b ∧
    (b = true ↔
       vehicle_ok_with_job (_input op) (t_vehicle op) js = Some true ∧
       vehicle_ok_with_job (_input op) (t_vehicle op) jsa = Some true ∧
       vehicle_ok_with_job (_input op) (s_vehicle op) jt = Some true ∧
       vehicle_ok_with_job (_input op) (s_vehicle op) jta = Some true ∧
       Forall2 Z.le
         (load_after_exchange s_back (job_amount s_current) (job_amount s_after)
                              (job_amount t_current) (job_amount t_after))
         (vehicle_capacity v_source) ∧
       Forall2 Z.le
         (load_after_exchange t_back (job_amount t_current) (job_amount t_after)
                              (job_amount s_current) (job_amount s_after))
         (vehicle_capacity v_target)).
Proof.
  intros Hop.
  destruct (is_valid_value op Hop)
    as (js & jsa & jt & jta & s_current & s_after & t_current & t_after
        & v_source & v_target & s_back & t_back
        & Hjs & Hjsa & Hjt & Hjta & Hsc & Hsa & Htc & Hta & Hvs & Hvt & Hsb & Htb
        & Hval).
  eexists js, jsa, jt, jta, s_current, s_after, t_current, t_after,
          v_source, v_target, s_back, t_back, _.
  repeat (split; [eassumption|]).
  unfold vehicle_ok_with_job. rewrite Hvs, Hvt, Hsc, Hsa, Htc, Hta. simpl.
  unfold amount_le.
  rewrite !andb_true_iff, !bool_decide_eq_true.
  split.
  - intros (((((H1 & H2) & H3) & H4) & H5) & H6).
    repeat split; try done; f_equal; by apply bool_decide_eq_true.
  - intros (H1 & H2 & H3 & H4 & H5 & H6).
    injection H1 as H1. injection H2 as H2. injection H3 as H3. injection H4 as H4.
    apply bool_decide_eq_true in H1, H2, H3, H4. done.
Qed.

Lemma C4_is_valid_iff_witness :
  ∃ js jsa jt jta s_current s_after t_current t_after v_source v_target
      s_back t_back b,
    [0; 1]%nat !! 0%nat = Some js ∧
    [0; 1]%nat !! (0 + 1)%nat = Some jsa ∧
    [2; 3]%nat !! 0%nat = Some jt ∧
    [2; 3]%nat !! (0 + 1)%nat = Some jta ∧
    input_jobs Example.input !! js = Some s_current ∧
    input_jobs Example.input !! jsa = Some s_after ∧
    input_jobs Example.input !! jt = Some t_current ∧
    input_jobs Example.input !! jta = Some t_after ∧
    Example.vehicles !! 0%nat = Some v_source ∧
    Example.vehicles !! 1%nat = Some v_target ∧
    fwd_amounts Example.sol_state !! 0%nat ≫= last = Some s_back ∧
    fwd_amounts Example.sol_state !! 1%nat ≫= last = Some t_back ∧
    is_valid Example.op = Some b ∧
    (b = true ↔
       vehicle_ok_with_job Example.input 1 js = Some true ∧
       vehicle_ok_with_job Example.input 1 jsa = Some true ∧
       vehicle_ok_with_job Example.input 0 jt = Some true ∧
       vehicle_ok_with_job Example.input 0 jta = Some true ∧
       Forall2 Z.le
         (load_after_exchange s_back (job_amount s_current) (job_amount s_after)
                              (job_amount t_current) (job_amount t_after))
         (vehicle_capacity v_source) ∧
       Forall2 Z.le
         (load_after_exchange t_back (job_amount t_current) (job_amount t_after)
                              (job_amount s_current) (job_amount s_after))
         (vehicle_capacity v_target)).
Proof.
  apply (C4_is_valid_iff Example.op).
  exact Example_wf_operator.
Defined.

(** ** Bounds of every access *)

(** C10. The constructor builds an operator exactly when its five
    assertions hold ([s_vehicle ≠ t_vehicle], both routes of at least two
    jobs, [s_rank < s_route.size() - 1], [t_rank < t_route.size() - 1]).
    Then the route positions read are in bounds: ranks [rank] and
    [rank + 1] always, [rank - 1] in the branch [rank ≠ 0] and [rank + 2]
    in the branch [rank ≠ size - 2]; and, on a well-formed instance and
    solution state, every vector and matrix access of [compute_gain],
    [is_valid] and [apply] is in bounds (each of them yields a result),
    [is_valid] and [apply] also after [compute_gain]. *)
Theorem C10_accesses_in_bounds input sol s sv sr t tv tr :
  (is_Some (CrossExchange_new input sol s sv sr t tv tr)
   ↔ CrossExchange_asserts s sv sr t tv tr) ∧
  ∀ op, CrossExchange_new input sol s sv sr t tv tr = Some op →
    (is_Some (s !! sr) ∧ is_Some (s !! (sr + 1)%nat) ∧
     (sr ≠ 0%nat → is_Some (s !! (sr - 1)%nat)) ∧
     (sr ≠ (length s - 2)%nat → is_Some (s !! (sr + 2)%nat))) ∧
    (is_Some (t !! tr) ∧ is_Some (t !! (tr + 1)%nat) ∧
     (tr ≠ 0%nat → is_Some (t !! (tr - 1)%nat)) ∧
     (tr ≠ (length t - 2)%nat → is_Some (t !! (tr + 2)%nat))) ∧
    is_Some (apply op) ∧
    (wf_input input → wf_route input sol sv s → wf_route input sol tv t →
     is_Some (is_valid op) ∧
     ∃ op1, compute_gain op = Some op1
            ∧ is_Some (is_valid op1) ∧ is_Some (apply op1)).
Proof.
  split.
  { unfold CrossExchange_new. case_decide; split; intros H';
      (done || eauto || by destruct H'). }
  intros op Hnew.
  apply CrossExchange_new_inv in Hnew
    as (Hassert & Hin & Hsol & Hsr & Hsv & Hsk & Htr & Htv & Htk & Hrs & Hrt).
  pose proof Hassert as (Hne & Hls & Hlt & Hsr' & Htr').
  split; [repeat split; intros; apply lookup_lt_is_Some_2; lia|].
  split; [repeat split; intros; apply lookup_lt_is_Some_2; lia|].
  split; [apply apply_defined; rewrite ?Hsr, ?Hsk, ?Htr, ?Htk; lia|].
  intros Hwf Hs Ht.
  assert (wf_operator op) as Hop
    by (unfold wf_operator; rewrite Hin, Hsol, Hsr, Hsv, Hsk, Htr, Htv, Htk; done).
  split.
  { destruct (is_valid_value op Hop) as (?&?&?&?&?&?&?&?&?&?&?&?&H'). 
    destruct H' as (_&_&_&_&_&_&_&_&_&_&_&_&->). eauto. }
  destruct (compute_gain_defined op Hop) as [op1 Hop1].
  exists op1. split; [exact Hop1|].
  destruct (compute_gain_frame _ _ Hop1) as (E1 & E2 & E3 & E4 & E5 & E6 & E7 & E8 & _).
  assert (wf_operator op1) as Hop1'
    by (unfold wf_operator; rewrite E1, E2, E3, E4, E5, E6, E7, E8; exact Hop).
  split.
  - destruct (is_valid_value op1 Hop1') as (?&?&?&?&?&?&?&?&?&?&?&?&H').
    destruct H' as (_&_&_&_&_&_&_&_&_&_&_&_&->). eauto.
  - apply apply_defined; rewrite ?E3, ?E4, ?E6, ?E8, ?Hsr, ?Hsk, ?Htr, ?Htk; lia.
Qed.

Lemma C10_accesses_in_bounds_witness :
  (is_Some (CrossExchange_new Example.input Example.sol_state
              [0; 1]%nat 0%nat 0%nat [2; 3]%nat 1%nat 0%nat)
   ↔ CrossExchange_asserts [0; 1]%nat 0%nat 0%nat [2; 3]%nat 1%nat 0%nat) ∧
  is_Some (apply Example.op) ∧
  is_Some (is_valid Example.op) ∧
  ∃ op1, compute_gain Example.op = Some op1
         ∧ is_Some (is_valid op1) ∧ is_Some (apply op1).
Proof.
  destruct (C10_accesses_in_bounds Example.input Example.sol_state
              [0; 1]%nat 0%nat 0%nat [2; 3]%nat 1%nat 0%nat) as [Hnew Hacc].
  split; [exact Hnew|].
  destruct (Hacc Example.op eq_refl) as (_ & _ & Happly & Hrest).
  split; [exact Happly|].
  exact (Hrest Example_wf_input Example_wf_route_s Example_wf_route_t).
Defined.

(** ** Orientation of the exchanged edges under a symmetric matrix *)

Lemma Example_matrix_symmetric : symmetric Example.matrix.
Proof.
  intros i j.
  do 5 (destruct i as [|i]; [do 5 (destruct j as [|j]; [reflexivity|]);
                             reflexivity|]).
  do 5 (destruct j as [|j]; [reflexivity|]). reflexivity.
Qed.

(** C5, as stated, fails: the matrix of the worked instance is symmetric,
    yet on the source side the reversed orientation gains 1 where the
    normal one gains -8 (the depot is at cost 1 from the second job of
    the target edge and at cost 10 from the first), and [compute_gain]
    raises [reverse_t_edge]. *)
Lemma C5_symmetric_matrix_counterexample :
  ¬ (∀ input sol s sv sr t tv tr op op1,
       CrossExchange_new input sol s sv sr t tv tr = Some op →
       wf_input input → wf_route input sol sv s → wf_route input sol tv t →
       symmetric (input_matrix input) →
       compute_gain op = Some op1 →
       normal_s_gain op1 = reversed_s_gain op1 ∧
       normal_t_gain op1 = reversed_t_gain op1 ∧
       reverse_s_edge op1 = false ∧ reverse_t_edge op1 = false).
Proof.
  intros H.
  destruct (H Example.input Example.sol_state [0; 1]%nat 0%nat 0%nat
              [2; 3]%nat 1%nat 0%nat Example.op _ eq_refl
              Example_wf_input Example_wf_route_s Example_wf_route_t
              Example_matrix_symmetric eq_refl) as (Hs & _).
  vm_compute in Hs. discriminate Hs.
Qed.

(** C5, amended.  With 32-bit costs and the two cache entries within
    [2 ^ 61] of 0 (so that no operation on the signed 64-bit [Gain]
    overflows: every gain computed is within [2 ^ 61 + 3 * 2 ^ 32] of 0),
    under a symmetric matrix [reverse_edge_cost] is 0 on each side, so the
    reversed-orientation gain of a side differs from its
    normal-orientation gain only by the costs of the links to the places
    before and after the edge: reversed - normal
    = (M[prev][t] + M[t_after][next]) - (M[prev][t_after] + M[t][next]).
    The two gains are equal when the side has no place before and none
    after, and whenever they are equal no reversal is chosen on that side:
    the tie goes to the normal orientation. *)
Theorem C5_symmetric_matrix_orientation
    input sol s sv sr t tv tr (op : CrossExchange) :
  CrossExchange_new input sol s sv sr t tv tr = Some op →
  wf_input input → wf_route input sol sv s → wf_route input sol tv t →
  costs_below (2 ^ 32) (input_matrix input) →
  cache_within (2 ^ 61) sol sv sr → cache_within (2 ^ 61) sol tv tr →
  symmetric (input_matrix input) →
  ∃ op1 v_source v_target s_index s_after_index t_index t_after_index,
    compute_gain op = Some op1 ∧
    input_vehicles input !! sv = Some v_source ∧
    input_vehicles input !! tv = Some v_target ∧
    job_index_at input s sr = Some s_index ∧
    job_index_at input s (sr + 1) = Some s_after_index ∧
    job_index_at input t tr = Some t_index ∧
    job_index_at input t (tr + 1) = Some t_after_index ∧
    Z.abs (normal_s_gain op1) ≤ 2 ^ 61 + 3 * 2 ^ 32 ∧
    Z.abs (reversed_s_gain op1) ≤ 2 ^ 61 + 3 * 2 ^ 32 ∧
    Z.abs (normal_t_gain op1) ≤ 2 ^ 61 + 3 * 2 ^ 32 ∧
    Z.abs (reversed_t_gain op1) ≤ 2 ^ 61 + 3 * 2 ^ 32 ∧
    let m := input_matrix input in
    let prev_s := prev_index input v_source s sr in
    let next_s := next_index input v_source s (sr + 1) in
    let prev_t := prev_index input v_target t tr in
    let next_t := next_index input v_target t (tr + 1) in
    reversed_s_gain op1 - normal_s_gain op1
      = (link m prev_s (Some t_index) + link m (Some t_after_index) next_s)
        - (link m prev_s (Some t_after_index) + link m (Some t_index) next_s) ∧
    reversed_t_gain op1 - normal_t_gain op1
      = (link m prev_t (Some s_index) + link m (Some s_after_index) next_t)
        - (link m prev_t (Some s_after_index) + link m (Some s_index) next_t) ∧
    (prev_s = None → next_s = None → normal_s_gain op1 = reversed_s_gain op1) ∧
    (prev_t = None → next_t = None → normal_t_gain op1 = reversed_t_gain op1) ∧
    (normal_s_gain op1 = reversed_s_gain op1 → reverse_t_edge op1 = false) ∧
    (normal_t_gain op1 = reversed_t_gain op1 → reverse_s_edge op1 = false) ∧
    reverse_t_edge op1 = bool_decide (reversed_s_gain op1 > normal_s_gain op1) ∧
    reverse_s_edge op1 = bool_decide (reversed_t_gain op1 > normal_t_gain op1).
Proof.
  intros Hnew Hwf Hs Ht Hm Hcs Hct Hsym.
  destruct (compute_gain_within _ _ _ _ _ _ _ _ _ Hnew Hwf Hs Ht Hm Hcs Hct)
    as (op1' & Hop1' & R1 & R2 & R3 & R4 & _).
  destruct (compute_gain_new _ _ _ _ _ _ _ _ _ Hnew Hwf Hs Ht)
    as (op1 & v_source & v_target & si & sai & ti & tai & around_s & around_t
        & Hop1 & Hvs & Hvt & Hsi & Hsai & Hti & Htai & _ & _
        & Ens & Ers & Ent & Ert & Eft & Efs & _).
  rewrite Hop1 in Hop1'. injection Hop1' as <-.
  exists op1, v_source, v_target, si, sai, ti, tai.
  do 7 (split; [assumption|]).
  do 4 (split; [assumption|]). clear R1 R2 R3 R4.
  cbv zeta in *.
  rewrite Eft, Efs, Ens, Ers, Ent, Ert.
  rewrite (Hsym tai ti), (Hsym sai si).
  repeat split; try lia.
  - intros -> ->. simpl. lia.
  - intros -> ->. simpl. lia.
  - intros E. apply bool_decide_eq_false. lia.
  - intros E. apply bool_decide_eq_false. lia.
Qed.

(** * Properties of the parser *)

(** ** Reasoning about outcomes *)

Lemma bind_Ok {A B : Type} (f : A → result B) (r : result A) (b : B) :
  r ≫= f = Ok b → ∃ a, r = Ok a ∧ f a = Ok b.
Proof. destruct r; simpl; [eauto|discriminate..]. Qed.

(** Invert a hypothesis [H : e = Ok x] along the structure of [e]. *)
Ltac invert_Ok H :=
  repeat
    match type of H with
    | Ok _ = Ok _ => injection H as H; try subst
    | Throw _ _ = Ok _ => discriminate H
    | Undefined = Ok _ => discriminate H
    | mbind _ _ = Ok _ =>
        let x := fresh "x" in let Hx := fresh "H" x in
        apply bind_Ok in H as (x & Hx & H)
    | (if ?c then _ else _) = Ok _ =>
        let E := fresh "E" in destruct c eqn:E
    | (let '(_, _) := ?p in _) = Ok _ => destruct p
    | match ?v with _ => _ end = Ok _ => is_var v; destruct v
    end.

Lemma for_each_invariant {A St : Type} (P : St → Prop)
    (body : nat → A → St → result St) (l : list A) :
  ∀ (i : nat) (s s' : St),
    (∀ (k : nat) (x : A) (s1 s2 : St),
        l !! k = Some x → P s1 → body (i + k)%nat x s1 = Ok s2 → P s2) →
    P s → for_each body i l s = Ok s' → P s'.
Proof.
  induction l as [|x l IH]; intros i s s' Hstep Hs H; simpl in H.
  - by injection H as <-.
  - apply bind_Ok in H as (s1 & H1 & H).
    apply (IH (S i) s1 s'); [|by apply (Hstep 0%nat x s); rewrite ?Nat.add_0_r|done].
    intros k y s2 s3 Hk. replace (S i + k)%nat with (i + S k)%nat by lia.
    by apply Hstep.
Qed.

(** Every element of a completed loop had its body complete. *)
Lemma for_each_elements {A St : Type} (body : nat → A → St → result St)
    (l : list A) :
  ∀ (i : nat) (s s' : St),
    for_each body i l s = Ok s' →
    ∀ (k : nat) (x : A), l !! k = Some x →
      ∃ s1 s2, body (i + k)%nat x s1 = Ok s2.
Proof.
  induction l as [|x l IH]; intros i s s' H k y Hk; [done|].
  simpl in H. apply bind_Ok in H as (s1 & H1 & H).
  destruct k as [|k]; simpl in Hk.
  - injection Hk as <-. rewrite Nat.add_0_r. eauto.
  - replace (i + S k)%nat with (S i + k)%nat by lia. by eapply IH.
Qed.

Lemma map_each_elements {A B : Type} (body : nat → A → result B) (l : list A) :
  ∀ (i : nat) (l' : list B),
    map_each body i l = Ok l' →
    length l' = length l ∧
    ∀ (k : nat) (x : A), l !! k = Some x →
      ∃ y, l' !! k = Some y ∧ body (i + k)%nat x = Ok y.
Proof.
  induction l as [|x l IH]; intros i l' H; simpl in H.
  - injection H as <-. done.
  - apply bind_Ok in H as (y & Hy & H). apply bind_Ok in H as (ys & Hys & H).
    injection H as <-. destruct (IH _ _ Hys) as [Hlen Hel].
    split; [simpl; by rewrite Hlen|].
    intros [|k] z Hk; simpl in Hk.
    + injection Hk as <-. rewrite Nat.add_0_r. eauto.
    + replace (i + S k)%nat with (S i + k)%nat by lia. by apply Hel.
Qed.

Section parser_facts.
Variable Index_bits : Z.
Variable DEFAULT_PROFILE : string.
Variable default_tw : TimeWindow.
Variable tw_lt : TimeWindow → TimeWindow → bool.
Variable Document_Parse : string → ParseResult.
Variable libosrm_available : string → bool.

Local Abbreviation get_job_time_windows := (get_job_time_windows default_tw tw_lt).
Local Abbreviation Job_new := (Job_new tw_lt).
Local Abbreviation parse :=
  (parse Index_bits DEFAULT_PROFILE default_tw tw_lt Document_Parse libosrm_available).

(** ** Time windows of the jobs *)

Hypothesis tw_lt_asym : ∀ a b, tw_lt a b = true → tw_lt b a = false.

Local Instance tw_le_total : Total (tw_le tw_lt).
Proof.
  intros a b. unfold tw_le.
  destruct (tw_lt b a) eqn:E; [right; by apply tw_lt_asym|by left].
Qed.

Lemma std_sort_sorted (tws : list TimeWindow) :
  Sorted (tw_le tw_lt) (std_sort tw_lt tws) ∧ std_sort tw_lt tws ≡ₚ tws.
Proof.
  split; [apply (Sorted_merge_sort _)|apply merge_sort_Permutation].
Qed.

(** What [get_job_time_windows] returns. *)
Lemma get_job_time_windows_value (j : Value) (tws : list TimeWindow) :
  get_job_time_windows j = Ok tws →
  (HasMember j "time_windows" = Ok false ∧ tws = [default_tw]) ∨
  (∃ elements parsed,
      HasMember j "time_windows" = Ok true ∧
      member j "time_windows" = Ok (Array elements) ∧
      map_each (λ _ tw, get_time_window tw) 0 elements = Ok parsed ∧
      tws = std_sort tw_lt parsed).
Proof.
  unfold io.get_job_time_windows. intros H.
  apply bind_Ok in H as ([] & Hhas & H).
  - right. apply bind_Ok in H as (v & Hv & H).
    destruct v; invert_Ok H. eauto 10.
  - left. by injection H as <-.
Qed.

Local Abbreviation jobs_from := (jobs_from default_tw tw_lt).

Lemma Job_new_inv id location service amount skills tws job :
  Job_new id location service amount skills tws = Ok job →
  tws ≠ [] ∧ job_tws job = tws.
Proof.
  unfold io.Job_new. intros H.
  case_bool_decide; [discriminate|].
  case_bool_decide; [|discriminate].
  by injection H as <-.
Qed.

Lemma add_job_with_index_jobs matrix_size i json_job input input' json_jobs :
  json_job ∈ json_jobs → jobs_from json_jobs input →
  add_job_with_index Index_bits default_tw tw_lt matrix_size i json_job input
    = Ok input' →
  jobs_from json_jobs input'.
Proof.
  intros Hin Hjobs H. unfold add_job_with_index in H.
  invert_Ok H.
  match goal with
  | Hj : io.Job_new _ _ _ _ _ _ _ = Ok _ |- _ => apply Job_new_inv in Hj as [Hne Htws]
  end.
  unfold io.jobs_from, add_job. simpl. apply Forall_app. split; [exact Hjobs|].
  apply Forall_singleton. rewrite Htws. split; [exact Hne|].
  exists json_job. split; [exact Hin|assumption].
Qed.

Lemma add_job_with_coords_jobs i json_job input input' json_jobs :
  json_job ∈ json_jobs → jobs_from json_jobs input →
  add_job_with_coords default_tw tw_lt i json_job input = Ok input' →
  jobs_from json_jobs input'.
Proof.
  intros Hin Hjobs H. unfold add_job_with_coords in H.
  invert_Ok H.
  match goal with
  | Hj : io.Job_new _ _ _ _ _ _ _ = Ok _ |- _ => apply Job_new_inv in Hj as [Hne Htws]
  end.
  unfold io.jobs_from, add_job. simpl. apply Forall_app. split; [exact Hjobs|].
  apply Forall_singleton. rewrite Htws. split; [exact Hne|].
  exists json_job. split; [exact Hin|assumption].
Qed.

Lemma add_vehicle_with_index_jobs matrix_size i json_vehicle st st' :
  add_vehicle_with_index Index_bits DEFAULT_PROFILE default_tw matrix_size
    i json_vehicle st = Ok st' →
  input_jobs st'.1 = input_jobs st.1.
Proof.
  intros H. unfold add_vehicle_with_index in H. destruct st as [input profile].
  invert_Ok H. reflexivity.
Qed.

Lemma add_vehicle_with_coords_jobs i json_vehicle st st' :
  add_vehicle_with_coords DEFAULT_PROFILE default_tw i json_vehicle st = Ok st' →
  input_jobs st'.1 = input_jobs st.1.
Proof.
  intros H. unfold add_vehicle_with_coords in H. destruct st as [input profile].
  invert_Ok H. reflexivity.
Qed.

Lemma parse_inv cl_args input :
  parse cl_args = Ok input →
  ∃ json_input json_jobs,
    Document_Parse (cl_input cl_args) = Parsed json_input ∧
    nonempty_array json_input "jobs" "Invalid jobs." = Ok json_jobs ∧
    jobs_from json_jobs input.
Proof.
  unfold io.parse. intros H.
  destruct (Document_Parse (cl_input cl_args)) as [|json_input]; [discriminate|].
  apply bind_Ok in H as (json_jobs & Hjobs & H).
  exists json_input, json_jobs. do 2 (split; [done|]).
  apply bind_Ok in H as (json_vehicles & Hvehicles & H).
  apply bind_Ok in H as (has_matrix & Hhas & H).
  apply bind_Ok in H as ([input1 profile] & Hloops & H).
  apply bind_Ok in H as (wrapper & _ & H). injection H as <-.
  assert (jobs_from json_jobs input1) as Hgoal; [|exact Hgoal].
  assert (∀ st : Input * string, input_jobs st.1 = [] → jobs_from json_jobs st.1)
    as Hinit by (intros st E; unfold io.jobs_from; rewrite E; apply Forall_nil_2).
  destruct has_matrix.
  - apply bind_Ok in Hloops as (matrix & Hmatrix & Hloops).
    destruct matrix; try discriminate.
    apply bind_Ok in Hloops as (matrix_input & _ & Hloops).
    apply bind_Ok in Hloops as (st & Hv & Hloops).
    apply bind_Ok in Hloops as (input2 & Hj & Hloops).
    injection Hloops as -> _.
    eapply (for_each_invariant (jobs_from json_jobs)); [| |exact Hj].
    + intros k x s1 s2 Hk Hs1 Hbody.
      eapply add_job_with_index_jobs; [|exact Hs1|exact Hbody].
      by eapply list_elem_of_lookup_2.
    + apply Hinit.
      eapply (for_each_invariant (λ st : Input * string, input_jobs st.1 = []));
        [| |exact Hv]; [|done].
      intros k x s1 s2 _ Hs1 Hbody.
      by rewrite (add_vehicle_with_index_jobs _ _ _ _ _ Hbody).
  - apply bind_Ok in Hloops as (st & Hv & Hloops).
    apply bind_Ok in Hloops as (input2 & Hj & Hloops).
    injection Hloops as -> _.
    eapply (for_each_invariant (jobs_from json_jobs)); [| |exact Hj].
    + intros k x s1 s2 Hk Hs1 Hbody.
      eapply add_job_with_coords_jobs; [|exact Hs1|exact Hbody].
      by eapply list_elem_of_lookup_2.
    + apply Hinit.
      eapply (for_each_invariant (λ st : Input * string, input_jobs st.1 = []));
        [| |exact Hv]; [|done].
      intros k x s1 s2 _ Hs1 Hbody.
      by rewrite (add_vehicle_with_coords_jobs _ _ _ _ Hbody).
Qed.

(** C8. Every job of an instance returned by [parse] has a non-empty list
    of time windows that is ascending for [operator<], read from one of
    the JSON jobs: the single default window when that job has no
    [time_windows] member, else the sorted rearrangement of the windows
    parsed from the array. *)
Theorem C8_accepted_jobs_time_windows cl_args input :
  parse cl_args = Ok input →
  ∃ json_input json_jobs,
    Document_Parse (cl_input cl_args) = Parsed json_input ∧
    nonempty_array json_input "jobs" "Invalid jobs." = Ok json_jobs ∧
    Forall
      (λ job,
         job_tws job ≠ [] ∧ Sorted (tw_le tw_lt) (job_tws job) ∧
         ∃ json_job, json_job ∈ json_jobs ∧
           ((HasMember json_job "time_windows" = Ok false ∧
             job_tws job = [default_tw]) ∨
            (∃ elements parsed,
                HasMember json_job "time_windows" = Ok true ∧
                member json_job "time_windows" = Ok (Array elements) ∧
                map_each (λ _ tw, get_time_window tw) 0 elements = Ok parsed ∧
                job_tws job = std_sort tw_lt parsed ∧
                job_tws job ≡ₚ parsed)))
      (input_jobs input).
Proof.
  intros H. destruct (parse_inv _ _ H) as (json_input & json_jobs & Hdoc & Hjobs & Hfrom).
  exists json_input, json_jobs. do 2 (split; [done|]).
  eapply Forall_impl; [exact Hfrom|].
  intros job (Hne & json_job & Hin & Htws). simpl.
  split; [exact Hne|].
  destruct (get_job_time_windows_value _ _ Htws)
    as [[Hhas ->]|(elements & parsed & Hhas & Hmem & Hmap & ->)].
  - split; [repeat constructor|]. exists json_job. split; [done|]. by left.
  - destruct (std_sort_sorted parsed) as [Hsorted Hperm].
    split; [exact Hsorted|]. exists json_job. split; [done|].
    right. exists elements, parsed. done.
Qed.
End parser_facts.

(** ** Which errors the parser throws *)

Lemma no_routing_Ok {A : Type} (a : A) : no_routing (Ok a).
Proof. intros msg. discriminate. Qed.
Lemma no_routing_Undefined {A : Type} : no_routing (@Undefined A).
Proof. intros msg. discriminate. Qed.
Lemma no_routing_INPUT {A : Type} (m : string) : no_routing (@Throw A INPUT m).
Proof. intros msg. discriminate. Qed.
Lemma no_routing_bind {A B : Type} (r : result A) (f : A → result B) :
  no_routing r → (∀ a, r = Ok a → no_routing (f a)) → no_routing (r ≫= f).
Proof.
  intros Hr Hf msg. destruct r as [a|e m|]; simpl.
  - by apply Hf.
  - intros [= -> ->]. by apply (Hr msg).
  - discriminate.
Qed.

Lemma no_routing_map_each {A B : Type} (body : nat → A → result B) (l : list A) :
  (∀ i x, no_routing (body i x)) → ∀ i, no_routing (map_each body i l).
Proof.
  intros Hbody. induction l as [|x l IH]; intros i; simpl.
  - apply no_routing_Ok.
  - apply no_routing_bind; [apply Hbody|]. intros y _.
    apply no_routing_bind; [apply IH|]. intros ys _. apply no_routing_Ok.
Qed.

Lemma no_routing_for_each {A St : Type} (body : nat → A → St → result St)
    (l : list A) :
  (∀ i x s, no_routing (body i x s)) → ∀ i s, no_routing (for_each body i l s).
Proof.
  intros Hbody. induction l as [|x l IH]; intros i s; simpl.
  - apply no_routing_Ok.
  - apply no_routing_bind; [apply Hbody|]. intros s' _. apply IH.
Qed.

Create HintDb routing.
#[local] Hint Resolve no_routing_Ok no_routing_Undefined no_routing_INPUT : routing.

(** Walk through a definition built from binds, conditionals and case
    distinctions whose leaves are not routing errors. *)
Ltac no_routing_step :=
  match goal with
  | |- no_routing (Ok _) => apply no_routing_Ok
  | |- no_routing Undefined => apply no_routing_Undefined
  | |- no_routing (Throw INPUT _) => apply no_routing_INPUT
  | |- no_routing (mbind _ _) => apply no_routing_bind; [|intros ? _]
  | |- no_routing (map_each _ _ _) => apply no_routing_map_each; intros ? ?
  | |- no_routing (for_each _ _ _ _) => apply no_routing_for_each; intros ? ? ?
  | |- no_routing (if ?c then _ else _) => destruct c
  | |- no_routing (let '(_, _) := ?p in _) => destruct p
  | |- no_routing (match ?v with _ => _ end) => destruct v
  | H : _ |- _ => solve [apply H]
  end.
Ltac no_routing := repeat no_routing_step; eauto with routing.

Lemma no_routing_HasMember v key : no_routing (HasMember v key).
Proof. unfold HasMember. no_routing. Qed.
Lemma no_routing_member v key : no_routing (member v key).
Proof. unfold member. no_routing. Qed.
Lemma no_routing_GetUint v : no_routing (GetUint v).
Proof. unfold GetUint. no_routing. Qed.
Lemma no_routing_GetUint64 v : no_routing (GetUint64 v).
Proof. unfold GetUint64. no_routing. Qed.
Lemma no_routing_GetInt64 v : no_routing (GetInt64 v).
Proof. unfold GetInt64. no_routing. Qed.
Lemma no_routing_GetString v : no_routing (GetString v).
Proof. unfold GetString. no_routing. Qed.
#[local] Hint Resolve no_routing_HasMember no_routing_member no_routing_GetUint
  no_routing_GetUint64 no_routing_GetInt64 no_routing_GetString : routing.

Lemma no_routing_parse_coordinates v key : no_routing (parse_coordinates v key).
Proof. unfold parse_coordinates. no_routing. Qed.
Lemma no_routing_get_string v key : no_routing (get_string v key).
Proof. unfold get_string. no_routing. Qed.
Lemma no_routing_get_amount v key : no_routing (get_amount v key).
Proof. unfold get_amount. no_routing. Qed.
Lemma no_routing_get_skills v : no_routing (get_skills v).
Proof. unfold get_skills. no_routing. Qed.
Lemma no_routing_get_service v : no_routing (get_service v).
Proof. unfold get_service. no_routing. Qed.
Lemma no_routing_valid_vehicle v : no_routing (valid_vehicle v).
Proof. unfold valid_vehicle. no_routing. Qed.
Lemma no_routing_get_time_window v : no_routing (get_time_window v).
Proof. unfold get_time_window. no_routing. Qed.
#[local] Hint Resolve no_routing_parse_coordinates no_routing_get_string
  no_routing_get_amount no_routing_get_skills no_routing_get_service
  no_routing_valid_vehicle no_routing_get_time_window : routing.

Section parser_errors.
Variable Index_bits : Z.
Variable DEFAULT_PROFILE : string.
Variable default_tw : TimeWindow.
Variable tw_lt : TimeWindow → TimeWindow → bool.
Variable Document_Parse : string → ParseResult.
Variable libosrm_available : string → bool.

Lemma no_routing_get_vehicle_time_window v :
  no_routing (get_vehicle_time_window default_tw v).
Proof. unfold get_vehicle_time_window. no_routing. Qed.
Lemma no_routing_get_job_time_windows v :
  no_routing (get_job_time_windows default_tw tw_lt v).
Proof. unfold get_job_time_windows. no_routing. Qed.
Lemma no_routing_Job_new id l s a sk tws :
  no_routing (Job_new tw_lt id l s a sk tws).
Proof. unfold Job_new. no_routing. Qed.
Lemma no_routing_check_profile v p :
  no_routing (check_profile DEFAULT_PROFILE v p).
Proof. unfold check_profile. no_routing. Qed.
Lemma no_routing_vehicle_index v key id n s1 s2 :
  no_routing (vehicle_index Index_bits v key id n s1 s2).
Proof. unfold vehicle_index. no_routing. Qed.
Lemma no_routing_vehicle_place v key i : no_routing (vehicle_place v key i).
Proof. unfold vehicle_place. no_routing. Qed.
#[local] Hint Resolve no_routing_get_vehicle_time_window no_routing_get_job_time_windows
  no_routing_Job_new no_routing_check_profile no_routing_vehicle_index
  no_routing_vehicle_place : routing.

Lemma no_routing_add_vehicle_with_index n i v st :
  no_routing (add_vehicle_with_index Index_bits DEFAULT_PROFILE default_tw n i v st).
Proof. unfold add_vehicle_with_index. no_routing. Qed.
Lemma no_routing_add_job_with_index n i v input :
  no_routing (add_job_with_index Index_bits default_tw tw_lt n i v input).
Proof. unfold add_job_with_index. no_routing. Qed.
Lemma no_routing_matrix_line n i v : no_routing (matrix_line n i v).
Proof. unfold matrix_line. no_routing. Qed.
Lemma no_routing_nonempty_array v key m : no_routing (nonempty_array v key m).
Proof. unfold nonempty_array. no_routing. Qed.

(** ** The checks of an input with an explicit matrix *)

Lemma passed_bind {A B : Type} (r : result A) (f : A → result B) :
  no_routing r → passed (r ≫= f) → ∃ a, r = Ok a ∧ passed (f a).
Proof.
  intros Hr H. destruct r as [a|[] m|]; simpl in H; try done.
  - eauto.
  - by destruct (Hr m).
Qed.

Lemma member_HasMember (v x : Value) (key : string) :
  member v key = Ok x → HasMember v key = Ok true.
Proof.
  unfold member, HasMember. destruct v; try discriminate.
  destruct (find_member members key) eqn:E; [|discriminate].
  intros _. by rewrite bool_decide_true by eauto.
Qed.

Lemma matrix_line_inv (n i : nat) (line : Value) (costs : list Z) :
  matrix_line n i line = Ok costs →
  ∃ mi, line = Array mi ∧ length mi = n ∧ Forall (λ e, IsUint e = true) mi.
Proof.
  unfold matrix_line. intros H. destruct line; try discriminate.
  case_bool_decide as Hlen; [discriminate|].
  exists elements. split; [done|].
  split; [destruct (decide (length elements = n)); [done|by destruct Hlen]|].
  apply Forall_lookup. intros j e He.
  destruct (map_each_elements _ _ _ _ H) as [_ Hel].
  destruct (Hel j e He) as (c & _ & Hc).
  destruct (IsUint e); [done|discriminate].
Qed.

Lemma vehicle_index_inv v key v_id n s1 s2 (x : Value) (oi : option nat) :
  vehicle_index Index_bits v key v_id n s1 s2 = Ok oi →
  member v key = Ok x →
  ∃ z, x = Num (NInt z) ∧ 0 ≤ z < 2 ^ 32 ∧ (to_Index Index_bits z < n)%nat.
Proof.
  unfold vehicle_index. intros H Hx.
  rewrite (member_HasMember _ _ _ Hx), Hx in H. simpl in H.
  destruct (IsUint x) eqn:Hu; [|discriminate]. simpl in H.
  unfold IsUint in Hu. destruct x as [| |[z|]| | |]; try discriminate.
  apply bool_decide_eq_true in Hu.
  unfold GetUint in H. rewrite bool_decide_true in H by done. simpl in H.
  case_bool_decide; [discriminate|].
  exists z. split; [done|]. split; [done|lia].
Qed.

Lemma add_vehicle_with_index_inv n i v st st' key (x : Value) :
  add_vehicle_with_index Index_bits DEFAULT_PROFILE default_tw n i v st = Ok st' →
  key = "start_index" ∨ key = "end_index" →
  member v key = Ok x →
  ∃ z, x = Num (NInt z) ∧ 0 ≤ z < 2 ^ 32 ∧ (to_Index Index_bits z < n)%nat.
Proof.
  unfold add_vehicle_with_index. destruct st as [input profile]. intros H Hkey Hx.
  apply bind_Ok in H as (valid & _ & H).
  destruct (negb valid); [discriminate|].
  apply bind_Ok in H as (id & _ & H).
  apply bind_Ok in H as (v_id & _ & H).
  apply bind_Ok in H as (start_index & Hs & H).
  apply bind_Ok in H as (end_index & He & H).
  destruct Hkey as [-> | ->];
    [exact (vehicle_index_inv _ _ _ _ _ _ _ _ Hs Hx)
    |exact (vehicle_index_inv _ _ _ _ _ _ _ _ He Hx)].
Qed.

Lemma add_job_with_index_inv n i v input input' (x : Value) :
  add_job_with_index Index_bits default_tw tw_lt n i v input = Ok input' →
  member v "location_index" = Ok x →
  ∃ z, x = Num (NInt z) ∧ 0 ≤ z < Z.of_nat n.
Proof.
  unfold add_job_with_index. intros H Hx.
  destruct (negb (IsObject v)); [discriminate|].
  apply bind_Ok in H as (has_id & _ & H).
  apply bind_Ok in H as (id_ok & _ & H).
  destruct (negb id_ok); [discriminate|].
  apply bind_Ok in H as (id & _ & H).
  apply bind_Ok in H as (j_id & _ & H).
  rewrite (member_HasMember _ _ _ Hx), Hx in H. simpl in H.
  destruct (IsUint x) eqn:Hu; [|discriminate]. simpl in H.
  unfold IsUint in Hu. destruct x as [| |[z|]| | |]; try discriminate.
  apply bool_decide_eq_true in Hu.
  unfold GetUint in H. rewrite bool_decide_true in H by done. simpl in H.
  case_bool_decide; [discriminate|].
  exists z. split; [done|lia].
Qed.

Local Abbreviation parse :=
  (parse Index_bits DEFAULT_PROFILE default_tw tw_lt Document_Parse libosrm_available).

(** A run of [parse] on a document with a matrix that gets past the
    input checks has completed the three loops. *)
Lemma parse_passed_inv cl_args json_input (lines : list Value) :
  Document_Parse (cl_input cl_args) = Parsed json_input →
  member json_input "matrix" = Ok (Array lines) →
  passed (parse cl_args) →
  ∃ json_jobs json_vehicles matrix_input st input,
    nonempty_array json_input "jobs" "Invalid jobs." = Ok json_jobs ∧
    nonempty_array json_input "vehicles" "Invalid vehicles." = Ok json_vehicles ∧
    map_each (matrix_line (length lines)) 0 lines = Ok matrix_input ∧
    for_each (add_vehicle_with_index Index_bits DEFAULT_PROFILE default_tw
                (length lines)) 0 json_vehicles
             (set_matrix (set_geometry Input_new (cl_geometry cl_args)) matrix_input,
              "") = Ok st ∧
    for_each (add_job_with_index Index_bits default_tw tw_lt (length lines))
             0 json_jobs st.1 = Ok input.
Proof.
  unfold io.parse. intros -> Hmatrix H.
  apply passed_bind in H as (json_jobs & Hjobs & H);
    [|apply no_routing_nonempty_array].
  apply passed_bind in H as (json_vehicles & Hvehicles & H);
    [|apply no_routing_nonempty_array].
  rewrite (member_HasMember _ _ _ Hmatrix) in H. simpl in H.
  rewrite Hmatrix in H. simpl in H.
  apply passed_bind in H as ([input1 profile] & Hloops & _).
  2:{ apply no_routing_bind; [apply no_routing_map_each, no_routing_matrix_line|].
      intros matrix_input _.
      apply no_routing_bind;
        [apply no_routing_for_each, no_routing_add_vehicle_with_index|].
      intros st _.
      apply no_routing_bind;
        [apply no_routing_for_each, no_routing_add_job_with_index|].
      intros. apply no_routing_Ok. }
  apply bind_Ok in Hloops as (matrix_input & Hm & Hloops).
  apply bind_Ok in Hloops as (st & Hv & Hloops).
  apply bind_Ok in Hloops as (input2 & Hj & Hloops).
  exists json_jobs, json_vehicles, matrix_input, st, input2. done.
Qed.

Lemma nonempty_array_inv json_input key invalid (l : list Value) :
  nonempty_array json_input key invalid = Ok l →
  member json_input key = Ok (Array l).
Proof.
  unfold nonempty_array. intros H.
  apply bind_Ok in H as ([] & _ & H); [|discriminate].
  apply bind_Ok in H as (v & Hv & H).
  destruct v as [| | | |[|x rest]|]; try discriminate.
  by injection H as <-.
Qed.

(** What a run that gets past the input checks has established. *)
Lemma parse_passed_checks cl_args json_input (lines : list Value) :
  Document_Parse (cl_input cl_args) = Parsed json_input →
  member json_input "matrix" = Ok (Array lines) →
  passed (parse cl_args) →
  Forall (λ line, ∃ mi, line = Array mi ∧ length mi = length lines
                        ∧ Forall (λ e, IsUint e = true) mi) lines ∧
  (∃ json_vehicles,
      member json_input "vehicles" = Ok (Array json_vehicles) ∧
      Forall (λ v, ∀ key x,
                key = "start_index" ∨ key = "end_index" →
                member v key = Ok x →
                ∃ z, x = Num (NInt z) ∧ 0 ≤ z < 2 ^ 32
                     ∧ (to_Index Index_bits z < length lines)%nat)
             json_vehicles) ∧
  (∃ json_jobs,
      member json_input "jobs" = Ok (Array json_jobs) ∧
      Forall (λ j, ∀ x, member j "location_index" = Ok x →
                ∃ z, x = Num (NInt z) ∧ 0 ≤ z < Z.of_nat (length lines))
             json_jobs).
Proof.
  intros Hdoc Hmatrix H.
  destruct (parse_passed_inv _ _ _ Hdoc Hmatrix H)
    as (json_jobs & json_vehicles & matrix_input & st & input
        & Hjobs & Hvehicles & Hm & Hv & Hj).
  split; [|split].
  - apply Forall_lookup. intros i line Hline.
    destruct (map_each_elements _ _ _ _ Hm) as [_ Hel].
    destruct (Hel i line Hline) as (costs & _ & Hc).
    by eapply matrix_line_inv.
  - exists json_vehicles. split; [by eapply nonempty_array_inv|].
    apply Forall_lookup. intros i v Hi key x Hkey Hx.
    destruct (for_each_elements _ _ _ _ _ Hv i v Hi) as (s1 & s2 & Hbody).
    by eapply add_vehicle_with_index_inv.
  - exists json_jobs. split; [by eapply nonempty_array_inv|].
    apply Forall_lookup. intros i j Hi x Hx.
    destruct (for_each_elements _ _ _ _ _ Hj i j Hi) as (s1 & s2 & Hbody).
    by eapply add_job_with_index_inv.
Qed.

(** Whatever the width of [Index]: a matrix that is not square, an entry
    that is not an unsigned integer, a job [location_index] at or beyond
    the matrix size, or a vehicle [start_index] or [end_index] that is at
    or beyond the matrix size once stored in an [Index], stops [parse]
    with an input error (or in the JSON library): no instance is
    returned and no routing error is thrown. *)
Lemma parse_rejects cl_args json_input (lines : list Value) :
  Document_Parse (cl_input cl_args) = Parsed json_input →
  member json_input "matrix" = Ok (Array lines) →
  not_square lines ∨ entry_not_unsigned lines ∨
  (∃ json_vehicles, vehicles_of json_input json_vehicles ∧
     (Index_beyond_matrix Index_bits (length lines) json_vehicles "start_index" ∨
      Index_beyond_matrix Index_bits (length lines) json_vehicles "end_index")) ∨
  (∃ json_jobs, jobs_of json_input json_jobs ∧
     index_beyond_matrix (length lines) json_jobs "location_index") →
  ¬ passed (parse cl_args).
Proof.
  intros Hdoc Hmatrix Hbad Hpassed.
  destruct (parse_passed_checks _ _ _ Hdoc Hmatrix Hpassed)
    as (Hlines & (json_vehicles & Hvs & Hvehicles) & (json_jobs & Hjs & Hjobs)).
  destruct Hbad as [Hbad|[Hbad|[Hbad|Hbad]]].
  - destruct Hbad as (i & line & Hi & Hline).
    destruct (proj1 (Forall_lookup _ _) Hlines _ _ Hi) as (mi & -> & Hlen & _).
    by apply (Hline mi).
  - destruct Hbad as (i & j & mi & e & Hi & Hj & He).
    destruct (proj1 (Forall_lookup _ _) Hlines _ _ Hi) as (mi' & [= <-] & _ & Huint).
    pose proof (proj1 (Forall_lookup _ _) Huint _ _ Hj) as He'. simpl in He'.
    congruence.
  - destruct Hbad as (json_vehicles' & Hvs' & Hbad). unfold vehicles_of in Hvs'.
    assert (json_vehicles' = json_vehicles) as -> by congruence.
    assert (∃ key, (key = "start_index" ∨ key = "end_index") ∧
              Index_beyond_matrix Index_bits (length lines) json_vehicles key)
      as (key & Hkey & k & v & z & Hk & Hz & Hge)
      by (destruct Hbad; eauto).
    destruct (proj1 (Forall_lookup _ _) Hvehicles _ _ Hk key _ Hkey Hz)
      as (z' & [= <-] & _ & Hlt).
    lia.
  - destruct Hbad as (json_jobs' & Hjs' & k & j & z & Hk & Hz & Hge).
    unfold jobs_of in Hjs'.
    assert (json_jobs' = json_jobs) as -> by congruence.
    destruct (proj1 (Forall_lookup _ _) Hjobs _ _ Hk _ Hz) as (z' & [= <-] & Hlt).
    lia.
Qed.

(** With an [Index] of at least 32 bits, storing an unsigned in it keeps
    its value, and the rejection covers every vehicle [start_index] or
    [end_index] at or beyond the matrix size. *)
Lemma parse_rejects_wide_Index cl_args json_input (lines : list Value) :
  32 ≤ Index_bits →
  Document_Parse (cl_input cl_args) = Parsed json_input →
  member json_input "matrix" = Ok (Array lines) →
  not_square lines ∨ entry_not_unsigned lines ∨
  (∃ json_vehicles, vehicles_of json_input json_vehicles ∧
     (index_beyond_matrix (length lines) json_vehicles "start_index" ∨
      index_beyond_matrix (length lines) json_vehicles "end_index")) ∨
  (∃ json_jobs, jobs_of json_input json_jobs ∧
     index_beyond_matrix (length lines) json_jobs "location_index") →
  (∀ input, parse cl_args ≠ Ok input) ∧
  (∀ e msg, parse cl_args = Throw e msg → e = INPUT).
Proof.
  intros Hbits Hdoc Hmatrix Hbad.
  assert (¬ passed (parse cl_args)) as Hnot.
  { intros Hpassed.
    destruct Hbad as [Hbad|[Hbad|[Hbad|Hbad]]];
      try (apply (parse_rejects _ _ _ Hdoc Hmatrix); [|exact Hpassed]; tauto).
    destruct Hbad as (json_vehicles & Hvs & Hbad).
    destruct (parse_passed_checks _ _ _ Hdoc Hmatrix Hpassed)
      as (_ & (json_vehicles' & Hvs' & Hvehicles) & _).
    unfold vehicles_of in Hvs.
    assert (json_vehicles' = json_vehicles) as -> by congruence.
    assert (∃ key, (key = "start_index" ∨ key = "end_index") ∧
              index_beyond_matrix (length lines) json_vehicles key)
      as (key & Hkey & k & v & z & Hk & Hz & Hge)
      by (destruct Hbad; eauto).
    destruct (proj1 (Forall_lookup _ _) Hvehicles _ _ Hk key _ Hkey Hz)
      as (z' & [= <-] & Hrange & Hlt).
    unfold to_Index in Hlt.
    assert (2 ^ 32 ≤ 2 ^ Index_bits) by (apply Z.pow_le_mono_r; lia).
    rewrite Z.mod_small in Hlt by lia. lia. }
  split.
  - intros input E. apply Hnot. by rewrite E.
  - intros [] msg E; [done|]. exfalso. apply Hnot. by rewrite E.
Qed.
End parser_errors.

(** C7. With a 16-bit [Index], [parse] returns an instance for the
    document whose only vehicle has [start_index] 65536 although the
    matrix has size 1: the member is stored in an [Index] before it is
    compared with the matrix size, so the comparison sees 0, no exception
    is thrown, and the vehicle starts at index 0. *)
Theorem C7_start_index_beyond_Index_accepted :
  ∃ lines json_vehicles,
    member Document.json_input "matrix" = Ok (Array lines) ∧
    vehicles_of Document.json_input json_vehicles ∧
    index_beyond_matrix (length lines) json_vehicles "start_index" ∧
    ∃ input, Document.parse16 Document.json_input = Ok input ∧
             input_matrix input = [[0]] ∧
             (vehicle_start <$> input_vehicles input)
             = [Some {| loc_index := Some 0%nat; loc_coords := None |}].
Proof.
  eexists _, _. split; [reflexivity|]. split; [reflexivity|]. split.
  - exists 0%nat, (Object [ ("id", Num (NInt 1)); ("start_index", Num (NInt 65536)) ]),
           65536.
    split; [reflexivity|]. split; [reflexivity|simpl; lia].
  - eexists. split; [vm_compute; reflexivity|]. split; reflexivity.
Qed.

(** The same document is rejected when [Index] has 32 bits, and so is a
    matrix that is not square whatever the width. *)
Example parse32_rejects_start_index :
  Document.parse32 Document.json_input
  = Throw INPUT "start_index exceeding matrix size for vehicle1.".
Proof. vm_compute. reflexivity. Qed.

Example parse16_rejects_not_square :
  Document.parse16 Document.json_not_square = Throw INPUT "Invalid matrix line 1.".
Proof. vm_compute. reflexivity. Qed.

(** An empty array of time windows: [get_job_time_windows] returns the
    empty list, and it is the construction of the job that rejects it. *)
Example get_job_time_windows_empty_array :
  get_job_time_windows Document.default_tw Document.tw_lt
    (Object [ ("id", Num (NInt 7)); ("time_windows", Array []) ]) = Ok [].
Proof. reflexivity. Qed.

Example parse16_rejects_no_window :
  Document.parse16 Document.json_no_window
  = Throw INPUT "Empty time-windows for job 7.".
Proof. vm_compute. reflexivity. Qed.

Lemma Document_tw_lt_asym (a b : TimeWindow) :
  Document.tw_lt a b = true → Document.tw_lt b a = false.
Proof.
  unfold Document.tw_lt. intros H. apply bool_decide_eq_true in H.
  apply bool_decide_eq_false. lia.
Qed.

Lemma C8_accepted_jobs_time_windows_witness :
  ∃ input, Document.parse16 Document.json_valid = Ok input ∧
  ∃ json_input json_jobs,
    Parsed Document.json_valid = Parsed json_input ∧
    nonempty_array json_input "jobs" "Invalid jobs." = Ok json_jobs ∧
    Forall
      (λ job,
         job_tws job ≠ [] ∧ Sorted (tw_le Document.tw_lt) (job_tws job) ∧
         ∃ json_job, json_job ∈ json_jobs ∧
           ((HasMember json_job "time_windows" = Ok false ∧
             job_tws job = [Document.default_tw]) ∨
            (∃ elements parsed,
                HasMember json_job "time_windows" = Ok true ∧
                member json_job "time_windows" = Ok (Array elements) ∧
                map_each (λ _ tw, get_time_window tw) 0 elements = Ok parsed ∧
                job_tws job = std_sort Document.tw_lt parsed ∧
                job_tws job ≡ₚ parsed)))
      (input_jobs input).
Proof.
  eexists. split; [vm_compute; reflexivity|].
  apply (C8_accepted_jobs_time_windows 16 "car" Document.default_tw Document.tw_lt
           (λ _, Parsed Document.json_valid) (λ _, true)
           Document_tw_lt_asym Document.cl_args).
  vm_compute. reflexivity.
Defined.

Lemma C5_symmetric_matrix_orientation_witness :
  ∃ op1 v_source v_target s_index s_after_index t_index t_after_index,
    compute_gain Example.op = Some op1 ∧
    Example.vehicles !! 0%nat = Some v_source ∧
    Example.vehicles !! 1%nat = Some v_target ∧
    job_index_at Example.input [0; 1]%nat 0 = Some s_index ∧
    job_index_at Example.input [0; 1]%nat (0 + 1) = Some s_after_index ∧
    job_index_at Example.input [2; 3]%nat 0 = Some t_index ∧
    job_index_at Example.input [2; 3]%nat (0 + 1) = Some t_after_index ∧
    Z.abs (normal_s_gain op1) ≤ 2 ^ 61 + 3 * 2 ^ 32 ∧
    Z.abs (reversed_s_gain op1) ≤ 2 ^ 61 + 3 * 2 ^ 32 ∧
    Z.abs (normal_t_gain op1) ≤ 2 ^ 61 + 3 * 2 ^ 32 ∧
    Z.abs (reversed_t_gain op1) ≤ 2 ^ 61 + 3 * 2 ^ 32 ∧
    let m := Example.matrix in
    let prev_s := prev_index Example.input v_source [0; 1]%nat 0 in
    let next_s := next_index Example.input v_source [0; 1]%nat (0 + 1) in
    let prev_t := prev_index Example.input v_target [2; 3]%nat 0 in
    let next_t := next_index Example.input v_target [2; 3]%nat (0 + 1) in
    reversed_s_gain op1 - normal_s_gain op1
      = (link m prev_s (Some t_index) + link m (Some t_after_index) next_s)
        - (link m prev_s (Some t_after_index) + link m (Some t_index) next_s) ∧
    reversed_t_gain op1 - normal_t_gain op1
      = (link m prev_t (Some s_index) + link m (Some s_after_index) next_t)
        - (link m prev_t (Some s_after_index) + link m (Some s_index) next_t) ∧
    (prev_s = None → next_s = None → normal_s_gain op1 = reversed_s_gain op1) ∧
    (prev_t = None → next_t = None → normal_t_gain op1 = reversed_t_gain op1) ∧
    (normal_s_gain op1 = reversed_s_gain op1 → reverse_t_edge op1 = false) ∧
    (normal_t_gain op1 = reversed_t_gain op1 → reverse_s_edge op1 = false) ∧
    reverse_t_edge op1 = bool_decide (reversed_s_gain op1 > normal_s_gain op1) ∧
    reverse_s_edge op1 = bool_decide (reversed_t_gain op1 > normal_t_gain op1).
Proof.
  apply (C5_symmetric_matrix_orientation
           Example.input Example.sol_state [0; 1]%nat 0%nat 0%nat
           [2; 3]%nat 1%nat 0%nat Example.op).
  - reflexivity.
  - exact Example_wf_input.
  - exact Example_wf_route_s.
  - exact Example_wf_route_t.
  - exact Example_costs_below.
  - intros c [= <-]. lia.
  - intros c [= <-]. lia.
  - exact Example_matrix_symmetric.
Defined.

(** ** Range of the gains

    With costs below a bound [B] and cache entries that are sums of two
    costs, every gain that [compute_gain] stores lies within [5 * B] of 0
    and [stored_gain] within [10 * B]: for 32-bit costs the signed 64-bit
    arithmetic of [Gain] never wraps, and the integers of this development
    are the values the program computes. *)
Lemma compute_gain_fits_Gain (B : Z) input sol s sv sr t tv tr (op : CrossExchange) :
  0 < B → costs_below B (input_matrix input) →
  CrossExchange_new input sol s sv sr t tv tr = Some op →
  wf_input input → wf_route input sol sv s → wf_route input sol tv t →
  cache_holds input sol sv s sr → cache_holds input sol tv t tr →
  ∃ op1, compute_gain op = Some op1 ∧
    Z.abs (normal_s_gain op1) ≤ 5 * B ∧ Z.abs (reversed_s_gain op1) ≤ 5 * B ∧
    Z.abs (normal_t_gain op1) ≤ 5 * B ∧ Z.abs (reversed_t_gain op1) ≤ 5 * B ∧
    Z.abs (stored_gain op1) ≤ 10 * B.
Proof.
  intros HB Hm Hnew Hwf Hs Ht Hcs Hct.
  destruct (compute_gain_new _ _ _ _ _ _ _ _ _ Hnew Hwf Hs Ht)
    as (op1 & v_source & v_target & si & sai & ti & tai & around_s & around_t
        & Hop1 & Hvs & Hvt & Hsi & Hsai & Hti & Htai & Has & Hat
        & Ens & Ers & Ent & Ert & _ & _ & Eg).
  exists op1. split; [exact Hop1|].
  destruct Hcs as (vs' & Hvs' & Hcs). destruct Hct as (vt' & Hvt' & Hct).
  assert (vs' = v_source) as -> by congruence.
  assert (vt' = v_target) as -> by congruence.
  rewrite Hcs in Has. rewrite Hct in Hat. injection Has as <-. injection Hat as <-.
  cbv zeta in *. unfold edge_cost_around_edge_def in *.
  rewrite Eg, Ens, Ers, Ent, Ert.
  repeat match goal with
         | |- context [link ?m ?a ?b] =>
             let H := fresh "Hl" in
             pose proof (link_range B m a b HB Hm) as H;
             generalize dependent (link m a b); intros
         | |- context [M ?m ?a ?b] =>
             let H := fresh "Hl" in
             pose proof (M_range B m a b HB Hm) as H;
             generalize dependent (M m a b); intros
         end.
  lia.
Qed.

(** * Further properties of the CrossExchange operator *)

(** ** Applying the move twice *)

Lemma put_edge_put_edge (r : RawRoute) (k x y u v : nat) :
  put_edge (put_edge r k x y) k u v = put_edge r k u v.
Proof.
  unfold put_edge.
  rewrite (list_insert_insert_ne _ k (k + 1)) by lia.
  by rewrite !list_insert_insert_eq.
Qed.

(** X1. Under the constructor's assertions [apply] can be run
    twice.  The second run puts each edge back into its own route; the
    edge comes back in its original order when the two reversal flags are
    equal, and reversed when they differ. *)
Theorem apply_twice (op : CrossExchange) (a b x y : nat) :
  s_route op !! s_rank op = Some a →
  s_route op !! (s_rank op + 1)%nat = Some b →
  t_route op !! t_rank op = Some x →
  t_route op !! (t_rank op + 1)%nat = Some y →
  ∃ op1 op2, apply op = Some op1 ∧ apply op1 = Some op2 ∧
    s_route op2 = (if xorb (reverse_s_edge op) (reverse_t_edge op)
                   then put_edge (s_route op) (s_rank op) b a else s_route op) ∧
    t_route op2 = (if xorb (reverse_s_edge op) (reverse_t_edge op)
                   then put_edge (t_route op) (t_rank op) y x else t_route op).
Proof.
  intros Ha Hb Hx Hy.
  assert (s_rank op + 1 < length (s_route op))%nat as Hsl by (by eapply lookup_lt_Some).
  assert (t_rank op + 1 < length (t_route op))%nat as Htl by (by eapply lookup_lt_Some).
  destruct (apply_defined op Hsl Htl) as [op1 Hop1].
  pose proof Hop1 as Hinv.
  apply apply_inv in Hinv as (a' & b' & x' & y' & Ha' & Hb' & Hx' & Hy' & Hop1eq).
  assert (a' = a) as -> by congruence. assert (b' = b) as -> by congruence.
  assert (x' = x) as -> by congruence. assert (y' = y) as -> by congruence.
  assert (s_rank op1 = s_rank op ∧ t_rank op1 = t_rank op ∧
          reverse_s_edge op1 = reverse_s_edge op ∧
          reverse_t_edge op1 = reverse_t_edge op) as (E1 & E2 & E3 & E4)
    by (rewrite Hop1eq; done).
  assert (length (s_route op1) = length (s_route op) ∧
          length (t_route op1) = length (t_route op)) as [L1 L2].
  { rewrite Hop1eq. simpl.
    destruct (reverse_s_edge op), (reverse_t_edge op); by rewrite !put_edge_length. }
  destruct (apply_defined op1) as [op2 Hop2]; [rewrite E1, L1; lia|rewrite E2, L2; lia|].
  exists op1, op2. do 2 (split; [done|]).
  apply apply_inv in Hop2 as (a2 & b2 & x2 & y2 & Ha2 & Hb2 & Hx2 & Hy2 & ->).
  simpl. rewrite E1, E2, E3, E4 in *.
  rewrite Hop1eq in Ha2, Hb2, Hx2, Hy2 |- *. simpl in *.
  destruct (reverse_s_edge op), (reverse_t_edge op); simpl;
    rewrite put_edge_lookup_l in Ha2, Hx2 by done;
    rewrite put_edge_lookup_r in Hb2, Hy2 by done;
    simplify_eq; rewrite !put_edge_put_edge;
    (split; [reflexivity || by apply put_edge_id|reflexivity || by apply put_edge_id]).
Qed.

Lemma apply_twice_witness :
  ∃ op1 op2, apply Example.op = Some op1 ∧ apply op1 = Some op2 ∧
    s_route op2 = [0; 1]%nat ∧ t_route op2 = [2; 3]%nat.
Proof.
  exact (apply_twice Example.op 0 1 2 3 eq_refl eq_refl eq_refl eq_refl).
Defined.

(** ** The four orientations of the exchange *)

Lemma with_flags_id (op : CrossExchange) :
  with_flags op (reverse_s_edge op) (reverse_t_edge op) = op.
Proof. by destruct op. Qed.

(** What [apply] saves under each setting of the two flags. *)
Lemma orientation_saving
    input sol s sv sr t tv tr (op : CrossExchange) :
  CrossExchange_new input sol s sv sr t tv tr = Some op →
  wf_input input → wf_route input sol sv s → wf_route input sol tv t →
  cache_holds input sol sv s sr → cache_holds input sol tv t tr →
  ∃ op1 v_source v_target,
    compute_gain op = Some op1 ∧
    input_vehicles input !! sv = Some v_source ∧
    input_vehicles input !! tv = Some v_target ∧
    stored_gain op1
    = Z.max (normal_s_gain op1) (reversed_s_gain op1)
      + Z.max (normal_t_gain op1) (reversed_t_gain op1) ∧
    reverse_t_edge op1 = bool_decide (reversed_s_gain op1 > normal_s_gain op1) ∧
    reverse_s_edge op1 = bool_decide (reversed_t_gain op1 > normal_t_gain op1) ∧
    ∀ rs rt : bool,
      ∃ op2, apply (with_flags op1 rs rt) = Some op2 ∧
        (route_cost input v_source s + route_cost input v_target t)
        - (route_cost input v_source (s_route op2)
           + route_cost input v_target (t_route op2))
        = (if rt then reversed_s_gain op1 else normal_s_gain op1)
          + (if rs then reversed_t_gain op1 else normal_t_gain op1).
Proof.
  intros Hnew Hwf Hs Ht Hcs Hct.
  destruct (compute_gain_new _ _ _ _ _ _ _ _ _ Hnew Hwf Hs Ht)
    as (op1 & v_source & v_target & si & sai & ti & tai & around_s & around_t
        & Hop1 & Hvs & Hvt & Hsi & Hsai & Hti & Htai & Has & Hat
        & Ens & Ers & Ent & Ert & Eft & Efs & Eg).
  exists op1, v_source, v_target. do 3 (split; [done|]).
  do 3 (split; [done|]). clear Eft Efs Eg.
  apply CrossExchange_new_inv in Hnew
    as (Hassert & Hin & Hsol & Hsr & Hsv & Hsk & Htr & Htv & Htk & _ & _).
  pose proof Hassert as (Hne & Hls & Hlt & Hsr' & Htr').
  destruct (compute_gain_frame _ _ Hop1) as (_ & _ & E3 & E4 & _ & E6 & _ & E8 & _).
  rewrite Hsr in E3. rewrite Htr in E4. rewrite Hsk in E6. rewrite Htk in E8.
  destruct Hcs as (vs' & Hvs' & Hcs). destruct Hct as (vt' & Hvt' & Hct).
  assert (vs' = v_source) as -> by congruence.
  assert (vt' = v_target) as -> by congruence.
  rewrite Hcs in Has. rewrite Hct in Hat. injection Has as <-. injection Hat as <-.
  pose proof (routes_have_indices _ _ _ _ Hwf Hs) as Hsall.
  pose proof (routes_have_indices _ _ _ _ Hwf Ht) as Htall.
  intros rs rt.
  destruct (apply_defined (with_flags op1 rs rt)) as [op2 Hop2];
    [simpl; rewrite E3, E6; lia|simpl; rewrite E4, E8; lia|].
  exists op2. split; [exact Hop2|].
  apply apply_inv in Hop2 as (a & b & x & y & Ha & Hb & Hx & Hy & ->).
  simpl in Ha, Hb, Hx, Hy |- *.
  rewrite E3, E6 in Ha, Hb |- *. rewrite E4, E8 in Hx, Hy |- *.
  pose proof (job_index_at_Some _ _ _ _ _ Ha Hsi) as Ja.
  pose proof (job_index_at_Some _ _ _ _ _ Hb Hsai) as Jb.
  pose proof (job_index_at_Some _ _ _ _ _ Hx Hti) as Jx.
  pose proof (job_index_at_Some _ _ _ _ _ Hy Htai) as Jy.
  pose proof (route_cost_around input v_source s sr a b si sai Hsall
                ltac:(lia) Ja Jb) as Cs.
  pose proof (route_cost_around input v_target t tr x y ti tai Htall
                ltac:(lia) Jx Jy) as Ct.
  rewrite (put_edge_id s sr a b Ha Hb) in Cs.
  rewrite (put_edge_id t tr x y Hx Hy) in Ct.
  rewrite Cs, Ct. clear Cs Ct.
  cbv zeta in *. rewrite Ens, Ers, Ent, Ert.
  unfold edge_cost_around_edge_def. rewrite Hsi, Hsai, Hti, Htai.
  set (m := input_matrix input).
  set (ps := prev_index input v_source s sr).
  set (ns := next_index input v_source s (sr + 1)).
  set (pt := prev_index input v_target t tr).
  set (nt := next_index input v_target t (tr + 1)).
  destruct rs, rt;
    rewrite ?(route_cost_around input v_source s sr x y ti tai),
            ?(route_cost_around input v_source s sr y x tai ti),
            ?(route_cost_around input v_target t tr a b si sai),
            ?(route_cost_around input v_target t tr b a sai si) by (done || lia);
    fold m ps ns pt nt; change (link m (Some ?i) (Some ?j)) with (M m i j); lia.
Qed.

(** X2. After [compute_gain] on a newly built operator whose two
    cache entries hold their defined values, whichever way the two
    reversal flags are set, [apply] saves exactly the sum of the two
    per-side gains of that orientation; so [stored_gain] is the largest
    saving among the four orientations, and the flags [compute_gain] sets
    reach it. *)
Theorem stored_gain_is_best_orientation
    input sol s sv sr t tv tr (op : CrossExchange) :
  CrossExchange_new input sol s sv sr t tv tr = Some op →
  wf_input input → wf_route input sol sv s → wf_route input sol tv t →
  cache_holds input sol sv s sr → cache_holds input sol tv t tr →
  ∃ op1 v_source v_target,
    compute_gain op = Some op1 ∧
    input_vehicles input !! sv = Some v_source ∧
    input_vehicles input !! tv = Some v_target ∧
    stored_gain op1
    = (if reverse_t_edge op1 then reversed_s_gain op1 else normal_s_gain op1)
      + (if reverse_s_edge op1 then reversed_t_gain op1 else normal_t_gain op1) ∧
    ∀ rs rt : bool,
      ∃ op2, apply (with_flags op1 rs rt) = Some op2 ∧
        (route_cost input v_source s + route_cost input v_target t)
        - (route_cost input v_source (s_route op2)
           + route_cost input v_target (t_route op2))
        = (if rt then reversed_s_gain op1 else normal_s_gain op1)
          + (if rs then reversed_t_gain op1 else normal_t_gain op1) ∧
        (route_cost input v_source s + route_cost input v_target t)
        - (route_cost input v_source (s_route op2)
           + route_cost input v_target (t_route op2))
        ≤ stored_gain op1.
Proof.
  intros Hnew Hwf Hs Ht Hcs Hct.
  destruct (orientation_saving _ _ _ _ _ _ _ _ _ Hnew Hwf Hs Ht Hcs Hct)
    as (op1 & v_source & v_target & Hop1 & Hvs & Hvt & Eg & Eft & Efs & Hall).
  exists op1, v_source, v_target. do 3 (split; [done|]).
  split; [rewrite Eg, Eft, Efs; repeat case_bool_decide; lia|].
  intros rs rt. destruct (Hall rs rt) as (op2 & Hop2 & Hsave).
  exists op2. do 2 (split; [done|]).
  rewrite Hsave, Eg. destruct rs, rt; lia.
Qed.

Lemma stored_gain_is_best_orientation_witness :
  ∃ op1 v_source v_target,
    compute_gain Example.op = Some op1 ∧
    Example.vehicles !! 0%nat = Some v_source ∧
    Example.vehicles !! 1%nat = Some v_target ∧
    stored_gain op1
    = (if reverse_t_edge op1 then reversed_s_gain op1 else normal_s_gain op1)
      + (if reverse_s_edge op1 then reversed_t_gain op1 else normal_t_gain op1) ∧
    ∀ rs rt : bool,
      ∃ op2, apply (with_flags op1 rs rt) = Some op2 ∧
        (route_cost Example.input v_source [0; 1]%nat
         + route_cost Example.input v_target [2; 3]%nat)
        - (route_cost Example.input v_source (s_route op2)
           + route_cost Example.input v_target (t_route op2))
        = (if rt then reversed_s_gain op1 else normal_s_gain op1)
          + (if rs then reversed_t_gain op1 else normal_t_gain op1) ∧
        (route_cost Example.input v_source [0; 1]%nat
         + route_cost Example.input v_target [2; 3]%nat)
        - (route_cost Example.input v_source (s_route op2)
           + route_cost Example.input v_target (t_route op2))
        ≤ stored_gain op1.
Proof.
  apply (stored_gain_is_best_orientation
           Example.input Example.sol_state [0; 1]%nat 0%nat 0%nat
           [2; 3]%nat 1%nat 0%nat Example.op).
  - reflexivity.
  - exact Example_wf_input.
  - exact Example_wf_route_s.
  - exact Example_wf_route_t.
  - eexists; split; reflexivity.
  - eexists; split; reflexivity.
Defined.

(** ** Exchanging the roles of source and target *)

(** X3. Building the operator with source and target exchanged gives
    the same [stored_gain]; the gains and the reversal flags of the two
    sides change places. *)
Theorem compute_gain_exchanged_roles
    input sol s sv sr t tv tr (op op' : CrossExchange) :
  CrossExchange_new input sol s sv sr t tv tr = Some op →
  CrossExchange_new input sol t tv tr s sv sr = Some op' →
  wf_input input → wf_route input sol sv s → wf_route input sol tv t →
  ∃ op1 op1',
    compute_gain op = Some op1 ∧ compute_gain op' = Some op1' ∧
    stored_gain op1' = stored_gain op1 ∧
    normal_s_gain op1' = normal_t_gain op1 ∧
    reversed_s_gain op1' = reversed_t_gain op1 ∧
    normal_t_gain op1' = normal_s_gain op1 ∧
    reversed_t_gain op1' = reversed_s_gain op1 ∧
    reverse_s_edge op1' = reverse_t_edge op1 ∧
    reverse_t_edge op1' = reverse_s_edge op1.
Proof.
  intros Hnew Hnew' Hwf Hs Ht.
  destruct (compute_gain_new _ _ _ _ _ _ _ _ _ Hnew Hwf Hs Ht)
    as (op1 & v_source & v_target & si & sai & ti & tai & around_s & around_t
        & Hop1 & Hvs & Hvt & Hsi & Hsai & Hti & Htai & Has & Hat
        & Ens & Ers & Ent & Ert & Eft & Efs & Eg).
  destruct (compute_gain_new _ _ _ _ _ _ _ _ _ Hnew' Hwf Ht Hs)
    as (op1' & v_source' & v_target' & si' & sai' & ti' & tai' & around_s' & around_t'
        & Hop1' & Hvs' & Hvt' & Hsi' & Hsai' & Hti' & Htai' & Has' & Hat'
        & Ens' & Ers' & Ent' & Ert' & Eft' & Efs' & Eg').
  exists op1, op1'. do 2 (split; [done|]).
  simplify_eq. cbv zeta in *.
  assert (normal_s_gain op1' = normal_t_gain op1) as E1 by congruence.
  assert (reversed_s_gain op1' = reversed_t_gain op1) as E2 by congruence.
  assert (normal_t_gain op1' = normal_s_gain op1) as E3 by congruence.
  assert (reversed_t_gain op1' = reversed_s_gain op1) as E4 by congruence.
  rewrite Eg, Eg', Eft, Efs, Eft', Efs', E1, E2, E3, E4.
  repeat split; lia.
Qed.

Lemma compute_gain_exchanged_roles_witness :
  ∃ op' op1 op1',
    CrossExchange_new Example.input Example.sol_state
      [2; 3]%nat 1%nat 0%nat [0; 1]%nat 0%nat 0%nat = Some op' ∧
    compute_gain Example.op = Some op1 ∧ compute_gain op' = Some op1' ∧
    stored_gain op1' = stored_gain op1 ∧
    normal_s_gain op1' = normal_t_gain op1 ∧
    reversed_s_gain op1' = reversed_t_gain op1 ∧
    normal_t_gain op1' = normal_s_gain op1 ∧
    reversed_t_gain op1' = reversed_s_gain op1 ∧
    reverse_s_edge op1' = reverse_t_edge op1 ∧
    reverse_t_edge op1' = reverse_s_edge op1.
Proof.
  eexists. 
  destruct (compute_gain_exchanged_roles
              Example.input Example.sol_state [0; 1]%nat 0%nat 0%nat
              [2; 3]%nat 1%nat 0%nat Example.op _ eq_refl eq_refl
              Example_wf_input Example_wf_route_s Example_wf_route_t)
    as (op1 & op1' & H).
  exists op1, op1'. split; [reflexivity|exact H].
Defined.

(** ** Validity *)

(** X4. [is_valid] reads nothing that [compute_gain] writes: it
    gives the same answer before and after [compute_gain]; and it gives
    the same answer when source and target exchange their roles. *)
Theorem is_valid_independent
    input sol s sv sr t tv tr (op op' op1 : CrossExchange) :
  CrossExchange_new input sol s sv sr t tv tr = Some op →
  CrossExchange_new input sol t tv tr s sv sr = Some op' →
  wf_input input → wf_route input sol sv s → wf_route input sol tv t →
  compute_gain op = Some op1 →
  ∃ b, is_valid op = Some b ∧ is_valid op1 = Some b ∧ is_valid op' = Some b.
Proof.
  intros Hnew Hnew' Hwf Hs Ht Hop1.
  apply CrossExchange_new_inv in Hnew
    as (Hassert & Hin & Hsol & Hsr & Hsv & Hsk & Htr & Htv & Htk & _ & _).
  apply CrossExchange_new_inv in Hnew'
    as (Hassert' & Hin' & Hsol' & Hsr' & Hsv' & Hsk' & Htr' & Htv' & Htk' & _ & _).
  assert (wf_operator op) as Hop
    by (unfold wf_operator; rewrite Hin, Hsol, Hsr, Hsv, Hsk, Htr, Htv, Htk; done).
  assert (wf_operator op') as Hop'
    by (unfold wf_operator; rewrite Hin', Hsol', Hsr', Hsv', Hsk', Htr', Htv', Htk';
        done).
  destruct (compute_gain_frame _ _ Hop1) as (E1 & E2 & E3 & E4 & E5 & E6 & E7 & E8 & _).
  destruct (is_valid_value op Hop)
    as (js & jsa & jt & jta & s_current & s_after & t_current & t_after
        & v_source & v_target & s_back & t_back
        & Hjs & Hjsa & Hjt & Hjta & Hsc & Hsa & Htc & Hta & Hvs & Hvt & Hsb & Htb
        & Hval).
  destruct (is_valid_value op' Hop')
    as (js' & jsa' & jt' & jta' & s_current' & s_after' & t_current' & t_after'
        & v_source' & v_target' & s_back' & t_back'
        & Hjs' & Hjsa' & Hjt' & Hjta' & Hsc' & Hsa' & Htc' & Hta' & Hvs' & Hvt'
        & Hsb' & Htb' & Hval').
  eexists. split; [exact Hval|]. split.
  - rewrite <- Hval. unfold is_valid. by rewrite E1, E2, E3, E4, E5, E6, E7, E8.
  - rewrite Hval'.
    rewrite Hin', Hsol', Hsr', Hsv', Hsk', Htr', Htv', Htk' in *.
    rewrite Hin, Hsol, Hsr, Hsv, Hsk, Htr, Htv, Htk in *.
    simplify_eq. f_equal.
    repeat (destruct (bool_decide _)); repeat (destruct (amount_le _ _)); reflexivity.
Qed.

Lemma is_valid_independent_witness :
  ∃ op' op1 b,
    CrossExchange_new Example.input Example.sol_state
      [2; 3]%nat 1%nat 0%nat [0; 1]%nat 0%nat 0%nat = Some op' ∧
    compute_gain Example.op = Some op1 ∧
    is_valid Example.op = Some b ∧ is_valid op1 = Some b ∧ is_valid op' = Some b.
Proof.
  eexists _, _.
  destruct (is_valid_independent
              Example.input Example.sol_state [0; 1]%nat 0%nat 0%nat
              [2; 3]%nat 1%nat 0%nat Example.op _ _ eq_refl eq_refl
              Example_wf_input Example_wf_route_s Example_wf_route_t eq_refl)
    as (b & H).
  exists b. split; [reflexivity|]. split; [reflexivity|exact H].
Defined.

(** ** A valid move keeps the routes feasible *)

(** What a positive answer of [is_valid] means. *)
Lemma is_valid_true (op : CrossExchange) :
  wf_operator op → is_valid op = Some true →
  ∃ js jsa jt jta s_current s_after t_current t_after v_source v_target
      s_back t_back,
    s_route op !! s_rank op = Some js ∧
    s_route op !! (s_rank op + 1)%nat = Some jsa ∧
    t_route op !! t_rank op = Some jt ∧
    t_route op !! (t_rank op + 1)%nat = Some jta ∧
    input_jobs (_input op) !! js = Some s_current ∧
    input_jobs (_input op) !! jsa = Some s_after ∧
    input_jobs (_input op) !! jt = Some t_current ∧
    input_jobs (_input op) !! jta = Some t_after ∧
    input_vehicles (_input op) !! s_vehicle op = Some v_source ∧
    input_vehicles (_input op) !! t_vehicle op = Some v_target ∧
    fwd_amounts (_sol_state op) !! s_vehicle op ≫= last = Some s_back ∧
    fwd_amounts (_sol_state op) !! t_vehicle op ≫= last = Some t_back ∧
    vehicle_ok_with_job (_input op) (t_vehicle op) js = Some true ∧
    vehicle_ok_with_job (_input op) (t_vehicle op) jsa = Some true ∧
    vehicle_ok_with_job (_input op) (s_vehicle op) jt = Some true ∧
    vehicle_ok_with_job (_input op) (s_vehicle op) jta = Some true ∧
    Forall2 Z.le
      (load_after_exchange s_back (job_amount s_current) (job_amount s_after)
                           (job_amount t_current) (job_amount t_after))
      (vehicle_capacity v_source) ∧
    Forall2 Z.le
      (load_after_exchange t_back (job_amount t_current) (job_amount t_after)
                           (job_amount s_current) (job_amount s_after))
      (vehicle_capacity v_target).
Proof.
  intros Hop Hvalid.
  destruct (is_valid_value op Hop)
    as (js & jsa & jt & jta & s_current & s_after & t_current & t_after
        & v_source & v_target & s_back & t_back
        & Hjs & Hjsa & Hjt & Hjta & Hsc & Hsa & Htc & Hta & Hvs & Hvt & Hsb & Htb
        & Hval).
  exists js, jsa, jt, jta, s_current, s_after, t_current, t_after,
         v_source, v_target, s_back, t_back.
  do 12 (split; [assumption|]).
  rewrite Hvalid in Hval. injection Hval as Hval. symmetry in Hval.
  rewrite !andb_true_iff in Hval.
  destruct Hval as (((((H1 & H2) & H3) & H4) & H5) & H6).
  unfold vehicle_ok_with_job. rewrite Hvs, Hvt, Hsc, Hsa, Htc, Hta. simpl.
  rewrite H1, H2, H3, H4.
  unfold amount_le in H5, H6. apply bool_decide_eq_true in H5, H6. done.
Qed.

Lemma route_ok_put_edge (input : Input) (v : nat) (r : RawRoute) (k x y : nat) :
  route_ok input v r →
  vehicle_ok_with_job input v x = Some true →
  vehicle_ok_with_job input v y = Some true →
  route_ok input v (put_edge r k x y).
Proof.
  intros Hr Hx Hy. unfold route_ok, put_edge.
  apply Forall_insert; [|done]. by apply Forall_insert.
Qed.

(** X5. When [is_valid] answers [true] and every job of each route is
    compatible with the vehicle of that route, the same holds for the two
    routes that [apply] leaves, whatever the reversal flags. *)
Theorem valid_move_keeps_skills (op op' : CrossExchange) :
  wf_operator op →
  is_valid op = Some true →
  route_ok (_input op) (s_vehicle op) (s_route op) →
  route_ok (_input op) (t_vehicle op) (t_route op) →
  apply op = Some op' →
  route_ok (_input op) (s_vehicle op) (s_route op') ∧
  route_ok (_input op) (t_vehicle op) (t_route op').
Proof.
  intros Hop Hvalid Hs Ht Happly.
  destruct (is_valid_true op Hop Hvalid)
    as (js & jsa & jt & jta & s_current & s_after & t_current & t_after
        & v_source & v_target & s_back & t_back
        & Hjs & Hjsa & Hjt & Hjta & _ & _ & _ & _ & _ & _ & _ & _
        & H1 & H2 & H3 & H4 & _).
  apply apply_inv in Happly as (a & b & x & y & Ha & Hb' & Hx & Hy & ->).
  simplify_eq. simpl.
  split.
  - destruct (reverse_t_edge op); by apply route_ok_put_edge.
  - destruct (reverse_s_edge op); by apply route_ok_put_edge.
Qed.

Lemma Example_is_valid : is_valid Example.op = Some true.
Proof. reflexivity. Qed.

Lemma valid_move_keeps_skills_witness :
  ∃ op', apply Example.op = Some op' ∧
    route_ok Example.input 0 (s_route op') ∧
    route_ok Example.input 1 (t_route op').
Proof.
  eexists. split; [reflexivity|].
  apply (valid_move_keeps_skills Example.op).
  - exact Example_wf_operator.
  - exact Example_is_valid.
  - unfold route_ok. simpl. solve_Forall; reflexivity.
  - unfold route_ok. simpl. solve_Forall; reflexivity.
  - reflexivity.
Defined.

(** ** Loads *)

Lemma column_app (i : nat) (l1 l2 : list Amount) :
  column i (l1 ++ l2) = column i l1 + column i l2.
Proof. induction l1 as [|a l1 IH]; simpl; lia. Qed.

Lemma length_sum_amounts (d : nat) (l : list Amount) :
  Forall (λ a, length a = d) l → length (sum_amounts d l) = d.
Proof.
  induction 1 as [|a l Ha _ IH]; simpl.
  - by rewrite length_replicate.
  - unfold amount_add. rewrite length_zip_with.
    change (foldr (zip_with Z.add) (replicate d 0) l) with (sum_amounts d l).
    rewrite IH. lia.
Qed.

Lemma lookup_sum_amounts (d : nat) (l : list Amount) (i : nat) :
  Forall (λ a, length a = d) l → (i < d)%nat →
  sum_amounts d l !! i = Some (column i l).
Proof.
  intros Hl Hi. induction Hl as [|a l Ha _ IH]; simpl.
  - by rewrite lookup_replicate_2.
  - unfold amount_add. rewrite lookup_zip_with.
    destruct (lookup_lt_is_Some_2 a i ltac:(lia)) as [z Hz].
    rewrite Hz. simpl.
    change (foldr (zip_with Z.add) (replicate d 0) l) with (sum_amounts d l).
    rewrite IH. done.
Qed.

Lemma load_after_exchange_swap (back a b x y : Amount) :
  load_after_exchange back a b y x = load_after_exchange back a b x y.
Proof.
  unfold load_after_exchange, amount_add, amount_sub.
  apply list_eq. intros i. rewrite !lookup_zip_with.
  destruct (back !! i), (a !! i), (b !! i), (x !! i), (y !! i); simpl; try done.
  f_equal. lia.
Qed.

Lemma route_amounts_split (input : Input) (r : RawRoute) (k x y : nat) (ax ay : Amount) :
  (k + 1 < length r)%nat →
  job_amount_of input x = Some ax →
  job_amount_of input y = Some ay →
  route_amounts input (put_edge r k x y)
  = route_amounts input (take k r) ++ ax :: ay
    :: route_amounts input (drop (k + 2) r).
Proof.
  intros Hk Hx Hy. rewrite put_edge_split by done. unfold route_amounts.
  rewrite omap_app.
  by rewrite (omap_cons_Some (job_amount_of input) x _ ax Hx),
             (omap_cons_Some (job_amount_of input) y _ ay Hy).
Qed.

Lemma route_amounts_length (d : nat) (input : Input) (r : RawRoute) :
  Forall (λ j, length (job_amount j) = d) (input_jobs input) →
  Forall (λ a, length a = d) (route_amounts input r).
Proof.
  intros Hd. unfold route_amounts. induction r as [|j r IH]; [by constructor|].
  change (omap ?f (j :: r)) with (match f j with Some y => y :: omap f r
                                               | None => omap f r end).
  unfold job_amount_of at 1 3.
  destruct (input_jobs input !! j) as [job|] eqn:Hj; simpl; [|done].
  constructor; [|done].
  exact (proj1 (Forall_lookup _ _) Hd _ _ Hj).
Qed.

(** The load after two jobs are replaced. *)
Lemma route_load_put_edge (d : nat) (input : Input) (r : RawRoute)
    (k ja jb jx jy : nat) (a b x y : Job) :
  Forall (λ j, length (job_amount j) = d) (input_jobs input) →
  r !! k = Some ja → r !! (k + 1)%nat = Some jb →
  input_jobs input !! ja = Some a → input_jobs input !! jb = Some b →
  input_jobs input !! jx = Some x → input_jobs input !! jy = Some y →
  route_load d input (put_edge r k jx jy)
  = load_after_exchange (route_load d input r) (job_amount a) (job_amount b)
                        (job_amount x) (job_amount y).
Proof.
  intros Hd Ha Hb Hja Hjb Hjx Hjy.
  assert (k + 1 < length r)%nat as Hk by (by eapply lookup_lt_Some).
  pose proof (proj1 (Forall_lookup _ _) Hd _ _ Hja) as La.
  pose proof (proj1 (Forall_lookup _ _) Hd _ _ Hjb) as Lb.
  pose proof (proj1 (Forall_lookup _ _) Hd _ _ Hjx) as Lx.
  pose proof (proj1 (Forall_lookup _ _) Hd _ _ Hjy) as Ly.
  simpl in La, Lb, Lx, Ly.
  unfold route_load.
  rewrite <- (put_edge_id r k ja jb Ha Hb) at 2.
  rewrite (route_amounts_split input r k jx jy (job_amount x) (job_amount y))
    by (done || by unfold job_amount_of; rewrite ?Hjx, ?Hjy).
  rewrite (route_amounts_split input r k ja jb (job_amount a) (job_amount b))
    by (done || by unfold job_amount_of; rewrite ?Hja, ?Hjb).
  pose proof (route_amounts_length d input (take k r) Hd) as LA.
  pose proof (route_amounts_length d input (drop (k + 2) r) Hd) as LB.
  set (A := route_amounts input (take k r)) in *.
  set (B := route_amounts input (drop (k + 2) r)) in *.
  assert (Forall (λ a0, length a0 = d) (A ++ job_amount x :: job_amount y :: B)) as L1
    by (apply Forall_app; split; [done|by repeat constructor]).
  assert (Forall (λ a0, length a0 = d) (A ++ job_amount a :: job_amount b :: B)) as L2
    by (apply Forall_app; split; [done|by repeat constructor]).
  apply list_eq. intros i.
  destruct (decide (i < d)%nat) as [Hi|Hi].
  - rewrite (lookup_sum_amounts d _ i L1 Hi).
    unfold load_after_exchange, amount_add, amount_sub.
    rewrite !lookup_zip_with. rewrite (lookup_sum_amounts d _ i L2 Hi).
    destruct (lookup_lt_is_Some_2 (job_amount a) i ltac:(lia)) as [za Hza].
    destruct (lookup_lt_is_Some_2 (job_amount b) i ltac:(lia)) as [zb Hzb].
    destruct (lookup_lt_is_Some_2 (job_amount x) i ltac:(lia)) as [zx Hzx].
    destruct (lookup_lt_is_Some_2 (job_amount y) i ltac:(lia)) as [zy Hzy].
    rewrite Hza, Hzb, Hzx, Hzy. simpl. f_equal.
    rewrite !column_app. simpl. rewrite Hza, Hzb, Hzx, Hzy. simpl. lia.
  - rewrite !(proj2 (lookup_ge_None _ _)); [done| |].
    + unfold load_after_exchange, amount_add, amount_sub.
      rewrite !length_zip_with, (length_sum_amounts d _ L2). lia.
    + rewrite (length_sum_amounts d _ L1). lia.
Qed.

(** X6. When each [fwd_amounts[v].back()] is the load of the route
    of [v] and [is_valid] answers [true], the loads of the two routes that
    [apply] leaves are componentwise within the capacities of their
    vehicles, whatever the reversal flags. *)
Theorem valid_move_keeps_capacity (d : nat) (op op' : CrossExchange)
    (v_source v_target : Vehicle) :
  wf_operator op →
  Forall (λ j, length (job_amount j) = d) (input_jobs (_input op)) →
  input_vehicles (_input op) !! s_vehicle op = Some v_source →
  input_vehicles (_input op) !! t_vehicle op = Some v_target →
  fwd_amounts (_sol_state op) !! s_vehicle op ≫= last
    = Some (route_load d (_input op) (s_route op)) →
  fwd_amounts (_sol_state op) !! t_vehicle op ≫= last
    = Some (route_load d (_input op) (t_route op)) →
  is_valid op = Some true →
  apply op = Some op' →
  Forall2 Z.le (route_load d (_input op) (s_route op')) (vehicle_capacity v_source) ∧
  Forall2 Z.le (route_load d (_input op) (t_route op')) (vehicle_capacity v_target).
Proof.
  intros Hop Hd Hvs Hvt Hsb Htb Hvalid Happly.
  destruct (is_valid_true op Hop Hvalid)
    as (js & jsa & jt & jta & s_current & s_after & t_current & t_after
        & v_source' & v_target' & s_back & t_back
        & Hjs & Hjsa & Hjt & Hjta & Hsc & Hsa & Htc & Hta & Hvs' & Hvt' & Hsb' & Htb'
        & _ & _ & _ & _ & Hcs & Hct).
  assert (v_source' = v_source) as -> by congruence.
  assert (v_target' = v_target) as -> by congruence.
  assert (s_back = route_load d (_input op) (s_route op)) as -> by congruence.
  assert (t_back = route_load d (_input op) (t_route op)) as -> by congruence.
  apply apply_inv in Happly as (a & b & x & y & Ha & Hb & Hx & Hy & ->).
  assert (a = js) as -> by congruence. assert (b = jsa) as -> by congruence.
  assert (x = jt) as -> by congruence. assert (y = jta) as -> by congruence.
  simpl. split.
  - destruct (reverse_t_edge op).
    + rewrite (route_load_put_edge d _ _ _ js jsa jta jt s_current s_after
                 t_after t_current) by done.
      by rewrite load_after_exchange_swap.
    + by rewrite (route_load_put_edge d _ _ _ js jsa jt jta s_current s_after
                    t_current t_after) by done.
  - destruct (reverse_s_edge op).
    + rewrite (route_load_put_edge d _ _ _ jt jta jsa js t_current t_after
                 s_after s_current) by done.
      by rewrite load_after_exchange_swap.
    + by rewrite (route_load_put_edge d _ _ _ jt jta js jsa t_current t_after
                    s_current s_after) by done.
Qed.

Lemma valid_move_keeps_capacity_witness :
  ∃ op', apply Example.op = Some op' ∧
    Forall2 Z.le (route_load 1 Example.input (s_route op')) [4] ∧
    Forall2 Z.le (route_load 1 Example.input (t_route op')) [4].
Proof.
  eexists. split; [reflexivity|].
  apply (valid_move_keeps_capacity 1 Example.op _
           {| vehicle_id := 0; vehicle_start := Some (Example.at_index 0);
              vehicle_end := None; vehicle_capacity := [4]; vehicle_skills := ∅;
              vehicle_tw := Example.all_day |}
           {| vehicle_id := 1; vehicle_start := Some (Example.at_index 0);
              vehicle_end := Some (Example.at_index 0);
              vehicle_capacity := [4]; vehicle_skills := ∅;
              vehicle_tw := Example.all_day |}).
  - exact Example_wf_operator.
  - simpl. solve_Forall; reflexivity.
  - reflexivity.
  - reflexivity.
  - reflexivity.
  - reflexivity.
  - exact Example_is_valid.
  - reflexivity.
Defined.

(** ** Running [compute_gain] again *)

(** X7. A second run of [compute_gain] changes nothing: it never
    clears a reversal flag, so the operator it leaves is a fixed point.  A
    flag that is already set when [compute_gain] starts stays set. *)
Theorem compute_gain_twice (op op1 : CrossExchange) :
  compute_gain op = Some op1 →
  compute_gain op1 = Some op1 ∧
  (reverse_s_edge op = true → reverse_s_edge op1 = true) ∧
  (reverse_t_edge op = true → reverse_t_edge op1 = true).
Proof.
  intros H.
  destruct (compute_gain_frame _ _ H) as (E1 & E2 & E3 & E4 & E5 & E6 & E7 & E8 & E9).
  unfold compute_gain in H |- *.
  rewrite E1, E2, E3, E4, E5, E6, E7, E8.
  repeat match type of H with
         | mbind _ ?x = Some _ =>
             destruct x as [?|]; [|discriminate H]; cbn [mbind option_bind] in H |- *
         | (let '(_, _) := ?p in _) = Some _ => destruct p
         end.
  injection H as <-. clear E1 E2 E3 E4 E5 E6 E7 E8 E9. cbn.
  repeat split.
  - f_equal. f_equal; repeat case_bool_decide; try done; lia.
  - intros Hr. rewrite Hr. by destruct (bool_decide _).
  - intros Hr. rewrite Hr. by destruct (bool_decide _).
Qed.

Lemma compute_gain_twice_witness :
  ∃ op1, compute_gain Example.op = Some op1 ∧
    compute_gain op1 = Some op1 ∧
    (reverse_s_edge Example.op = true → reverse_s_edge op1 = true) ∧
    (reverse_t_edge Example.op = true → reverse_t_edge op1 = true).
Proof.
  eexists. split; [reflexivity|].
  apply (compute_gain_twice Example.op). reflexivity.
Defined.

(** ** The way back *)

(** X9. After a move is applied, the exchange of the same two positions,
    computed on caches that hold for the new routes, can put the two
    original routes back (with the two flags of the first move exchanged);
    so its [stored_gain] is at least the opposite of the first one: the
    two stored gains never sum to less than 0. *)
Theorem gain_of_the_way_back
    input sol sol' s sv sr t tv tr (op op1 op2 op' op1' : CrossExchange) :
  CrossExchange_new input sol s sv sr t tv tr = Some op →
  wf_input input → wf_route input sol sv s → wf_route input sol tv t →
  cache_holds input sol sv s sr → cache_holds input sol tv t tr →
  compute_gain op = Some op1 → apply op1 = Some op2 →
  CrossExchange_new input sol' (s_route op2) sv sr (t_route op2) tv tr = Some op' →
  wf_route input sol' sv (s_route op2) → wf_route input sol' tv (t_route op2) →
  cache_holds input sol' sv (s_route op2) sr →
  cache_holds input sol' tv (t_route op2) tr →
  compute_gain op' = Some op1' →
  (∃ op3, apply (with_flags op1' (reverse_t_edge op1) (reverse_s_edge op1)) = Some op3 ∧
          s_route op3 = s ∧ t_route op3 = t) ∧
  0 ≤ stored_gain op1 + stored_gain op1'.
Proof.
  intros Hnew Hwf Hs Ht Hcs Hct Hop1 Hop2 Hnew' Hs' Ht' Hcs' Hct' Hop1'.
  destruct (orientation_saving _ _ _ _ _ _ _ _ _ Hnew Hwf Hs Ht Hcs Hct)
    as (op1a & v_source & v_target & Hop1a & Hvs & Hvt & Eg & Eft & Efs & Hall).
  rewrite Hop1 in Hop1a. injection Hop1a as <-.
  destruct (Hall (reverse_s_edge op1) (reverse_t_edge op1)) as (op2a & Hop2a & Hsave).
  rewrite with_flags_id, Hop2 in Hop2a. injection Hop2a as <-.
  assert ((route_cost input v_source s + route_cost input v_target t)
          - (route_cost input v_source (s_route op2)
             + route_cost input v_target (t_route op2)) = stored_gain op1) as Hgain
    by (rewrite Hsave, Eg, Eft, Efs; repeat case_bool_decide; lia).
  clear Hsave.
  destruct (orientation_saving _ _ _ _ _ _ _ _ _ Hnew' Hwf Hs' Ht' Hcs' Hct')
    as (op1b & v_source' & v_target' & Hop1b & Hvs' & Hvt' & Eg' & _ & _ & Hall').
  rewrite Hop1' in Hop1b. injection Hop1b as <-.
  assert (v_source' = v_source) as -> by congruence.
  assert (v_target' = v_target) as -> by congruence.
  destruct (Hall' (reverse_t_edge op1) (reverse_s_edge op1)) as (op3 & Hop3 & Hsave').
  assert (s_route op3 = s ∧ t_route op3 = t) as [Es Et].
  { apply CrossExchange_new_inv in Hnew
      as (Hassert & _ & _ & Hsr & _ & Hsk & Htr & _ & Htk & _ & _).
    apply CrossExchange_new_inv in Hnew'
      as (_ & _ & _ & Hsr' & _ & Hsk' & Htr' & _ & Htk' & _ & _).
    destruct (compute_gain_frame _ _ Hop1) as (_ & _ & E3 & E4 & _ & E6 & _ & E8 & _).
    destruct (compute_gain_frame _ _ Hop1')
      as (_ & _ & E3' & E4' & _ & E6' & _ & E8' & _).
    rewrite Hsr in E3. rewrite Htr in E4. rewrite Hsk in E6. rewrite Htk in E8.
    rewrite Hsr' in E3'. rewrite Htr' in E4'. rewrite Hsk' in E6'. rewrite Htk' in E8'.
    destruct Hassert as (_ & _ & _ & Hlsr & Hltr).
    pose proof Hop2 as Hinv.
    apply apply_inv in Hinv as (a & b & x & y & Ha & Hb & Hx & Hy & Hop2eq).
    rewrite E3, E6 in Ha, Hb. rewrite E4, E8 in Hx, Hy.
    rewrite E3, E4, E6, E8 in Hop2eq.
    apply apply_inv in Hop3 as (a' & b' & x' & y' & Ha' & Hb' & Hx' & Hy' & ->).
    simpl in Ha', Hb', Hx', Hy' |- *.
    rewrite E3', E6' in Ha', Hb' |- *. rewrite E4', E8' in Hx', Hy' |- *.
    rewrite Hop2eq in Ha', Hb', Hx', Hy' |- *. simpl in Ha', Hb', Hx', Hy' |- *.
    destruct (reverse_s_edge op1), (reverse_t_edge op1);
      rewrite put_edge_lookup_l in Ha', Hx' by lia;
      rewrite put_edge_lookup_r in Hb', Hy' by lia;
      simplify_eq; rewrite !put_edge_put_edge;
      split; by apply put_edge_id. }
  split; [eauto|].
  rewrite Es, Et in Hsave'.
  destruct (reverse_s_edge op1), (reverse_t_edge op1); lia.
Qed.

Lemma Example_wf_route_after_s :
  wf_route Example.input sol_state_after 0 [3; 2]%nat.
Proof.
  repeat split; simpl; try lia.
  - solve_Forall; lia.
  - eexists; split; reflexivity.
  - eexists; split; reflexivity.
Qed.

Lemma Example_wf_route_after_t :
  wf_route Example.input sol_state_after 1 [0; 1]%nat.
Proof.
  repeat split; simpl; try lia.
  - solve_Forall; lia.
  - eexists; split; reflexivity.
  - eexists; split; reflexivity.
Qed.

Lemma gain_of_the_way_back_witness :
  ∃ op1 op', compute_gain Example.op = Some op1 ∧
    CrossExchange_new Example.input sol_state_after
      [3; 2]%nat 0%nat 0%nat [0; 1]%nat 1%nat 0%nat = Some op' ∧
  ∃ op1', compute_gain op' = Some op1' ∧
    (∃ op3, apply (with_flags op1' (reverse_t_edge op1) (reverse_s_edge op1))
            = Some op3 ∧
            s_route op3 = [0; 1]%nat ∧ t_route op3 = [2; 3]%nat) ∧
    0 ≤ stored_gain op1 + stored_gain op1'.
Proof.
  eexists _, _. split; [reflexivity|]. split; [reflexivity|].
  eexists. split; [reflexivity|].
  eapply (gain_of_the_way_back
            Example.input Example.sol_state sol_state_after
            [0; 1]%nat 0%nat 0%nat [2; 3]%nat 1%nat 0%nat Example.op).
  - reflexivity.
  - exact Example_wf_input.
  - exact Example_wf_route_s.
  - exact Example_wf_route_t.
  - eexists; split; reflexivity.
  - eexists; split; reflexivity.
  - reflexivity.
  - reflexivity.
  - reflexivity.
  - exact Example_wf_route_after_s.
  - exact Example_wf_route_after_t.
  - eexists; split; reflexivity.
  - eexists; split; reflexivity.
  - reflexivity.
Defined.

(** * Further properties of the parser *)

(** ** Getters *)

Lemma GetUint_inv (x : Value) (z : Z) :
  GetUint x = Ok z → x = Num (NInt z) ∧ 0 ≤ z < 2 ^ 32.
Proof.
  destruct x as [| |[z'|]| | |]; simpl; try discriminate.
  case_bool_decide; [|discriminate]. by intros [= ->].
Qed.

Lemma GetUint64_inv (x : Value) (z : Z) :
  GetUint64 x = Ok z → x = Num (NInt z) ∧ 0 ≤ z < 2 ^ 64.
Proof.
  destruct x as [| |[z'|]| | |]; simpl; try discriminate.
  case_bool_decide; [|discriminate]. by intros [= ->].
Qed.

Lemma GetInt64_inv (x : Value) (z : Z) :
  GetInt64 x = Ok z → x = Num (NInt z) ∧ - 2 ^ 63 ≤ z < 2 ^ 63.
Proof.
  destruct x as [| |[z'|]| | |]; simpl; try discriminate.
  case_bool_decide; [|discriminate]. by intros [= ->].
Qed.

Lemma HasMember_member (v : Value) (key : string) :
  HasMember v key = Ok true → ∃ x, member v key = Ok x.
Proof.
  destruct v; simpl; try discriminate. intros [= H].
  apply bool_decide_eq_true in H as [x ->]. eauto.
Qed.

(** ** Loops that append *)

Lemma for_each_Forall2 {A St B : Type} (body : nat → A → St → result St)
    (proj : St → list B) (R : A → B → Prop) (l : list A) :
  (∀ i x s s', x ∈ l → body i x s = Ok s' → ∃ b, proj s' = proj s ++ [b] ∧ R x b) →
  ∀ i s s', for_each body i l s = Ok s' →
    ∃ bs, proj s' = proj s ++ bs ∧ Forall2 R l bs.
Proof.
  induction l as [|x l IH]; intros Hbody i s s' H; simpl in H.
  - injection H as <-. exists []. by rewrite app_nil_r.
  - apply bind_Ok in H as (s1 & H1 & H).
    destruct (Hbody i x s s1 ltac:(left) H1) as (b & Hb & HR).
    destruct (IH ltac:(intros; eapply Hbody; [by right|done]) _ _ _ H)
      as (bs & Hbs & HRs).
    exists (b :: bs). split; [|by constructor].
    by rewrite Hbs, Hb, <- app_assoc.
Qed.

Lemma for_each_invariant_at {A St : Type} (P : nat → St → Prop)
    (body : nat → A → St → result St) (l : list A) :
  (∀ (k : nat) (x : A) (s1 s2 : St),
      l !! k = Some x → P k s1 → body k x s1 = Ok s2 → P (S k) s2) →
  ∀ (s s' : St), P 0%nat s → for_each body 0 l s = Ok s' → P (length l) s'.
Proof.
  intros Hstep.
  assert (∀ (rest : list A) (i : nat) (s s' : St),
            (∀ k x, rest !! k = Some x → l !! (i + k)%nat = Some x) →
            length l = (i + length rest)%nat →
            P i s → for_each body i rest s = Ok s' → P (length l) s') as Hgen.
  { induction rest as [|x rest IH]; intros i s s' Hrest Hlen Hs H; simpl in H.
    - injection H as <-. simpl in Hlen. by rewrite Hlen, Nat.add_0_r.
    - apply bind_Ok in H as (s1 & H1 & H).
      apply (IH (S i) s1 s'); [| |  |exact H].
      + intros k y Hk. replace (S i + k)%nat with (i + S k)%nat by lia.
        by apply Hrest.
      + simpl in Hlen. lia.
      + apply (Hstep i x s); [|done|done].
        specialize (Hrest 0%nat x eq_refl). by rewrite Nat.add_0_r in Hrest. }
  intros s s' Hs H. by apply (Hgen l 0%nat s s').
Qed.

Lemma map_each_Forall2 {A B : Type} (body : nat → A → result B) (R : A → B → Prop)
    (l : list A) :
  (∀ i x y, body i x = Ok y → R x y) →
  ∀ i l', map_each body i l = Ok l' → Forall2 R l l'.
Proof.
  intros Hbody. induction l as [|x l IH]; intros i l' H; simpl in H.
  - injection H as <-. constructor.
  - apply bind_Ok in H as (y & Hy & H). apply bind_Ok in H as (ys & Hys & H).
    injection H as <-. constructor; eauto.
Qed.

(** An accepted line of the matrix is the array of the costs stored. *)
Lemma matrix_line_value (n i : nat) (line : Value) (costs : list Z) :
  matrix_line n i line = Ok costs →
  line = Array ((λ z, Num (NInt z)) <$> costs) ∧ length costs = n ∧
  Forall (λ c, 0 ≤ c < 2 ^ 32) costs.
Proof.
  unfold matrix_line. intros H. destruct line as [| | | |mi|]; try discriminate.
  case_bool_decide as Hlen; [discriminate|].
  apply (map_each_Forall2 _ (λ e z, e = Num (NInt z) ∧ 0 ≤ z < 2 ^ 32)) in H.
  - assert (mi = (λ z, Num (NInt z)) <$> costs ∧ Forall (λ c, 0 ≤ c < 2 ^ 32) costs)
      as [-> Hr].
    { clear Hlen. induction H as [|e z mi costs [-> Hz] _ [-> IH]]; [done|].
      split; [done|by constructor]. }
    rewrite length_fmap in Hlen. split; [done|]. split; [|done].
    destruct (decide (length costs = n)); [done|by destruct Hlen].
  - intros j x y Hb. destruct (IsUint x); simpl in Hb; [|discriminate].
    by apply GetUint_inv.
Qed.

Lemma Forall2_right {A B : Type} (R : A → B → Prop) (Q : B → Prop)
    (l : list A) (k : list B) :
  (∀ x y, R x y → Q y) → Forall2 R l k → Forall Q k.
Proof. intros HQ. induction 1; constructor; eauto. Qed.

Lemma matrix_lines_value (n : nat) (lines : list Value) (matrix_input : Matrix) :
  Forall2 (λ line row, line = Array ((λ z, Num (NInt z)) <$> row) ∧
                       length row = n ∧ Forall (λ c, 0 ≤ c < 2 ^ 32) row)
          lines matrix_input →
  lines = (λ row, Array ((λ z, Num (NInt z)) <$> row)) <$> matrix_input ∧
  Forall (λ row, length row = n) matrix_input ∧
  costs_below (2 ^ 32) matrix_input.
Proof.
  induction 1 as [|line row ls rows (-> & Hl & Hr) _ IH].
  - split; [done|]. split; constructor.
  - destruct IH as (-> & IH2 & IH3).
    split; [done|]. split; by constructor.
Qed.

Section parser_reads.
Variable Index_bits : Z.
Variable DEFAULT_PROFILE : string.
Variable default_tw : TimeWindow.
Variable tw_lt : TimeWindow → TimeWindow → bool.
Variable Document_Parse : string → ParseResult.
Variable libosrm_available : string → bool.

Local Abbreviation parse :=
  (parse Index_bits DEFAULT_PROFILE default_tw tw_lt Document_Parse libosrm_available).
Local Abbreviation vehicle_read := (vehicle_read default_tw).
Local Abbreviation job_read := (job_read default_tw tw_lt).
Local Abbreviation place_with_index := (place_with_index Index_bits).
Local Abbreviation job_location_with_index := (job_location_with_index Index_bits).

Lemma vehicle_index_value v key v_id n s1 s2 (oi : option nat) :
  vehicle_index Index_bits v key v_id n s1 s2 = Ok oi →
  (HasMember v key = Ok false ∧ oi = None) ∨
  (∃ z, member v key = Ok (Num (NInt z)) ∧ 0 ≤ z < 2 ^ 32 ∧
        (to_Index Index_bits z < n)%nat ∧ oi = Some (to_Index Index_bits z)).
Proof.
  unfold vehicle_index. intros H.
  apply bind_Ok in H as ([] & Hhas & H).
  - right. apply bind_Ok in H as (x & Hx & H).
    destruct (IsUint x); simpl in H; [|discriminate].
    apply bind_Ok in H as (z & Hz & H).
    apply GetUint_inv in Hz as [-> Hz].
    case_bool_decide; [discriminate|]. injection H as <-.
    exists z. repeat split; (done || lia).
  - left. by injection H as <-.
Qed.

Lemma vehicle_place_value json key_index key n (oi : option nat) place :
  ((HasMember json key_index = Ok false ∧ oi = None) ∨
   (∃ z, member json key_index = Ok (Num (NInt z)) ∧ 0 ≤ z < 2 ^ 32 ∧
         (to_Index Index_bits z < n)%nat ∧ oi = Some (to_Index Index_bits z))) →
  vehicle_place json key oi = Ok place →
  place_with_index n json key_index key place.
Proof.
  unfold vehicle_place. intros Hoi H.
  apply bind_Ok in H as (has & Hhas & H).
  destruct Hoi as [[Hno ->]|(z & Hz & Hr & Hn & ->)].
  - left. by injection H as <-.
  - right. exists z. do 3 (split; [done|]). destruct has.
    + right. apply bind_Ok in H as (c & Hc & H). injection H as <-. eauto.
    + left. by injection H as <-.
Qed.

Lemma add_vehicle_with_index_value n i json st st' :
  add_vehicle_with_index Index_bits DEFAULT_PROFILE default_tw n i json st = Ok st' →
  ∃ v, st'.1 = add_vehicle st.1 v ∧ vehicle_read json v ∧
       place_with_index n json "start_index" "start" (vehicle_start v) ∧
       place_with_index n json "end_index" "end" (vehicle_end v) ∧
       check_profile DEFAULT_PROFILE json st.2 = Ok st'.2.
Proof.
  unfold add_vehicle_with_index. destruct st as [input common]. intros H.
  apply bind_Ok in H as (valid & Hvalid & H).
  destruct valid; simpl in H; [|discriminate].
  apply bind_Ok in H as (id & Hid & H).
  apply bind_Ok in H as (v_id & Hv_id & H).
  apply GetUint_inv in Hv_id as [-> Hrange].
  apply bind_Ok in H as (start_index & Hsi & H).
  apply bind_Ok in H as (end_index & Hei & H).
  apply bind_Ok in H as (start & Hstart & H).
  apply bind_Ok in H as (end_ & Hend & H).
  apply bind_Ok in H as (capacity & Hcap & H).
  apply bind_Ok in H as (skills & Hskills & H).
  apply bind_Ok in H as (tw & Htw & H).
  apply bind_Ok in H as (common' & Hprofile & H).
  injection H as <-. eexists. split; [reflexivity|]. simpl.
  split; [done|].
  split; [eapply vehicle_place_value; [|exact Hstart];
          by eapply vehicle_index_value|].
  split; [eapply vehicle_place_value; [|exact Hend];
          by eapply vehicle_index_value|].
  done.
Qed.

Lemma add_vehicle_with_coords_value i json st st' :
  add_vehicle_with_coords DEFAULT_PROFILE default_tw i json st = Ok st' →
  ∃ v, st'.1 = add_vehicle st.1 v ∧ vehicle_read json v ∧
       place_with_coords json "start" (vehicle_start v) ∧
       place_with_coords json "end" (vehicle_end v) ∧
       check_profile DEFAULT_PROFILE json st.2 = Ok st'.2.
Proof.
  unfold add_vehicle_with_coords. destruct st as [input common]. intros H.
  apply bind_Ok in H as (valid & Hvalid & H).
  destruct valid; simpl in H; [|discriminate].
  apply bind_Ok in H as (has_start & Hhs & H).
  apply bind_Ok in H as (start & Hstart & H).
  apply bind_Ok in H as (has_end & Hhe & H).
  apply bind_Ok in H as (end_ & Hend & H).
  apply bind_Ok in H as (id & Hid & H).
  apply bind_Ok in H as (v_id & Hv_id & H).
  apply GetUint_inv in Hv_id as [-> Hrange].
  apply bind_Ok in H as (capacity & Hcap & H).
  apply bind_Ok in H as (skills & Hskills & H).
  apply bind_Ok in H as (tw & Htw & H).
  apply bind_Ok in H as (common' & Hprofile & H).
  injection H as <-. eexists. split; [reflexivity|]. simpl.
  split; [done|].
  split.
  { destruct has_start.
    - right. apply bind_Ok in Hstart as (c & Hc & Hstart).
      injection Hstart as <-. exists c, (Location_of_coords c). done.
    - left. by injection Hstart as <-. }
  split; [|done].
  destruct has_end.
  - right. apply bind_Ok in Hend as (c & Hc & Hend).
    injection Hend as <-. exists c, (Location_of_coords c). done.
  - left. by injection Hend as <-.
Qed.

Lemma Job_new_value id location service amount skills tws job :
  Job_new tw_lt id location service amount skills tws = Ok job →
  job = {| job_id := id; job_location := location; job_service := service;
           job_amount := amount; job_skills := skills; job_tws := tws |}.
Proof.
  unfold Job_new. intros H.
  case_bool_decide; [discriminate|].
  case_bool_decide; [|discriminate].
  by injection H as <-.
Qed.

Lemma add_job_with_index_value n i json input input' :
  add_job_with_index Index_bits default_tw tw_lt n i json input = Ok input' →
  ∃ j, input' = add_job input j ∧ job_read json j ∧
       job_location_with_index n json (job_location j).
Proof.
  unfold add_job_with_index. intros H.
  destruct (IsObject json); simpl in H; [|discriminate].
  apply bind_Ok in H as (has_id & Hhas_id & H).
  apply bind_Ok in H as (id_ok & Hid_ok & H).
  destruct id_ok; simpl in H; [|discriminate].
  apply bind_Ok in H as (id & Hid & H).
  apply bind_Ok in H as (j_id & Hj_id & H).
  apply GetUint64_inv in Hj_id as [-> Hrange].
  apply bind_Ok in H as (has_index & Hhas_index & H).
  apply bind_Ok in H as (index_ok & Hindex_ok & H).
  destruct index_ok; simpl in H; [|discriminate].
  apply bind_Ok in H as (x & Hx & H).
  apply bind_Ok in H as (z & Hz & H).
  apply GetUint_inv in Hz as [-> Hz].
  case_bool_decide; [discriminate|].
  apply bind_Ok in H as (has_location & Hhas_location & H).
  apply bind_Ok in H as (job_loc & Hjob_loc & H).
  apply bind_Ok in H as (service & Hservice & H).
  apply bind_Ok in H as (amount & Hamount & H).
  apply bind_Ok in H as (skills & Hskills & H).
  apply bind_Ok in H as (tws & Htws & H).
  apply bind_Ok in H as (current_job & Hjob & H).
  injection H as <-. exists current_job. split; [done|].
  apply Job_new_value in Hjob as ->. simpl.
  split; [done|].
  exists z. split; [done|]. split; [lia|]. split; [lia|].
  destruct has_location.
  - right. apply bind_Ok in Hjob_loc as (c & Hc & Hjob_loc).
    injection Hjob_loc as <-. eauto.
  - left. by injection Hjob_loc as <-.
Qed.

Lemma add_job_with_coords_value i json input input' :
  add_job_with_coords default_tw tw_lt i json input = Ok input' →
  ∃ j c, input' = add_job input j ∧ job_read json j ∧
         parse_coordinates json "location" = Ok c ∧
         job_location j = Location_of_coords c.
Proof.
  unfold add_job_with_coords. intros H.
  destruct (IsObject json); simpl in H; [|discriminate].
  apply bind_Ok in H as (has_id & Hhas_id & H).
  apply bind_Ok in H as (id_ok & Hid_ok & H).
  destruct id_ok; simpl in H; [|discriminate].
  apply bind_Ok in H as (id & Hid & H).
  apply bind_Ok in H as (j_id & Hj_id & H).
  apply GetUint64_inv in Hj_id as [-> Hrange].
  apply bind_Ok in H as (has_location & Hhas_location & H).
  apply bind_Ok in H as (location_ok & Hlocation_ok & H).
  destruct location_ok; simpl in H; [|discriminate].
  apply bind_Ok in H as (c & Hc & H).
  apply bind_Ok in H as (service & Hservice & H).
  apply bind_Ok in H as (amount & Hamount & H).
  apply bind_Ok in H as (skills & Hskills & H).
  apply bind_Ok in H as (tws & Htws & H).
  apply bind_Ok in H as (current_job & Hjob & H).
  injection H as <-. exists current_job, c. split; [done|].
  apply Job_new_value in Hjob as ->. simpl. done.
Qed.

(** ** The two loops *)

Lemma loops_value
    (bodyv : nat → Value → Input * string → result (Input * string))
    (bodyj : nat → Value → Input → result Input)
    (Rv : Value → Vehicle → Prop) (Rj : Value → Job → Prop)
    (input0 : Input) (json_vehicles json_jobs : list Value)
    (st : Input * string) (input1 : Input) :
  (∀ i x s s', bodyv i x s = Ok s' → ∃ v, s'.1 = add_vehicle s.1 v ∧ Rv x v) →
  (∀ i x s s', bodyj i x s = Ok s' → ∃ j, s' = add_job s j ∧ Rj x j) →
  input_vehicles input0 = [] → input_jobs input0 = [] →
  for_each bodyv 0 json_vehicles (input0, "") = Ok st →
  for_each bodyj 0 json_jobs st.1 = Ok input1 →
  input_geometry input1 = input_geometry input0 ∧
  input_matrix input1 = input_matrix input0 ∧
  input_routing input1 = input_routing input0 ∧
  Forall2 Rv json_vehicles (input_vehicles input1) ∧
  Forall2 Rj json_jobs (input_jobs input1).
Proof.
  intros Hbodyv Hbodyj Hv0 Hj0 Hv Hj.
  pose (same (a b : Input) :=
          input_geometry a = input_geometry b ∧ input_matrix a = input_matrix b ∧
          input_routing a = input_routing b).
  assert (same st.1 input0 ∧ input_jobs st.1 = []) as [Hsame1 Hjobs1].
  { eapply (for_each_invariant
              (λ s : Input * string, same s.1 input0 ∧ input_jobs s.1 = []));
      [| |exact Hv]; [|done].
    intros k x s1 s2 _ [(E1 & E2 & E3) E4] Hb.
    destruct (Hbodyv _ _ _ _ Hb) as (v & -> & _). by simpl. }
  destruct (for_each_Forall2 bodyv (λ s, input_vehicles s.1) Rv json_vehicles
              ltac:(intros i x s s' _ Hb; destruct (Hbodyv _ _ _ _ Hb) as (v & -> & HR);
                    by exists v) _ _ _ Hv) as (vs & Hvs & HRv).
  simpl in Hvs. rewrite Hv0 in Hvs. simpl in Hvs.
  assert (same input1 st.1 ∧ input_vehicles input1 = input_vehicles st.1)
    as [Hsame2 Hvs2].
  { eapply (for_each_invariant
              (λ s : Input, same s st.1 ∧ input_vehicles s = input_vehicles st.1));
      [| |exact Hj]; [|done].
    intros k x s1 s2 _ [(E1 & E2 & E3) E4] Hb.
    destruct (Hbodyj _ _ _ _ Hb) as (j & -> & _). by simpl. }
  destruct (for_each_Forall2 bodyj input_jobs Rj json_jobs
              ltac:(intros i x s s' _ Hb; destruct (Hbodyj _ _ _ _ Hb) as (j & -> & HR);
                    by exists j) _ _ _ Hj) as (js & Hjs & HRj).
  rewrite Hjobs1 in Hjs. simpl in Hjs.
  destruct Hsame1 as (A1 & A2 & A3). destruct Hsame2 as (B1 & B2 & B3).
  rewrite B1, B2, B3, A1, A2, A3, Hvs2, Hvs, Hjs. done.
Qed.

Lemma parse_Ok_inv cl_args input :
  parse cl_args = Ok input →
  ∃ json_input json_jobs json_vehicles (has_matrix : bool) input1 common wrapper,
    Document_Parse (cl_input cl_args) = Parsed json_input ∧
    nonempty_array json_input "jobs" "Invalid jobs." = Ok json_jobs ∧
    nonempty_array json_input "vehicles" "Invalid vehicles." = Ok json_vehicles ∧
    HasMember json_input "matrix" = Ok has_matrix ∧
    routing_wrapper libosrm_available cl_args common = Ok wrapper ∧
    input = set_routing input1 wrapper ∧
    if has_matrix then
      ∃ lines matrix_input st,
        member json_input "matrix" = Ok (Array lines) ∧
        map_each (matrix_line (length lines)) 0 lines = Ok matrix_input ∧
        for_each (add_vehicle_with_index Index_bits DEFAULT_PROFILE default_tw
                    (length lines)) 0 json_vehicles
                 (set_matrix (set_geometry Input_new (cl_geometry cl_args))
                             matrix_input, "") = Ok st ∧
        for_each (add_job_with_index Index_bits default_tw tw_lt (length lines))
                 0 json_jobs st.1 = Ok input1 ∧
        common = st.2
    else
      ∃ st,
        for_each (add_vehicle_with_coords DEFAULT_PROFILE default_tw) 0 json_vehicles
                 (set_geometry Input_new (cl_geometry cl_args), "") = Ok st ∧
        for_each (add_job_with_coords default_tw tw_lt) 0 json_jobs st.1
          = Ok input1 ∧
        common = st.2.
Proof.
  unfold io.parse. intros H.
  destruct (Document_Parse (cl_input cl_args)) as [|json_input]; [discriminate|].
  apply bind_Ok in H as (json_jobs & Hjobs & H).
  apply bind_Ok in H as (json_vehicles & Hvehicles & H).
  apply bind_Ok in H as (has_matrix & Hhas & H).
  apply bind_Ok in H as ([input1 common] & Hloops & H).
  apply bind_Ok in H as (wrapper & Hw & H). injection H as <-.
  exists json_input, json_jobs, json_vehicles, has_matrix, input1, common, wrapper.
  do 6 (split; [done|]).
  destruct has_matrix.
  - apply bind_Ok in Hloops as (matrix & Hmatrix & Hloops).
    destruct matrix; try discriminate.
    apply bind_Ok in Hloops as (matrix_input & Hm & Hloops).
    apply bind_Ok in Hloops as (st & Hv & Hloops).
    apply bind_Ok in Hloops as (input2 & Hj & Hloops).
    injection Hloops as -> <-. eauto 10.
  - apply bind_Ok in Hloops as (st & Hv & Hloops).
    apply bind_Ok in Hloops as (input2 & Hj & Hloops).
    injection Hloops as -> <-. eauto 10.
Qed.

Lemma nonempty_array_nonempty json_input key invalid (l : list Value) :
  nonempty_array json_input key invalid = Ok l → l ≠ [].
Proof.
  unfold nonempty_array. intros H.
  apply bind_Ok in H as ([] & _ & H); [|discriminate].
  apply bind_Ok in H as (v & _ & H).
  destruct v as [| | | |[|x rest]|]; try discriminate. by injection H as <-.
Qed.

(** X10. An instance returned by [parse] has one vehicle per element
    of the [vehicles] array and one job per element of the [jobs] array,
    in the order of the document, each holding what the helpers read
    from its element (identifier, capacity or amount, skills, service,
    time windows); the identifier of a vehicle is below [2 ^ 32], that
    of a job below [2 ^ 64]; neither list is empty, the geometry flag is
    the one of the command line and a routing wrapper is set. *)
Theorem parse_keeps_order cl_args input :
  parse cl_args = Ok input →
  ∃ json_input json_jobs json_vehicles,
    Document_Parse (cl_input cl_args) = Parsed json_input ∧
    member json_input "jobs" = Ok (Array json_jobs) ∧
    member json_input "vehicles" = Ok (Array json_vehicles) ∧
    Forall2 vehicle_read json_vehicles (input_vehicles input) ∧
    Forall2 job_read json_jobs (input_jobs input) ∧
    input_vehicles input ≠ [] ∧ input_jobs input ≠ [] ∧
    input_geometry input = cl_geometry cl_args ∧
    is_Some (input_routing input).
Proof.
  intros H.
  destruct (parse_Ok_inv _ _ H)
    as (json_input & json_jobs & json_vehicles & has_matrix & input1 & common
        & wrapper & Hdoc & Hjobs & Hvehicles & Hhas & Hw & -> & Hloops).
  exists json_input, json_jobs, json_vehicles.
  split; [done|].
  split; [by eapply nonempty_array_inv|].
  split; [by eapply nonempty_array_inv|].
  apply nonempty_array_nonempty in Hjobs, Hvehicles.
  assert (input_geometry input1 = cl_geometry cl_args ∧
          Forall2 vehicle_read json_vehicles (input_vehicles input1) ∧
          Forall2 job_read json_jobs (input_jobs input1)) as (Hg & Hvs & Hjs).
  { destruct has_matrix.
    - destruct Hloops as (lines & matrix_input & st & _ & _ & Hv & Hj & _).
      edestruct (loops_value
                   (add_vehicle_with_index Index_bits DEFAULT_PROFILE default_tw
                      (length lines))
                   (add_job_with_index Index_bits default_tw tw_lt (length lines))
                   vehicle_read job_read) as (? & _ & _ & ? & ?);
        [| | | |exact Hv|exact Hj|done]; [| |done..].
      + intros i x s s' Hb.
        destruct (add_vehicle_with_index_value _ _ _ _ _ Hb) as (v & ? & ? & _).
        eauto.
      + intros i x s s' Hb.
        destruct (add_job_with_index_value _ _ _ _ _ Hb) as (j & ? & ? & _).
        eauto.
    - destruct Hloops as (st & Hv & Hj & _).
      edestruct (loops_value
                   (add_vehicle_with_coords DEFAULT_PROFILE default_tw)
                   (add_job_with_coords default_tw tw_lt)
                   vehicle_read job_read) as (? & _ & _ & ? & ?);
        [| | | |exact Hv|exact Hj|done]; [| |done..].
      + intros i x s s' Hb.
        destruct (add_vehicle_with_coords_value _ _ _ _ Hb) as (v & ? & ? & _).
        eauto.
      + intros i x s s' Hb.
        destruct (add_job_with_coords_value _ _ _ _ Hb) as (j & c & ? & ? & _).
        eauto. }
  simpl. do 2 (split; [done|]).
  split; [intros E; rewrite E in Hvs; by inversion Hvs|].
  split; [intros E; rewrite E in Hjs; by inversion Hjs|].
  split; [done|eauto].
Qed.

(** ** Documents with a matrix *)

Lemma to_Index_le (z : Z) : 0 ≤ z → (Z.of_nat (to_Index Index_bits z) ≤ z).
Proof.
  intros Hz. unfold to_Index.
  destruct (decide (0 < 2 ^ Index_bits)) as [Hpos|Hpos].
  - pose proof (Z.mod_pos_bound z _ Hpos). pose proof (Z.mod_le z _ Hz Hpos). lia.
  - assert (2 ^ Index_bits = 0) as ->
      by (pose proof (Z.pow_nonneg 2 Index_bits); lia).
    rewrite Z.mod_0_r. lia.
Qed.

Lemma parse_with_matrix_value cl_args input json_input (lines : list Value) :
  parse cl_args = Ok input →
  Document_Parse (cl_input cl_args) = Parsed json_input →
  member json_input "matrix" = Ok (Array lines) →
  ∃ json_jobs json_vehicles,
    member json_input "jobs" = Ok (Array json_jobs) ∧
    member json_input "vehicles" = Ok (Array json_vehicles) ∧
    Forall2 (λ line row, line = Array ((λ z, Num (NInt z)) <$> row) ∧
                         length row = length lines ∧
                         Forall (λ c, 0 ≤ c < 2 ^ 32) row)
            lines (input_matrix input) ∧
    Forall2 (λ json v,
               place_with_index (length lines) json "start_index" "start"
                                (vehicle_start v) ∧
               place_with_index (length lines) json "end_index" "end"
                                (vehicle_end v))
            json_vehicles (input_vehicles input) ∧
    Forall2 (λ json j, job_location_with_index (length lines) json (job_location j))
            json_jobs (input_jobs input).
Proof.
  intros H Hdoc' Hlines.
  destruct (parse_Ok_inv _ _ H)
    as (json_input' & json_jobs & json_vehicles & has_matrix & input1 & common
        & wrapper & Hdoc & Hjobs & Hvehicles & Hhas & Hw & -> & Hloops).
  rewrite Hdoc' in Hdoc. injection Hdoc as <-.
  rewrite (member_HasMember _ _ _ Hlines) in Hhas. injection Hhas as <-.
  destruct Hloops as (lines' & matrix_input & st & Hlines' & Hm & Hv & Hj & _).
  rewrite Hlines in Hlines'. injection Hlines' as <-.
  exists json_jobs, json_vehicles.
  split; [by eapply nonempty_array_inv|].
  split; [by eapply nonempty_array_inv|].
  edestruct (loops_value
               (add_vehicle_with_index Index_bits DEFAULT_PROFILE default_tw
                  (length lines))
               (add_job_with_index Index_bits default_tw tw_lt (length lines))
               (λ json v,
                  place_with_index (length lines) json "start_index" "start"
                                   (vehicle_start v) ∧
                  place_with_index (length lines) json "end_index" "end"
                                   (vehicle_end v))
               (λ json j, job_location_with_index (length lines) json
                                                  (job_location j)))
    as (_ & Hmat & _ & Hvs & Hjs); [| | | |exact Hv|exact Hj|]; [| |done..|].
  { intros i x s s' Hb.
    destruct (add_vehicle_with_index_value _ _ _ _ _ Hb) as (v & ? & _ & ? & ? & _).
    eauto. }
  { intros i x s s' Hb.
    destruct (add_job_with_index_value _ _ _ _ _ Hb) as (j & ? & _ & ?).
    eauto. }
  simpl in Hmat |- *. rewrite Hmat. split; [|done].
  eapply map_each_Forall2; [|exact Hm].
  intros i x y. apply matrix_line_value.
Qed.

(** X11. The instance returned for a document with a matrix holds
    that matrix, line by line and entry by entry, every cost below
    [2 ^ 32]; the start and the end of a vehicle are exactly those given
    by [start_index] and [end_index], stored in an [Index] (coordinates
    without an index are ignored), and the location of a job has the
    index [location_index], which is below the size of the matrix before
    it is stored. *)
Theorem parse_with_matrix cl_args input json_input (lines : list Value) :
  parse cl_args = Ok input →
  Document_Parse (cl_input cl_args) = Parsed json_input →
  member json_input "matrix" = Ok (Array lines) →
  ∃ json_jobs json_vehicles,
    member json_input "jobs" = Ok (Array json_jobs) ∧
    member json_input "vehicles" = Ok (Array json_vehicles) ∧
    lines = (λ row, Array ((λ z, Num (NInt z)) <$> row)) <$> input_matrix input ∧
    costs_below (2 ^ 32) (input_matrix input) ∧
    Forall2 (λ json v,
               place_with_index (length lines) json "start_index" "start"
                                (vehicle_start v) ∧
               place_with_index (length lines) json "end_index" "end"
                                (vehicle_end v))
            json_vehicles (input_vehicles input) ∧
    Forall2 (λ json j, job_location_with_index (length lines) json (job_location j))
            json_jobs (input_jobs input).
Proof.
  intros H Hdoc Hlines.
  destruct (parse_with_matrix_value _ _ _ _ H Hdoc Hlines)
    as (json_jobs & json_vehicles & Hjobs & Hvehicles & Hm & Hvs & Hjs).
  exists json_jobs, json_vehicles. do 2 (split; [done|]).
  destruct (matrix_lines_value _ _ _ Hm) as (Hrt & _ & Hcosts).
  done.
Qed.

(** X12. An instance returned by [parse] for a document with a
    matrix is well formed: the matrix is square and covers the index of
    every job and of every start and end.  So on such an instance, on
    routes and caches of matching sizes, the three methods of an operator
    that the constructor accepts read in bounds; and when the two cache
    entries hold their defined values every gain computed is within
    [5 * 2 ^ 32] of 0 and [stored_gain] is within [10 * 2 ^ 32]: the
    signed 64-bit [Gain] does not overflow on parsed costs. *)
Theorem parsed_instance_fits_operator cl_args input json_input (lines : list Value) :
  parse cl_args = Ok input →
  Document_Parse (cl_input cl_args) = Parsed json_input →
  member json_input "matrix" = Ok (Array lines) →
  wf_input input ∧
  ∀ sol s sv sr t tv tr op,
    CrossExchange_new input sol s sv sr t tv tr = Some op →
    wf_route input sol sv s → wf_route input sol tv t →
    is_Some (is_valid op) ∧ is_Some (apply op) ∧ is_Some (compute_gain op) ∧
    (cache_holds input sol sv s sr → cache_holds input sol tv t tr →
     ∃ op1, compute_gain op = Some op1 ∧
       Z.abs (normal_s_gain op1) ≤ 5 * 2 ^ 32 ∧
       Z.abs (reversed_s_gain op1) ≤ 5 * 2 ^ 32 ∧
       Z.abs (normal_t_gain op1) ≤ 5 * 2 ^ 32 ∧
       Z.abs (reversed_t_gain op1) ≤ 5 * 2 ^ 32 ∧
       - 2 ^ 63 ≤ stored_gain op1 < 2 ^ 63).
Proof.
  intros H Hdoc Hlines.
  destruct (parse_with_matrix_value _ _ _ _ H Hdoc Hlines)
    as (json_jobs & json_vehicles & _ & _ & Hm & Hvs & Hjs).
  destruct (matrix_lines_value _ _ _ Hm) as (_ & Hsq & Hcosts).
  assert (length (input_matrix input) = length lines) as Hlen
    by (symmetry; by eapply Forall2_length).
  assert (wf_input input) as Hwf.
  { split; rewrite Hlen.
    - done.
    - eapply Forall2_right; [|exact Hjs]. simpl.
      intros json j (z & _ & Hz & _ & [[_ Hl]|(c & _ & Hl)]); unfold Job_index;
        rewrite Hl; simpl; (eexists; split; [reflexivity|]);
        pose proof (to_Index_le z ltac:(lia)); lia.
    - eapply Forall2_right; [|exact Hvs]. simpl.
      intros json v [Hr _] l Hl. rewrite Hl in Hr.
      destruct Hr as [[_ ?]|(z & _ & _ & Hn & [[_ Hr]|(c & _ & Hr)])];
        [done|injection Hr as ->..]; simpl; eauto.
    - eapply Forall2_right; [|exact Hvs]. simpl.
      intros json v [_ Hr] l Hl. rewrite Hl in Hr.
      destruct Hr as [[_ ?]|(z & _ & _ & Hn & [[_ Hr]|(c & _ & Hr)])];
        [done|injection Hr as ->..]; simpl; eauto. }
  split; [done|].
  intros sol s sv sr t tv tr op Hnew Hs Ht.
  pose proof Hnew as Hinv.
  apply CrossExchange_new_inv in Hinv
    as (Hassert & Hin & Hsol & Hsr & Hsv & Hsk & Htr & Htv & Htk & _ & _).
  pose proof Hassert as (Hne & Hls & Hlt & Hsr' & Htr').
  assert (wf_operator op) as Hop
    by (unfold wf_operator; rewrite Hin, Hsol, Hsr, Hsv, Hsk, Htr, Htv, Htk; done).
  split.
  { destruct (is_valid_value op Hop) as (?&?&?&?&?&?&?&?&?&?&?&?&H').
    destruct H' as (_&_&_&_&_&_&_&_&_&_&_&_&->). eauto. }
  split; [apply apply_defined; rewrite ?Hsr, ?Hsk, ?Htr, ?Htk; lia|].
  split; [destruct (compute_gain_defined op Hop) as [op1 ->]; eauto|].
  intros Hcs Hct.
  destruct (compute_gain_fits_Gain (2 ^ 32) _ _ _ _ _ _ _ _ _ ltac:(lia) Hcosts Hnew
              Hwf Hs Ht Hcs Hct) as (op1 & Hop1 & G1 & G2 & G3 & G4 & G5).
  exists op1. do 5 (split; [done|]). lia.
Qed.

(** ** Documents without a matrix *)


(** ** Profiles and routing *)

Lemma check_profile_value json common common' :
  check_profile DEFAULT_PROFILE json common = Ok common' →
  ∃ q, current_profile DEFAULT_PROFILE json = Ok q ∧
       ((common = "" ∧ common' = q) ∨ (common ≠ "" ∧ q = common ∧ common' = common)).
Proof.
  unfold check_profile, current_profile. intros H.
  apply bind_Ok in H as (has & Hhas & H). rewrite Hhas. simpl.
  apply bind_Ok in H as (q & Hq & H). exists q. split; [done|].
  case_bool_decide as Hc; [left; by injection H as <-|].
  case_bool_decide as Hq'; [discriminate|]. injection H as <-.
  right. split; [done|]. split; [|done].
  destruct (decide (q = common)); [done|by destruct Hq'].
Qed.

Lemma profiles_value
    (body : nat → Value → Input * string → result (Input * string))
    (json_vehicles : list Value) (input0 : Input) (st : Input * string) :
  (∀ i x s s', body i x s = Ok s' → check_profile DEFAULT_PROFILE x s.2 = Ok s'.2) →
  for_each body 0 json_vehicles (input0, "") = Ok st →
  ∃ (profiles : list string) (a : nat),
    Forall2 (λ json q, current_profile DEFAULT_PROFILE json = Ok q)
            json_vehicles profiles ∧
    (a ≤ length json_vehicles)%nat ∧
    profiles = replicate a "" ++ replicate (length json_vehicles - a) st.2.
Proof.
  intros Hbody H.
  pose (P (k : nat) (s : Input * string) :=
          ∃ (profiles : list string) (a : nat),
            Forall2 (λ json q, current_profile DEFAULT_PROFILE json = Ok q)
                    (take k json_vehicles) profiles ∧
            (a ≤ k)%nat ∧
            profiles = replicate a "" ++ replicate (k - a) s.2).
  assert (P (length json_vehicles) st) as (profiles & a & HF & Ha & Hp).
  { eapply (for_each_invariant_at P); [| |exact H].
    - intros k x s1 s2 Hk (profiles & a & HF & Ha & Hp) Hb.
      apply Hbody in Hb.
      destruct (check_profile_value _ _ _ Hb) as (q & Hq & Hcase).
      assert (Forall2 (λ json q, current_profile DEFAULT_PROFILE json = Ok q)
                      (take (S k) json_vehicles) (profiles ++ [q])) as HF'.
      { rewrite (take_S_r _ _ _ Hk). apply Forall2_app; [done|].
        by repeat constructor. }
      destruct Hcase as [[Hc E]|(Hc & E1 & E2)].
      + exists (profiles ++ [q]), k. split; [done|]. split; [lia|].
        rewrite Hp, Hc, E. replace (S k - k)%nat with 1%nat by lia. simpl.
        rewrite <- replicate_add. f_equal. f_equal. lia.
      + exists (profiles ++ [q]), a. split; [done|]. split; [lia|].
        rewrite Hp, <- app_assoc, E2, E1. f_equal.
        replace (S k - a)%nat with ((k - a) + 1)%nat by lia.
        by rewrite replicate_add.
    - exists [], 0%nat. rewrite take_0. split; [constructor|]. done. }
  exists profiles, a. by rewrite firstn_all in HF.
Qed.

(** X14. When [parse] returns, the profiles of the vehicles, in the
    order of the document, are some empty strings followed by copies of
    one profile, the profile of the routing wrapper; the wrapper is of
    the kind the router selects, built for the server of that profile,
    or, for libosrm, for a profile whose data set is available. *)
Theorem parse_profiles cl_args input :
  parse cl_args = Ok input →
  ∃ json_input json_vehicles (profiles : list string) (a : nat) wrapper,
    Document_Parse (cl_input cl_args) = Parsed json_input ∧
    member json_input "vehicles" = Ok (Array json_vehicles) ∧
    Forall2 (λ json q, current_profile DEFAULT_PROFILE json = Ok q)
            json_vehicles profiles ∧
    input_routing input = Some wrapper ∧
    (a ≤ length json_vehicles)%nat ∧
    profiles = replicate a ""
               ++ replicate (length json_vehicles - a) (wrapper_profile wrapper) ∧
    match cl_router cl_args with
    | OSRM => ∃ server, cl_servers cl_args !! wrapper_profile wrapper = Some server ∧
                        wrapper = RoutedWrapper (wrapper_profile wrapper) server
    | LIBOSRM => libosrm_available (wrapper_profile wrapper) = true ∧
                 wrapper = LibosrmWrapper (wrapper_profile wrapper)
    | ORS => ∃ server, cl_servers cl_args !! wrapper_profile wrapper = Some server ∧
                       wrapper = OrsHttpWrapper (wrapper_profile wrapper) server
    end.
Proof.
  intros H.
  destruct (parse_Ok_inv _ _ H)
    as (json_input & json_jobs & json_vehicles & has_matrix & input1 & common
        & wrapper & Hdoc & Hjobs & Hvehicles & Hhas & Hw & -> & Hloops).
  assert (∃ (profiles : list string) (a : nat),
             Forall2 (λ json q, current_profile DEFAULT_PROFILE json = Ok q)
            json_vehicles profiles ∧
             (a ≤ length json_vehicles)%nat ∧
             profiles = replicate a "" ++ replicate (length json_vehicles - a) common)
    as (profiles & a & HF & Ha & Hp).
  { destruct has_matrix.
    - destruct Hloops as (lines & matrix_input & st & _ & _ & Hv & _ & ->).
      eapply profiles_value; [|exact Hv].
      intros i x s s' Hb.
      by destruct (add_vehicle_with_index_value _ _ _ _ _ Hb) as (v & _ & _ & _ & _ & ?).
    - destruct Hloops as (st & Hv & _ & ->).
      eapply profiles_value; [|exact Hv].
      intros i x s s' Hb.
      by destruct (add_vehicle_with_coords_value _ _ _ _ Hb) as (v & _ & _ & _ & _ & ?). }
  assert (wrapper_profile wrapper = common) as Hwp.
  { unfold routing_wrapper in Hw.
    destruct (cl_router cl_args); [destruct (cl_servers cl_args !! common)|
                                   destruct (libosrm_available common)|
                                   destruct (cl_servers cl_args !! common)];
      try discriminate; by injection Hw as <-. }
  exists json_input, json_vehicles, profiles, a, wrapper.
  split; [done|]. split; [by eapply nonempty_array_inv|].
  split; [done|]. split; [done|]. split; [done|].
  rewrite Hwp. split; [done|].
  unfold routing_wrapper in Hw.
  destruct (cl_router cl_args).
  - destruct (cl_servers cl_args !! common) as [server|]; [|discriminate].
    injection Hw as <-. eauto.
  - destruct (libosrm_available common); [|discriminate].
    by injection Hw as <-.
  - destruct (cl_servers cl_args !! common) as [server|]; [|discriminate].
    injection Hw as <-. eauto.
Qed.

Lemma routing_bind {A B : Type} (r : result A) (f : A → result B) (msg : string) :
  no_routing r → r ≫= f = Throw ROUTING msg →
  ∃ a, r = Ok a ∧ f a = Throw ROUTING msg.
Proof.
  intros Hr H. destruct r as [a|e m|]; simpl in H; [eauto| |discriminate].
  injection H as -> ->. by destruct (Hr msg).
Qed.

#[local] Hint Resolve no_routing_Ok no_routing_Undefined no_routing_INPUT
  no_routing_HasMember no_routing_member no_routing_GetUint no_routing_GetUint64
  no_routing_parse_coordinates no_routing_get_amount no_routing_get_skills
  no_routing_get_service no_routing_valid_vehicle no_routing_get_vehicle_time_window
  no_routing_get_job_time_windows no_routing_Job_new no_routing_check_profile
  : routing.

Lemma no_routing_add_vehicle_with_coords i v st :
  no_routing (add_vehicle_with_coords DEFAULT_PROFILE default_tw i v st).
Proof. unfold add_vehicle_with_coords. no_routing. Qed.

Lemma no_routing_add_job_with_coords i v input :
  no_routing (add_job_with_coords default_tw tw_lt i v input).
Proof. unfold add_job_with_coords. no_routing. Qed.


(** ** Vehicle identifiers beyond 32 bits *)

Lemma for_each_element_Ok {A St : Type} (body : nat → A → St → result St)
    (l : list A) (x : A) :
  x ∈ l → ∀ (i : nat) (s s' : St), for_each body i l s = Ok s' →
  ∃ k s1 s2, body k x s1 = Ok s2.
Proof.
  intros Hx i s s' H. apply list_elem_of_lookup_1 in Hx as [k Hk].
  destruct (for_each_elements body l i s s' H k x Hk) as (s1 & s2 & Hb). eauto.
Qed.

(** X16. A vehicle whose [id] is an unsigned 64-bit number that does
    not fit 32 bits passes [valid_vehicle], but the loops read the
    identifier with [GetUint]: when a matrix is given, the loop body runs
    into the assertion of the JSON library instead of reporting an input
    error, and in no case does [parse] return an instance. *)
Theorem wide_vehicle_id cl_args json_input json_vehicles (v : Value) (z : Z) :
  Document_Parse (cl_input cl_args) = Parsed json_input →
  member json_input "vehicles" = Ok (Array json_vehicles) →
  v ∈ json_vehicles →
  member v "id" = Ok (Num (NInt z)) → 2 ^ 32 ≤ z < 2 ^ 64 →
  valid_vehicle v = Ok true ∧
  (∀ n i st, add_vehicle_with_index Index_bits DEFAULT_PROFILE default_tw n i v st
             = Undefined) ∧
  (∀ input, parse cl_args ≠ Ok input).
Proof.
  intros Hdoc Hvehicles Hv Hid Hz.
  assert (valid_vehicle v = Ok true) as Hvalid.
  { unfold valid_vehicle. destruct v; try discriminate. simpl.
    simpl in Hid. destruct (find_member members "id") eqn:E; [|discriminate].
    injection Hid as ->. rewrite bool_decide_true by eauto. simpl.
    f_equal. apply bool_decide_eq_true. lia. }
  assert (GetUint (Num (NInt z)) = Undefined) as Hget
    by (simpl; rewrite bool_decide_false by lia; done).
  split; [done|]. split.
  - intros n i [input common]. unfold add_vehicle_with_index.
    rewrite Hvalid. simpl. rewrite Hid. simpl.
    by rewrite bool_decide_false by lia.
  - intros input H.
    destruct (parse_Ok_inv _ _ H)
      as (json_input' & json_jobs & json_vehicles' & has_matrix & input1 & common
          & wrapper & Hdoc' & Hjobs & Hvehicles' & Hhas & Hw & -> & Hloops).
    rewrite Hdoc in Hdoc'. injection Hdoc' as <-.
    apply nonempty_array_inv in Hvehicles'. rewrite Hvehicles in Hvehicles'.
    injection Hvehicles' as <-.
    assert (∃ veh, vehicle_read v veh) as (veh & Hid' & Hr & _).
    { destruct has_matrix.
      - destruct Hloops as (lines & matrix_input & st & _ & _ & Hloop & _).
        destruct (for_each_element_Ok _ _ _ Hv _ _ _ Hloop) as (k & s1 & s2 & Hb).
        destruct (add_vehicle_with_index_value _ _ _ _ _ Hb) as (veh & _ & ? & _).
        eauto.
      - destruct Hloops as (st & Hloop & _).
        destruct (for_each_element_Ok _ _ _ Hv _ _ _ Hloop) as (k & s1 & s2 & Hb).
        destruct (add_vehicle_with_coords_value _ _ _ _ Hb) as (veh & _ & ? & _).
        eauto. }
    rewrite Hid in Hid'. injection Hid' as ->. lia.
Qed.
End parser_reads.

(** ** Skills and amounts *)

Lemma IsUint_true (e : Value) :
  IsUint e = true → ∃ z, e = Num (NInt z) ∧ 0 ≤ z < 2 ^ 32.
Proof.
  destruct e as [| |[z|]| | |]; simpl; try discriminate.
  intros H. apply bool_decide_eq_true in H. eauto.
Qed.

Lemma skills_loop (elements : list Value) :
  ∀ (i : nat) (acc skills : gset Z),
    for_each (λ _ e (skills : gset Z),
                if IsUint e then (s ← GetUint e; Ok ({[ s ]} ∪ skills))
                else Throw INPUT "Invalid skill value.")
             i elements acc = Ok skills ↔
    ∃ zs, elements = (λ z, Num (NInt z)) <$> zs ∧
          Forall (λ z, 0 ≤ z < 2 ^ 32) zs ∧ skills = list_to_set zs ∪ acc.
Proof.
  induction elements as [|e elements IH]; intros i acc skills; simpl.
  - split.
    + intros [= <-]. exists []. split; [done|]. split; [constructor|].
      simpl. by rewrite (left_id_L ∅ (∪)).
    + intros (zs & Hzs & _ & ->). destruct zs; [|discriminate]. simpl.
      by rewrite (left_id_L ∅ (∪)).
  - split.
    + intros H. apply bind_Ok in H as (acc' & He & H).
      destruct (IsUint e) eqn:E; [|discriminate].
      apply bind_Ok in He as (z & Hz & He). injection He as <-.
      apply GetUint_inv in Hz as [-> Hz].
      apply IH in H as (zs & -> & Hr & ->).
      exists (z :: zs). split; [done|]. split; [by constructor|].
      simpl. by rewrite (comm_L (∪) {[z]} (list_to_set zs)), (assoc_L (∪)).
    + intros (zs & Hzs & Hr & ->). destruct zs as [|z zs]; [discriminate|].
      injection Hzs as -> ->. apply Forall_cons in Hr as [Hz Hr].
      simpl. rewrite bool_decide_true by done. simpl.
      apply IH. exists zs. split; [done|]. split; [done|].
      by rewrite (comm_L (∪) {[z]} (list_to_set zs)), (assoc_L (∪)).
Qed.

(** X17. For an object whose [skills] member is an array,
    [get_skills] returns exactly when every element is an unsigned 32-bit
    number, and the result is the set of these numbers: order and
    repetitions of the array are lost.  Without the member the set is
    empty. *)
Theorem get_skills_value (object : Value) (elements : list Value) (skills : Skills) :
  member object "skills" = Ok (Array elements) →
  get_skills object = Ok skills ↔
  ∃ zs, elements = (λ z, Num (NInt z)) <$> zs ∧
        Forall (λ z, 0 ≤ z < 2 ^ 32) zs ∧ skills = list_to_set zs.
Proof.
  intros Hm. unfold get_skills.
  rewrite (member_HasMember _ _ _ Hm). simpl. rewrite Hm. simpl.
  rewrite skills_loop. split; intros (zs & ? & ? & ->); exists zs;
    (split; [done|]); (split; [done|]); by rewrite (right_id_L ∅ (∪)).
Qed.

Lemma amount_loop (key : string) (elements : list Value) :
  ∀ (i : nat) (amount : Amount),
    map_each (λ _ e, if IsInt64 e then GetInt64 e
                     else Throw INPUT ("Invalid " +:+ key +:+ " value."))
             i elements = Ok amount ↔
    elements = (λ z, Num (NInt z)) <$> amount ∧
    Forall (λ z, - 2 ^ 63 ≤ z < 2 ^ 63) amount.
Proof.
  induction elements as [|e elements IH]; intros i amount; simpl.
  - split.
    + intros [= <-]. split; [done|constructor].
    + intros [Hzs _]. by destruct amount.
  - split.
    + intros H. apply bind_Ok in H as (z & Hz & H).
      apply bind_Ok in H as (zs & Hzs & H). injection H as <-.
      destruct (IsInt64 e); [|discriminate].
      apply GetInt64_inv in Hz as [-> Hz].
      apply IH in Hzs as [-> Hr]. split; [done|by constructor].
    + intros [Hzs Hr]. destruct amount as [|z zs]; [discriminate|].
      injection Hzs as -> ->. apply Forall_cons in Hr as [Hz Hr].
      simpl. rewrite bool_decide_true by done. simpl.
      rewrite (proj2 (IH (S i) zs)) by done. done.
Qed.

(** X18. For an object whose member [key] is an array, [get_amount]
    returns exactly when every element is a signed 64-bit number, and the
    result lists these numbers in the order of the array; without the
    member the amount is empty. *)
Theorem get_amount_value (object : Value) (key : string) (elements : list Value)
    (amount : Amount) :
  member object key = Ok (Array elements) →
  get_amount object key = Ok amount ↔
  elements = (λ z, Num (NInt z)) <$> amount ∧
  Forall (λ z, - 2 ^ 63 ≤ z < 2 ^ 63) amount.
Proof.
  intros Hm. unfold get_amount.
  rewrite (member_HasMember _ _ _ Hm). simpl. rewrite Hm. simpl.
  apply amount_loop.
Qed.

(** ** Runs within the preconditions of the JSON library *)

Lemma defined_Ok {A : Type} (a : A) : defined (Ok a).
Proof. done. Qed.

Lemma defined_Throw {A : Type} (e : ERROR) (m : string) : defined (@Throw A e m).
Proof. done. Qed.

Lemma defined_bind {A B : Type} (r : result A) (f : A → result B) :
  defined r → (∀ a, r = Ok a → defined (f a)) → defined (r ≫= f).
Proof. intros Hr Hf. destruct r; simpl; [by apply Hf|done|done]. Qed.

Lemma defined_map_each {A B : Type} (body : nat → A → result B) (l : list A) :
  (∀ i x, x ∈ l → defined (body i x)) → ∀ i, defined (map_each body i l).
Proof.
  induction l as [|x l IH]; intros Hbody i; simpl; [done|].
  apply defined_bind; [apply Hbody; left|]. intros y _.
  apply defined_bind; [apply IH; intros; apply Hbody; by right|]. done.
Qed.

Lemma defined_for_each {A St : Type} (body : nat → A → St → result St) (l : list A) :
  (∀ i x s, x ∈ l → defined (body i x s)) → ∀ i s, defined (for_each body i l s).
Proof.
  induction l as [|x l IH]; intros Hbody i s; simpl; [done|].
  apply defined_bind; [apply Hbody; left|]. intros s' _.
  apply IH. intros. apply Hbody. by right.
Qed.

Lemma defined_HasMember (v : Value) (key : string) :
  IsObject v = true → defined (HasMember v key).
Proof. by destruct v. Qed.

Lemma defined_member (v : Value) (key : string) :
  HasMember v key = Ok true → defined (member v key).
Proof. intros H. by destruct (HasMember_member _ _ H) as [x ->]. Qed.

Lemma defined_GetUint (x : Value) : IsUint x = true → defined (GetUint x).
Proof.
  destruct x as [| |[z|]| | |]; simpl; try discriminate. by intros ->.
Qed.

Lemma defined_GetUint64 (x : Value) : IsUint64 x = true → defined (GetUint64 x).
Proof.
  destruct x as [| |[z|]| | |]; simpl; try discriminate. by intros ->.
Qed.

Lemma defined_GetInt64 (x : Value) : IsInt64 x = true → defined (GetInt64 x).
Proof.
  destruct x as [| |[z|]| | |]; simpl; try discriminate. by intros ->.
Qed.

Lemma defined_parse_coordinates (v : Value) (key : string) :
  HasMember v key = Ok true → defined (parse_coordinates v key).
Proof.
  intros H. unfold parse_coordinates.
  destruct (HasMember_member _ _ H) as [x ->]. simpl.
  destruct x as [| | | |[|[| |a| | |] [|[| |b| | |] rest]]|]; done.
Qed.

(** After [HasMember] answered, reading the member is within the
    preconditions. *)
Ltac defined_step :=
  match goal with
  | |- defined (Ok _) => apply defined_Ok
  | |- defined (Throw _ _) => apply defined_Throw
  | H : IsObject ?v = true |- defined (HasMember ?v _) => apply (defined_HasMember _ _ H)
  | H : HasMember ?v ?k = Ok true |- defined (member ?v ?k) =>
      apply (defined_member _ _ H)
  | H : HasMember ?v ?k = Ok true |- defined (parse_coordinates ?v ?k) =>
      apply (defined_parse_coordinates _ _ H)
  | H : IsUint ?x = true |- defined (GetUint ?x) => apply (defined_GetUint _ H)
  | H : IsUint64 ?x = true |- defined (GetUint64 ?x) => apply (defined_GetUint64 _ H)
  | H : IsInt64 ?x = true |- defined (GetInt64 ?x) => apply (defined_GetInt64 _ H)
  | |- defined (mbind _ _) =>
      apply defined_bind; [|let a := fresh "a" in let Ha := fresh "Ha" in
                            intros a Ha;
                            match type of a with bool => destruct a | _ => idtac end]
  | |- defined (map_each _ _ _) => apply defined_map_each; intros ? ? _
  | |- defined (if negb ?c then _ else _) => destruct c eqn:?; simpl
  | |- defined (if ?c && ?d then _ else _) => destruct c eqn:?, d eqn:?; simpl
  | |- defined (if ?c then _ else _) => destruct c eqn:?
  | |- defined (match ?v with _ => _ end) => is_var v; destruct v
  end.

Lemma defined_get_amount (v : Value) (key : string) :
  IsObject v = true → defined (get_amount v key).
Proof. intros Hv. unfold get_amount. repeat defined_step. Qed.

Lemma defined_get_skills (v : Value) : IsObject v = true → defined (get_skills v).
Proof.
  intros Hv. unfold get_skills. repeat defined_step.
  apply defined_for_each. intros i x s _. repeat defined_step.
Qed.

Lemma defined_get_service (v : Value) : IsObject v = true → defined (get_service v).
Proof. intros Hv. unfold get_service. repeat defined_step. Qed.

Lemma defined_valid_vehicle (v : Value) : defined (valid_vehicle v).
Proof. unfold valid_vehicle. repeat defined_step. Qed.

Lemma defined_get_time_window (tw : Value) : defined (get_time_window tw).
Proof.
  unfold get_time_window. destruct tw as [| | | |[|a [|b rest]]|]; try done.
  repeat defined_step.
Qed.

Lemma valid_vehicle_true (v : Value) :
  valid_vehicle v = Ok true →
  IsObject v = true ∧ HasMember v "id" = Ok true ∧
  ∃ id, member v "id" = Ok id ∧ IsUint64 id = true.
Proof.
  unfold valid_vehicle. intros H. destruct (IsObject v); [|discriminate].
  split; [done|].
  apply bind_Ok in H as ([] & Hhas & H); [|discriminate].
  split; [done|].
  apply bind_Ok in H as (id & Hid & H). injection H as H. eauto.
Qed.

Section parser_defined.
Variable Index_bits : Z.
Variable DEFAULT_PROFILE : string.
Variable default_tw : TimeWindow.
Variable tw_lt : TimeWindow → TimeWindow → bool.
Variable Document_Parse : string → ParseResult.
Variable libosrm_available : string → bool.

Local Abbreviation parse :=
  (parse Index_bits DEFAULT_PROFILE default_tw tw_lt Document_Parse libosrm_available).

Lemma defined_get_vehicle_time_window (v : Value) :
  IsObject v = true → defined (get_vehicle_time_window default_tw v).
Proof.
  intros Hv. unfold get_vehicle_time_window. repeat defined_step.
  apply defined_get_time_window.
Qed.

Lemma defined_get_job_time_windows (j id : Value) :
  IsObject j = true → member j "id" = Ok id → IsUint64 id = true →
  defined (get_job_time_windows default_tw tw_lt j).
Proof.
  intros Hj Hid Hid64. unfold get_job_time_windows.
  apply defined_bind; [by apply defined_HasMember|]. intros [] Hhas; [|done].
  apply defined_bind; [by apply defined_member|]. intros v Hv.
  destruct v; try (rewrite Hid; simpl; apply defined_bind;
                   [by apply defined_GetUint64|done]).
  apply defined_bind; [|done].
  apply defined_map_each. intros. apply defined_get_time_window.
Qed.

Lemma defined_Job_new id l s a sk tws : defined (Job_new tw_lt id l s a sk tws).
Proof. unfold Job_new. repeat case_bool_decide; done. Qed.

Lemma defined_check_profile (v : Value) (common : string) :
  IsObject v = true → (∀ x, member v "profile" = Ok x → ∃ s, x = Str s) →
  defined (check_profile DEFAULT_PROFILE v common).
Proof.
  intros Hv Hp. unfold check_profile.
  apply defined_bind; [by apply defined_HasMember|]. intros has Hhas.
  apply defined_bind.
  - destruct has; [|done]. unfold get_string. rewrite Hhas. simpl.
    destruct (HasMember_member _ _ Hhas) as [x Hx]. rewrite Hx. simpl.
    by destruct (Hp x Hx) as [s ->].
  - intros q _. repeat case_bool_decide; done.
Qed.

Lemma defined_vehicle_index v key id n s1 s2 :
  IsObject v = true → defined (vehicle_index Index_bits v key id n s1 s2).
Proof.
  intros Hv. unfold vehicle_index. repeat defined_step.
Qed.

Lemma defined_vehicle_place v key oi :
  IsObject v = true → defined (vehicle_place v key oi).
Proof. intros Hv. unfold vehicle_place. repeat defined_step. Qed.

Lemma defined_add_vehicle_with_index n i v st :
  readable_vehicle v →
  defined (add_vehicle_with_index Index_bits DEFAULT_PROFILE default_tw n i v st).
Proof.
  intros [Hid Hp]. unfold add_vehicle_with_index. destruct st as [input common].
  apply defined_bind; [apply defined_valid_vehicle|]. intros [] Hvalid; [|done].
  simpl. apply valid_vehicle_true in Hvalid as (Hv & Hhas & id & Hmid & Hid64).
  rewrite Hmid. simpl.
  apply defined_bind; [apply defined_GetUint; eauto|]. intros v_id _.
  apply defined_bind; [by apply defined_vehicle_index|]. intros start_index _.
  apply defined_bind; [by apply defined_vehicle_index|]. intros end_index _.
  apply defined_bind; [by apply defined_vehicle_place|]. intros start _.
  apply defined_bind; [by apply defined_vehicle_place|]. intros end_ _.
  apply defined_bind; [by apply defined_get_amount|]. intros capacity _.
  apply defined_bind; [by apply defined_get_skills|]. intros skills _.
  apply defined_bind; [by apply defined_get_vehicle_time_window|]. intros tw _.
  apply defined_bind; [by apply defined_check_profile|]. done.
Qed.

Lemma defined_add_vehicle_with_coords i v st :
  readable_vehicle v →
  defined (add_vehicle_with_coords DEFAULT_PROFILE default_tw i v st).
Proof.
  intros [Hid Hp]. unfold add_vehicle_with_coords. destruct st as [input common].
  apply defined_bind; [apply defined_valid_vehicle|]. intros [] Hvalid; [|done].
  simpl. apply valid_vehicle_true in Hvalid as (Hv & Hhas & id & Hmid & Hid64).
  apply defined_bind; [by apply defined_HasMember|]. intros has_start Hhs.
  apply defined_bind.
  { destruct has_start; [|done].
    apply defined_bind; [by apply defined_parse_coordinates|]. done. }
  intros start _.
  apply defined_bind; [by apply defined_HasMember|]. intros has_end Hhe.
  apply defined_bind.
  { destruct has_end; [|done].
    apply defined_bind; [by apply defined_parse_coordinates|]. done. }
  intros end_ _.
  rewrite Hmid. simpl.
  apply defined_bind; [apply defined_GetUint; eauto|]. intros v_id _.
  apply defined_bind; [by apply defined_get_amount|]. intros capacity _.
  apply defined_bind; [by apply defined_get_skills|]. intros skills _.
  apply defined_bind; [by apply defined_get_vehicle_time_window|]. intros tw _.
  apply defined_bind; [by apply defined_check_profile|]. done.
Qed.

Lemma job_id_checked (json : Value) (has_id : bool) :
  IsObject json = true → HasMember json "id" = Ok has_id →
  ∀ id_ok, (if has_id then id ← member json "id"; Ok (IsUint64 id) else Ok false)
           = Ok id_ok →
  negb id_ok = false →
  ∃ id, member json "id" = Ok id ∧ IsUint64 id = true.
Proof.
  intros Hj Hhas id_ok H Hok. destruct id_ok; [|done].
  destruct has_id; [|discriminate].
  apply bind_Ok in H as (id & Hid & H). injection H as H. eauto.
Qed.

Lemma defined_add_job_with_index n i json input :
  defined (add_job_with_index Index_bits default_tw tw_lt n i json input).
Proof.
  unfold add_job_with_index. destruct (IsObject json) eqn:Hj; [simpl|done].
  apply defined_bind; [by apply defined_HasMember|]. intros has_id Hhas.
  apply defined_bind.
  { destruct has_id; [|done]. apply defined_bind; [by apply defined_member|]. done. }
  intros id_ok Hid_ok. destruct (negb id_ok) eqn:Hok; [done|].
  destruct (job_id_checked _ _ Hj Hhas _ Hid_ok Hok) as (id & Hid & Hid64).
  rewrite Hid. simpl.
  apply defined_bind; [by apply defined_GetUint64|]. intros j_id _.
  apply defined_bind; [by apply defined_HasMember|]. intros has_index Hhi.
  apply defined_bind.
  { destruct has_index; [|done]. apply defined_bind; [by apply defined_member|]. done. }
  intros index_ok Hindex_ok. destruct index_ok; [simpl|done].
  destruct has_index; [|discriminate].
  apply bind_Ok in Hindex_ok as (x & Hx & Hindex_ok). injection Hindex_ok as Hux.
  rewrite Hx. simpl.
  apply defined_bind; [by apply defined_GetUint|]. intros z _.
  case_bool_decide; [done|].
  apply defined_bind; [by apply defined_HasMember|]. intros has_location Hhl.
  apply defined_bind.
  { destruct has_location; [|done].
    apply defined_bind; [by apply defined_parse_coordinates|]. done. }
  intros job_loc _.
  apply defined_bind; [by apply defined_get_service|]. intros service _.
  apply defined_bind; [by apply defined_get_amount|]. intros amount _.
  apply defined_bind; [by apply defined_get_skills|]. intros skills _.
  apply defined_bind; [by eapply defined_get_job_time_windows|]. intros tws _.
  apply defined_bind; [apply defined_Job_new|]. done.
Qed.

Lemma defined_add_job_with_coords i json input :
  defined (add_job_with_coords default_tw tw_lt i json input).
Proof.
  unfold add_job_with_coords. destruct (IsObject json) eqn:Hj; [simpl|done].
  apply defined_bind; [by apply defined_HasMember|]. intros has_id Hhas.
  apply defined_bind.
  { destruct has_id; [|done]. apply defined_bind; [by apply defined_member|]. done. }
  intros id_ok Hid_ok. destruct (negb id_ok) eqn:Hok; [done|].
  destruct (job_id_checked _ _ Hj Hhas _ Hid_ok Hok) as (id & Hid & Hid64).
  rewrite Hid. simpl.
  apply defined_bind; [by apply defined_GetUint64|]. intros j_id _.
  apply defined_bind; [by apply defined_HasMember|]. intros has_location Hhl.
  apply defined_bind.
  { destruct has_location; [|done].
    apply defined_bind; [by apply defined_member|]. done. }
  intros location_ok Hlocation_ok. destruct location_ok; [simpl|done].
  destruct has_location; [|discriminate].
  apply defined_bind; [by apply defined_parse_coordinates|]. intros c _.
  apply defined_bind; [by apply defined_get_service|]. intros service _.
  apply defined_bind; [by apply defined_get_amount|]. intros amount _.
  apply defined_bind; [by apply defined_get_skills|]. intros skills _.
  apply defined_bind; [by eapply defined_get_job_time_windows|]. intros tws _.
  apply defined_bind; [apply defined_Job_new|]. done.
Qed.

Lemma defined_matrix_line n i line : defined (matrix_line n i line).
Proof.
  unfold matrix_line. destruct line; try done.
  case_bool_decide; [done|].
  apply defined_map_each. intros j e _. repeat defined_step.
Qed.

Lemma defined_nonempty_array json key invalid :
  IsObject json = true → defined (nonempty_array json key invalid).
Proof.
  intros Hj. unfold nonempty_array. repeat defined_step.
  all: match goal with |- defined (match ?l with _ => _ end) => by destruct l end.
Qed.

Lemma defined_routing_wrapper cl_args common :
  defined (routing_wrapper libosrm_available cl_args common).
Proof.
  unfold routing_wrapper.
  destruct (cl_router cl_args); [destruct (cl_servers cl_args !! common)|
                                 destruct (libosrm_available common)|
                                 destruct (cl_servers cl_args !! common)]; done.
Qed.

(** X19. When the document is an object and every element of its
    [vehicles] array is readable (an identifier that passes
    [valid_vehicle] fits 32 bits, a [profile] member is a string),
    [parse] stays within the preconditions of the JSON library and of
    [get_string]: it returns an instance or throws an exception,
    whatever else the document holds. *)
Theorem parse_defined cl_args json_input :
  Document_Parse (cl_input cl_args) = Parsed json_input →
  IsObject json_input = true →
  (∀ json_vehicles, member json_input "vehicles" = Ok (Array json_vehicles) →
                    Forall readable_vehicle json_vehicles) →
  defined (parse cl_args).
Proof.
  intros Hdoc Hobj Hvehicles. unfold io.parse. rewrite Hdoc.
  apply defined_bind; [by apply defined_nonempty_array|]. intros json_jobs _.
  apply defined_bind; [by apply defined_nonempty_array|].
  intros json_vehicles Hv. apply nonempty_array_inv in Hv.
  specialize (Hvehicles _ Hv).
  apply defined_bind; [by apply defined_HasMember|]. intros has_matrix Hhas.
  apply defined_bind.
  - destruct has_matrix.
    + apply defined_bind; [by apply defined_member|]. intros matrix _.
      destruct matrix; try done.
      apply defined_bind;
        [apply defined_map_each; intros; apply defined_matrix_line|].
      intros matrix_input _.
      apply defined_bind.
      { apply defined_for_each. intros i v st Hin.
        apply defined_add_vehicle_with_index.
        by apply (proj1 (Forall_forall _ _) Hvehicles). }
      intros st _.
      apply defined_bind;
        [apply defined_for_each; intros; apply defined_add_job_with_index|].
      done.
    + apply defined_bind.
      { apply defined_for_each. intros i v st Hin.
        apply defined_add_vehicle_with_coords.
        by apply (proj1 (Forall_forall _ _) Hvehicles). }
      intros st _.
      apply defined_bind;
        [apply defined_for_each; intros; apply defined_add_job_with_coords|].
      done.
  - intros [input common] _.
    apply defined_bind; [apply defined_routing_wrapper|]. done.
Qed.

(** ** Documents without jobs or vehicles *)

Lemma nonempty_array_throw (json : Value) (key invalid : string) :
  IsObject json = true →
  (∀ x rest, member json key ≠ Ok (Array (x :: rest))) →
  nonempty_array json key invalid = Throw INPUT invalid.
Proof.
  intros Hj Hno. unfold nonempty_array.
  destruct json as [| | | | |members]; try discriminate. simpl in *.
  destruct (find_member members key) as [v|] eqn:E.
  - rewrite bool_decide_true by eauto. simpl.
    destruct v as [| | | |[|x rest]|]; try done. by destruct (Hno x rest).
  - rewrite bool_decide_false by (by intros [? ?]). done.
Qed.

(** X20. A document that is an object whose [jobs] member is missing,
    not an array or an empty array is rejected with [Invalid jobs.],
    whatever its vehicles and matrix; with a non-empty [jobs] array, the
    same defect of [vehicles] is rejected with [Invalid vehicles.],
    before any job, vehicle or matrix entry is looked at. *)
Theorem parse_requires_jobs_and_vehicles cl_args json_input :
  Document_Parse (cl_input cl_args) = Parsed json_input →
  IsObject json_input = true →
  ((∀ x rest, member json_input "jobs" ≠ Ok (Array (x :: rest))) →
   parse cl_args = Throw INPUT "Invalid jobs.") ∧
  ((∃ x rest, member json_input "jobs" = Ok (Array (x :: rest))) →
   (∀ x rest, member json_input "vehicles" ≠ Ok (Array (x :: rest))) →
   parse cl_args = Throw INPUT "Invalid vehicles.").
Proof.
  intros Hdoc Hobj. unfold io.parse. rewrite Hdoc. split.
  - intros Hno. by rewrite (nonempty_array_throw _ _ _ Hobj Hno).
  - intros (x & rest & Hjobs) Hno.
    rewrite (nonempty_array_throw _ "vehicles" _ Hobj Hno).
    unfold nonempty_array at 1. rewrite (member_HasMember _ _ _ Hjobs). simpl.
    by rewrite Hjobs.
Qed.
End parser_defined.

(** ** The worked documents *)

(** The document of the worked instance parses to that instance. *)
Lemma Fleet_parse :
  Document.parse16 Fleet.json_input
  = Ok (set_routing Example.input
          (RoutedWrapper "car" {| server_host := "0.0.0.0"; server_port := "5000" |})).
Proof. vm_compute. reflexivity. Qed.

Lemma parse_keeps_order_witness :
  ∃ input, Document.parse16 Fleet.json_input = Ok input ∧
  ∃ json_input json_jobs json_vehicles,
    Parsed Fleet.json_input = Parsed json_input ∧
    member json_input "jobs" = Ok (Array json_jobs) ∧
    member json_input "vehicles" = Ok (Array json_vehicles) ∧
    Forall2 (vehicle_read Document.default_tw) json_vehicles (input_vehicles input) ∧
    Forall2 (job_read Document.default_tw Document.tw_lt) json_jobs (input_jobs input) ∧
    input_vehicles input ≠ [] ∧ input_jobs input ≠ [] ∧
    input_geometry input = false ∧
    is_Some (input_routing input).
Proof.
  eexists. split; [exact Fleet_parse|].
  apply (parse_keeps_order 16 "car" Document.default_tw Document.tw_lt
           (λ _, Parsed Fleet.json_input) (λ _, true) Document.cl_args).
  exact Fleet_parse.
Defined.

Lemma parse_with_matrix_witness :
  ∃ input lines, Document.parse16 Fleet.json_input = Ok input ∧
  member Fleet.json_input "matrix" = Ok (Array lines) ∧
  ∃ json_jobs json_vehicles,
    member Fleet.json_input "jobs" = Ok (Array json_jobs) ∧
    member Fleet.json_input "vehicles" = Ok (Array json_vehicles) ∧
    lines = (λ row, Array ((λ z, Num (NInt z)) <$> row)) <$> input_matrix input ∧
    costs_below (2 ^ 32) (input_matrix input) ∧
    Forall2 (λ json v,
               place_with_index 16 (length lines) json "start_index" "start"
                                (vehicle_start v) ∧
               place_with_index 16 (length lines) json "end_index" "end"
                                (vehicle_end v))
            json_vehicles (input_vehicles input) ∧
    Forall2 (λ json j, job_location_with_index 16 (length lines) json (job_location j))
            json_jobs (input_jobs input).
Proof.
  eexists _, _. split; [exact Fleet_parse|]. split; [reflexivity|].
  apply (parse_with_matrix 16 "car" Document.default_tw Document.tw_lt
           (λ _, Parsed Fleet.json_input) (λ _, true) Document.cl_args).
  - exact Fleet_parse.
  - reflexivity.
  - reflexivity.
Defined.

Lemma parsed_instance_fits_operator_witness :
  ∃ input, Document.parse16 Fleet.json_input = Ok input ∧
  wf_input input ∧
  ∀ sol s sv sr t tv tr op,
    CrossExchange_new input sol s sv sr t tv tr = Some op →
    wf_route input sol sv s → wf_route input sol tv t →
    is_Some (is_valid op) ∧ is_Some (apply op) ∧ is_Some (compute_gain op) ∧
    (cache_holds input sol sv s sr → cache_holds input sol tv t tr →
     ∃ op1, compute_gain op = Some op1 ∧
       Z.abs (normal_s_gain op1) ≤ 5 * 2 ^ 32 ∧
       Z.abs (reversed_s_gain op1) ≤ 5 * 2 ^ 32 ∧
       Z.abs (normal_t_gain op1) ≤ 5 * 2 ^ 32 ∧
       Z.abs (reversed_t_gain op1) ≤ 5 * 2 ^ 32 ∧
       - 2 ^ 63 ≤ stored_gain op1 < 2 ^ 63).
Proof.
  eexists. split; [exact Fleet_parse|].
  apply (parsed_instance_fits_operator 16 "car" Document.default_tw Document.tw_lt
           (λ _, Parsed Fleet.json_input) (λ _, true) Document.cl_args
           _ Fleet.json_input
           ((λ row, Array ((λ z, Num (NInt z)) <$> row)) <$> Example.matrix)).
  - exact Fleet_parse.
  - reflexivity.
  - reflexivity.
Defined.


Lemma parse_profiles_witness :
  ∃ input, Document.parse16 Fleet.json_coords = Ok input ∧
  ∃ json_input json_vehicles (profiles : list string) (a : nat) wrapper,
    Parsed Fleet.json_coords = Parsed json_input ∧
    member json_input "vehicles" = Ok (Array json_vehicles) ∧
    Forall2 (λ json q, current_profile "car" json = Ok q) json_vehicles profiles ∧
    input_routing input = Some wrapper ∧
    (a ≤ length json_vehicles)%nat ∧
    profiles = replicate a ""
               ++ replicate (length json_vehicles - a) (wrapper_profile wrapper) ∧
    ∃ server, cl_servers Document.cl_args !! wrapper_profile wrapper = Some server ∧
              wrapper = RoutedWrapper (wrapper_profile wrapper) server.
Proof.
  eexists. split; [vm_compute; reflexivity|].
  apply (parse_profiles 16 "car" Document.default_tw Document.tw_lt
           (λ _, Parsed Fleet.json_coords) (λ _, true) Document.cl_args).
  vm_compute. reflexivity.
Defined.

Lemma Fleet_parse_libosrm :
  parse 16 "car" Document.default_tw Document.tw_lt (λ _, Parsed Fleet.json_input)
        (λ _, false) Fleet.cl_args_libosrm
  = Throw ROUTING "Invalid shared memory region: car".
Proof. vm_compute. reflexivity. Qed.


Lemma wide_vehicle_id_witness :
  valid_vehicle (Object [("id", Num (NInt 4294967296))]) = Ok true ∧
  (∀ n i st, add_vehicle_with_index 16 "car" Document.default_tw n i
               (Object [("id", Num (NInt 4294967296))]) st = Undefined) ∧
  (∀ input, Document.parse16 Fleet.json_wide_id ≠ Ok input).
Proof.
  apply (wide_vehicle_id 16 "car" Document.default_tw Document.tw_lt
           (λ _, Parsed Fleet.json_wide_id) (λ _, true) Document.cl_args
           Fleet.json_wide_id [Object [("id", Num (NInt 4294967296))]]
           (Object [("id", Num (NInt 4294967296))]) 4294967296).
  - reflexivity.
  - reflexivity.
  - constructor.
  - reflexivity.
  - lia.
Defined.

Lemma get_skills_value_witness :
  get_skills (Object [("skills", Array [Num (NInt 3); Num (NInt 1); Num (NInt 3)])])
  = Ok (list_to_set [3; 1; 3]).
Proof.
  apply (get_skills_value
           (Object [("skills", Array [Num (NInt 3); Num (NInt 1); Num (NInt 3)])])
           [Num (NInt 3); Num (NInt 1); Num (NInt 3)]).
  - reflexivity.
  - exists [3; 1; 3]. split; [reflexivity|]. split; [|reflexivity].
    repeat constructor; lia.
Defined.

Lemma get_amount_value_witness :
  get_amount (Object [("amount", Array [Num (NInt 2); Num (NInt (-1))])]) "amount"
  = Ok [2; -1].
Proof.
  apply (get_amount_value
           (Object [("amount", Array [Num (NInt 2); Num (NInt (-1))])]) "amount"
           [Num (NInt 2); Num (NInt (-1))]).
  - reflexivity.
  - split; [reflexivity|]. repeat constructor; lia.
Defined.

Lemma parse_defined_witness : defined (Document.parse16 Fleet.json_coords).
Proof.
  apply (parse_defined 16 "car" Document.default_tw Document.tw_lt
           (λ _, Parsed Fleet.json_coords) (λ _, true) Document.cl_args
           Fleet.json_coords).
  - reflexivity.
  - reflexivity.
  - intros json_vehicles [= <-]. repeat constructor.
    + intros id [= <-]. reflexivity.
    + intros x [= <-]. eauto.
Defined.

Lemma parse_requires_jobs_and_vehicles_witness :
  Document.parse16 (Object [("jobs", Array []); ("vehicles", Array [])])
  = Throw INPUT "Invalid jobs." ∧
  Document.parse16 (Object [("jobs", Array [Null]); ("vehicles", Array [])])
  = Throw INPUT "Invalid vehicles.".
Proof.
  split.
  - apply (proj1 (parse_requires_jobs_and_vehicles 16 "car" Document.default_tw
                    Document.tw_lt
                    (λ _, Parsed (Object [("jobs", Array []); ("vehicles", Array [])]))
                    (λ _, true) Document.cl_args _ eq_refl eq_refl)).
    intros x rest. discriminate.
  - apply (proj2 (parse_requires_jobs_and_vehicles 16 "car" Document.default_tw
                    Document.tw_lt
                    (λ _, Parsed (Object [("jobs", Array [Null]);
                                          ("vehicles", Array [])]))
                    (λ _, true) Document.cl_args _ eq_refl eq_refl)).
    + exists Null, []. reflexivity.
    + intros x rest. discriminate.
Defined.
